(** * fixmd: a shallow embedding of [main.go] and its safety properties

    The Go program walks a directory (or takes one file), snapshots every
    Markdown file, writes a backup of each, and then lets one goroutine per
    file send the content to a remote model and write the answer back in
    place.  This development models

    - the string and path helpers the program calls ([strings], [filepath]),
    - the file system as a finite map from path to content,
    - the backup phase, the retrying client and the write-back,
    - the status bar counters and the progress bar,
    - the start-up check of the API key,
    - the goroutine fan-out as an interleaving step relation guarded by the
      buffered-channel semaphore,

    and proves the properties stated for them. *)

From Stdlib Require Import String Ascii List ZArith QArith Qround Lia Lqa Bool DecimalString.
From Stdlib Require Import PrimFloat SpecFloat FloatOps.
From Stdlib Require Uint63.
From stdpp Require Import gmap strings list.
Import ListNotations.

Local Open Scope string_scope.
Local Open Scope list_scope.

(** ** Package [strings] (byte level) *)

Module strings.

(** [strings.ToLower] on the ASCII range.  The program only ever tests
    the lowered string for the ASCII suffix [".md"], and no rune outside
    ASCII lowers to one of the bytes ['.'], ['m'], ['d']. *)
Definition lower_byte (c : ascii) : ascii :=
  let n := nat_of_ascii c in
  if (65 <=? n)%nat && (n <=? 90)%nat then ascii_of_nat (n + 32) else c.

Fixpoint ToLower (s : string) : string :=
  match s with
  | EmptyString => EmptyString
  | String c r => String (lower_byte c) (ToLower r)
  end.

(** [s[n:]] for [n <= len(s)]. *)
Fixpoint slice_from (n : nat) (s : string) : string :=
  match n, s with
  | O, _ => s
  | S n', String _ r => slice_from n' r
  | S _, EmptyString => EmptyString
  end.

Definition HasPrefix (s pre : string) : bool := String.prefix pre s.

(** [len(s) >= len(suffix) && s[len(s)-len(suffix):] == suffix] *)
Definition HasSuffix (s suffix : string) : bool :=
  (String.length suffix <=? String.length s)%nat
  && String.eqb (slice_from (String.length s - String.length suffix) s) suffix.

(** [strings.ReplaceAll s old new] for a non-empty [old]: scan left to
    right, replacing each non-overlapping occurrence.  [skip] counts the
    bytes of an occurrence that are still to be dropped. *)
Fixpoint replace_from (skip : nat) (s old new : string) : string :=
  match s with
  | EmptyString => EmptyString
  | String c r =>
      match skip with
      | S k => replace_from k r old new
      | O =>
          if String.prefix old s
          then new +:+ replace_from (String.length old - 1) r old new
          else String c (replace_from 0 r old new)
      end
  end.

(** With an empty [old], Go inserts [new] before every byte and at the
    end. *)
Fixpoint intersperse_all (s new : string) : string :=
  match s with
  | EmptyString => new
  | String c r => new +:+ String c (intersperse_all r new)
  end.

Definition ReplaceAll (s old new : string) : string :=
  match old with
  | EmptyString => intersperse_all s new
  | _ => replace_from 0 s old new
  end.

(** [strings.Join] *)
Fixpoint Join (elems : list string) (sep : string) : string :=
  match elems with
  | [] => ""
  | [e] => e
  | e :: rest => e +:+ sep +:+ Join rest sep
  end.

End strings.

(** ** Package [path/filepath] on a Unix target *)

Module filepath.

Definition Separator : ascii := "/"%char.

Definition IsAbs (p : string) : bool := strings.HasPrefix p "/".

(** The path split at every separator: [n] separators give [n+1]
    elements, some of them possibly empty. *)
Fixpoint elements (p : string) : list string :=
  match p with
  | EmptyString => [""]
  | String c r =>
      if Ascii.eqb c Separator then "" :: elements r
      else match elements r with
           | h :: t => String c h :: t
           | [] => [String c ""]
           end
  end.

(** One element processed by [Clean].  [out] is the cleaned path so far,
    innermost element first.  Empty and ["."] elements vanish, [".."]
    removes the element before it, is dropped at the root, and is kept
    at the start of a relative path. *)
Definition clean_element (rooted : bool) (out : list string) (e : string)
  : list string :=
  if String.eqb e "" || String.eqb e "." then out
  else if String.eqb e ".." then
    match out with
    | top :: below => if String.eqb top ".." then e :: out else below
    | [] => if rooted then [] else [e]
    end
  else e :: out.

Definition Clean (p : string) : string :=
  let rooted := IsAbs p in
  let out := rev (fold_left (clean_element rooted) (elements p) []) in
  if rooted then "/" +:+ strings.Join out "/"
  else match out with
       | [] => "."
       | _ => strings.Join out "/"
       end.

(** [Join]: leading empty elements are skipped, the rest is joined with
    the separator and cleaned; all empty gives the empty string. *)
Fixpoint Join (elem : list string) : string :=
  match elem with
  | [] => ""
  | e :: rest =>
      if String.eqb e "" then Join rest
      else Clean (strings.Join elem "/")
  end.

(** Everything up to and including the last separator. *)
Definition upto_last_separator (p : string) : string :=
  match rev (elements p) with
  | _ :: before => strings.Join (rev ("" :: before)) "/"
  | [] => ""
  end.

Definition Dir (p : string) : string :=
  match rev (elements p) with
  | [_] => Clean ""
  | _ => Clean (upto_last_separator p)
  end.

(** [Base]: the last element after trailing separators are stripped;
    ["."] for the empty path, ["/"] for a path of separators only. *)
Definition Base (p : string) : string :=
  if String.eqb p "" then "."
  else match filter (fun e => negb (String.eqb e "")) (rev (elements p)) with
       | e :: _ => e
       | [] => "/"
       end.

(** [Abs]: a rooted path is cleaned; any other is joined to the working
    directory, and fails when [os.Getwd] (whose result is [getwd])
    fails. *)
Definition Abs (getwd : string * option string) (p : string)
  : string * option string :=
  if IsAbs p then (Clean p, None)
  else match getwd with
       | (wd, None) => (Join [wd; p], None)
       | (_, Some e) => ("", Some e)
       end.

End filepath.

(** ** Errors, events and the world

    A Go [error] is modelled by its message; [None] is [nil]. *)

Definition error : Type := option string.

(** Decimal rendering of an integer, as [%d] prints it. *)
Definition itoa (z : Z) : string := NilZero.string_of_int (Z.to_int z).

(** [time.Duration]: a signed count of nanoseconds. *)
Definition Duration : Type := Z.
Definition Second : Duration := 1000000000%Z.

(** What the process does, in program order.  A printed line is recorded
    by its text; carriage returns, newlines and colour codes are left out.
    [EvAttempt] marks the return of one call of [processWithGemini] inside
    the retry loop, with what it returned. *)
Inductive Event : Type :=
| EvPrint (line : string)
| EvMkdirAll (path : string)
| EvWriteFile (name data : string)
| EvPost (body : string)
| EvAttempt (result : string) (err : option string)
| EvSleep (d : Duration).

(** Regular files by name, the actions performed so far (oldest first),
    and how far the process has read into the two streams the environment
    supplies: the outcomes of its HTTP exchanges and its random numbers. *)
Record World : Type := mkWorld {
  files : gmap string string;
  trace : list Event;
  calls : nat;   (* HTTP exchanges started so far *)
  draws : nat    (* values taken from the random source so far *)
}.

(** How one [os.WriteFile] call ends.  The call opens the file with
    [O_WRONLY|O_CREATE|O_TRUNC], writes, and closes; it "requires multiple
    system calls to complete, a failure mid-operation can leave the file in
    a partially written state" (package [os]). *)
Inductive WriteOutcome : Type :=
| WriteCompletes
| OpenFails (e : string)
| WriteStops (written : nat) (e : string)
| CloseFails (e : string).

(** An HTTP response as the program reads it: the status code, and what
    [io.ReadAll] makes of the body. *)
Record Response : Type := mkResponse {
  StatusCode : Z;
  Body : string * option string
}.

(** The JSON shapes exchanged with the service.  [Candidate]'s field is
    [Content] in the source; it carries the type's name here. *)
Module Gemini.
Record Part : Type := mkPart { Text : string }.
Record Content : Type := mkContent { Role : string; Parts : list Part }.
Record Candidate : Type := mkCandidate { CandidateContent : Content }.
Record GeminiResponse : Type := mkGeminiResponse { Candidates : list Candidate }.
Record GeminiRequest : Type := mkGeminiRequest { Contents : list Content }.
End Gemini.
Import Gemini.

(** A node of the directory tree that [filepath.Walk] visits: its name,
    and for a directory whether it can be listed and its entries in the
    lexical order in which [Walk] visits them. *)
#[warnings="-register-all"]
Inductive Entry : Type :=
| File (name : string)
| Directory (name : string) (listing : error) (entries : list Entry).

(** Everything the environment decides. *)
Record Env : Type := mkEnv {
  GeminiAPIKey : string;
  GeminiAPIURL : string;
  Getwd : string * error;
  Stat : string -> Entry * error;
  MkdirAll_err : string -> error;
  WriteFile_outcome : string -> string -> WriteOutcome;
  Marshal : GeminiRequest -> string * error;
  NewRequest_err : string -> error;             (* by URL *)
  Do : nat -> string -> string -> Response * error;
                                                (* the n-th exchange, by URL and body *)
  Unmarshal : string -> GeminiResponse * error;
  Float64 : nat -> Q                            (* the n-th [rand.Float64()] *)
}.

(** ** A state monad over the world *)

Definition M (A : Type) : Type := World -> A * World.

Definition ret {A} (a : A) : M A := fun w => (a, w).
Definition bind {A B} (m : M A) (k : A -> M B) : M B :=
  fun w => let '(a, w') := m w in k a w'.
Definition emit (e : Event) : M unit :=
  fun w => (tt, mkWorld (files w) (trace w ++ [e]) (calls w) (draws w)).

Declare Scope go_scope.
Delimit Scope go_scope with go.
Notation "'let*' p ':=' m 'in' k" := (bind m (fun p => k))
  (at level 10, p pattern, m at level 100, k at level 200) : go_scope.
Notation "m ;;; k" := (bind m (fun _ => k))
  (at level 100, right associativity) : go_scope.
Local Open Scope go_scope.

Definition Println (line : string) : M unit := emit (EvPrint line).

(** [printError]: the message in red on a line of its own. *)
Definition printError (msg : string) : M unit :=
  emit (EvPrint ("ERROR: " +:+ msg)).

(** ** Package [os] *)

Module os.

Definition ReadFile (name : string) : M (string * error) :=
  fun w => match files w !! name with
           | Some data => ((data, None), w)
           | None => (("", Some ("open " +:+ name +:+ ": no such file or directory")), w)
           end.

Definition MkdirAll (env : Env) (path : string) : M error :=
  emit (EvMkdirAll path) ;;; ret (MkdirAll_err env path).

Definition store (name data : string) : M unit :=
  fun w => (tt, mkWorld (<[name := data]> (files w)) (trace w) (calls w) (draws w)).

Definition WriteFile (env : Env) (name data : string) : M error :=
  emit (EvWriteFile name data) ;;;
  match WriteFile_outcome env name data with
  | WriteCompletes => store name data ;;; ret None
  | OpenFails e => ret (Some e)
  | WriteStops n e => store name (String.substring 0 (Nat.min n (String.length data)) data) ;;; ret (Some e)
  | CloseFails e => store name data ;;; ret (Some e)
  end.

End os.

(** ** The program *)

Definition BackupDirName : string := "backup".
Definition SystemPrompt : string :=
  "You are an API for formatting and fixing spelling mistakes in a markdown file passed to you. Your two main focuses are DO NOT CHANGE the actual content or meaning of the file whatsoever, only rectify the grammer and make it beautifully well formatted in markdown, utilising all markdown tools. Nothing more. Ensure your response is PURELY the file, as its being used directly in the program. Dont say here you go: or anything, and dont embed in code blocks.".
Definition MaxRetries : nat := 5.
Definition InitialBackoff : Duration := (1 * Second)%Z.
Definition MaxBackoff : Duration := (30 * Second)%Z.
Definition MaxConcurrent : nat := 3.

(** [FileToProcess] contains the info of a file to be processed. *)
Record FileToProcess : Type := mkFileToProcess {
  Path : string;
  Content : string;
  BackupPath : string
}.

Definition noFile : FileToProcess := mkFileToProcess "" "" "".

(** *** [prepareFileForProcessing] *)

Definition prepareFileForProcessing (env : Env) (filePath backupBaseDir : string)
  : M (FileToProcess * error) :=
  let* (content, err) := os.ReadFile filePath in
  match err with
  | Some e => ret (noFile, Some ("error reading file: " +:+ e))
  | None =>
      let '(absFilePath, err) := filepath.Abs (Getwd env) filePath in
      match err with
      | Some e => ret (noFile, Some ("error getting absolute path: " +:+ e))
      | None =>
          let fileDir := filepath.Dir absFilePath in
          let '(workDir, _) := Getwd env in
          let '(absWorkDir, _) := filepath.Abs (Getwd env) workDir in
          let relPath :=
            if String.eqb fileDir absWorkDir then
              (* File is in the current directory *)
              filepath.Base filePath
            else if strings.HasPrefix fileDir absWorkDir then
              (* File is in a subdirectory of the current directory *)
              let relPath := strings.slice_from (String.length absWorkDir + 1) fileDir in
              filepath.Join [relPath; filepath.Base filePath]
            else
              (* File is outside the current directory *)
              let relPath :=
                strings.ReplaceAll absFilePath (String filepath.Separator "") "_" in
              match relPath with
              | String c rest =>
                  if Ascii.eqb c "/" || Ascii.eqb c "\" then rest else relPath
              | EmptyString => relPath
              end in
          let backupFilePath := filepath.Join [backupBaseDir; relPath +:+ ".bak"] in
          ret (mkFileToProcess filePath content backupFilePath, None)
      end
  end.

(** *** [filepath.Walk] over the directory tree *)

Record FileInfo : Type := mkFileInfo { Name : string; IsDir : bool }.

Definition info_of (e : Entry) : FileInfo :=
  match e with
  | File name => mkFileInfo name false
  | Directory name _ _ => mkFileInfo name true
  end.

(** What a [WalkFunc] returns besides [nil]: the sentinel
    [filepath.SkipDir], or a genuine error. *)
Inductive WalkErr : Type :=
| SkipDir
| Failure (msg : string).

Definition is_SkipDir (e : WalkErr) : bool :=
  match e with SkipDir => true | Failure _ => false end.

(** The callback, with the variable it closes over made explicit: it maps
    the value of that variable to its new value. *)
Definition WalkFunc (S : Type) : Type :=
  string -> FileInfo -> error -> S -> M (option WalkErr * S).

(** The loop of [walk] over the names of a directory: each entry is
    walked in turn; an error stops the loop, except [SkipDir] coming back
    from an entry that is a directory, which only skips that entry. *)
Definition walkNames {S : Type}
    (walkEntry : string -> Entry -> S -> M (option WalkErr * S)) (path : string)
  : list Entry -> S -> M (option WalkErr * S) :=
  fix each (names : list Entry) (acc : S) : M (option WalkErr * S) :=
    match names with
    | [] => ret (None, acc)
    | child :: rest =>
        let filename := filepath.Join [path; Name (info_of child)] in
        let* (err, acc) := walkEntry filename child acc in
        match err with
        | Some we =>
            if negb (IsDir (info_of child)) || negb (is_SkipDir we)
            then ret (Some we, acc)
            else each rest acc
        | None => each rest acc
        end
    end.

(** [walk]: a file is handed to the callback; a directory is listed, handed
    to the callback together with the listing error, and, unless either
    failed, its entries are walked in order. *)
Fixpoint walk {S : Type} (walkFn : WalkFunc S) (path : string) (e : Entry) (acc : S)
  : M (option WalkErr * S) :=
  match e with
  | File _ => walkFn path (info_of e) None acc
  | Directory _ listing entries =>
      let* (err1, acc) := walkFn path (info_of e) listing acc in
      match listing, err1 with
      | None, None => walkNames (walk walkFn) path entries acc
      | _, _ => ret (err1, acc)
      end
  end.

Definition Walk {S : Type} (env : Env) (root : string) (fn : WalkFunc S) (acc : S)
  : M (error * S) :=
  let* (err, acc) :=
    match Stat env root with
    | (_, Some e) => fn root (mkFileInfo "" false) (Some e) acc
    | (entry, None) => walk fn root entry acc
    end in
  match err with
  | Some (Failure msg) => ret (Some msg, acc)
  | Some SkipDir | None => ret (None, acc)
  end.

(** *** [collectFilesFromDir] *)

Definition isMarkdown (name : string) : bool :=
  strings.HasSuffix (strings.ToLower name) ".md".

Definition walkFunc (env : Env) (dirPath backupBaseDir : string) (recursive : bool)
  : WalkFunc (list FileToProcess) :=
  fun path info err filesToProcess =>
    match err with
    | Some e => ret (Some (Failure e), filesToProcess)
    | None =>
        if IsDir info then
          (* Skip subdirectories if not recursive *)
          if negb recursive && negb (String.eqb path dirPath)
          then ret (Some SkipDir, filesToProcess)
          else ret (None, filesToProcess)
        else if negb (isMarkdown (Name info)) then
          (* Only process markdown files *)
          ret (None, filesToProcess)
        else
          let* (fileToProcess, err) := prepareFileForProcessing env path backupBaseDir in
          match err with
          | Some e => ret (Some (Failure e), filesToProcess)
          | None => ret (None, filesToProcess ++ [fileToProcess])
          end
    end.

Definition collectFilesFromDir (env : Env) (dirPath backupBaseDir : string)
    (recursive : bool) : M (list FileToProcess * error) :=
  let* (err, filesToProcess) :=
    Walk env dirPath (walkFunc env dirPath backupBaseDir recursive) [] in
  match err with
  | Some e => ret ([], Some ("error walking directory: " +:+ e))
  | None => ret (filesToProcess, None)
  end.

(** *** [backupAllFiles] *)

Fixpoint backupFrom (env : Env) (total i : nat) (filesToProcess : list FileToProcess)
  : M error :=
  match filesToProcess with
  | [] => Println "All files successfully backed up." ;;; ret None
  | fileInfo :: rest =>
      (* Create the backup directory structure *)
      let backupDirPath := filepath.Dir (BackupPath fileInfo) in
      let* err := os.MkdirAll env backupDirPath in
      match err with
      | Some e =>
          ret (Some ("error creating backup directory structure for "
                     +:+ Path fileInfo +:+ ": " +:+ e))
      | None =>
          (* Write the backup file *)
          let* err := os.WriteFile env (BackupPath fileInfo) (Content fileInfo) in
          match err with
          | Some e =>
              ret (Some ("error creating backup file for "
                         +:+ Path fileInfo +:+ ": " +:+ e))
          | None =>
              Println ("[" +:+ itoa (Z.of_nat (i + 1)) +:+ "/" +:+ itoa (Z.of_nat total)
                       +:+ "] Backup created: " +:+ Path fileInfo) ;;;
              backupFrom env total (S i) rest
          end
      end
  end.

Definition backupAllFiles (env : Env) (filesToProcess : list FileToProcess) : M error :=
  backupFrom env (length filesToProcess) 0 filesToProcess.

(** *** [processWithGemini] *)

Definition client_Do (env : Env) (url body : string) : M (Response * error) :=
  fun w => (Do env (calls w) url body,
            mkWorld (files w) (trace w ++ [EvPost body]) (S (calls w)) (draws w)).

Definition StatusOK : Z := 200.

Definition processWithGemini (env : Env) (content : string) : M (string * error) :=
  let requestBody :=
    mkGeminiRequest [mkContent "user" [mkPart SystemPrompt; mkPart content]] in
  let '(requestJSON, err) := Marshal env requestBody in
  match err with
  | Some e => ret ("", Some ("error marshaling request: " +:+ e))
  | None =>
      let apiURL := GeminiAPIURL env +:+ "?key=" +:+ GeminiAPIKey env in
      match NewRequest_err env apiURL with
      | Some e => ret ("", Some ("error creating request: " +:+ e))
      | None =>
          let* (resp, err) := client_Do env apiURL requestJSON in
          match err with
          | Some e => ret ("", Some ("error sending request: " +:+ e))
          | None =>
              let '(respBody, err) := Body resp in
              match err with
              | Some e => ret ("", Some ("error reading response: " +:+ e))
              | None =>
                  if negb (StatusCode resp =? StatusOK)%Z then
                    ret ("", Some ("API returned error status: " +:+ itoa (StatusCode resp)
                                   +:+ ", body: " +:+ respBody))
                  else
                    let '(geminiResp, err) := Unmarshal env respBody in
                    match err with
                    | Some e => ret ("", Some ("error unmarshaling response: " +:+ e))
                    | None =>
                        match Candidates geminiResp with
                        | [] => ret ("", Some "no valid response from API")
                        | candidate :: _ =>
                            match Parts (CandidateContent candidate) with
                            | [] => ret ("", Some "no valid response from API")
                            | part :: _ => ret (Text part, None)
                            end
                        end
                    end
              end
          end
      end
  end.

(** *** [processWithGeminiRetry]

    The program computes the delay in [float64]; the model computes it in
    exact rationals.  [rand.Float64()] yields a value in [[0, 1)]. *)

Definition Seconds (d : Duration) : Q := (inject_Z d / inject_Z Second)%Q.

(** [math.Pow(2, float64(attempt))] *)
Definition Pow2 (attempt : nat) : Q := inject_Z (2 ^ Z.of_nat attempt).

(** Conversion of a real to an integer type drops the fraction. *)
Definition truncate (x : Q) : Z := Z.quot (Qnum x) (Zpos (Qden x)).

Definition cappedBackoff (attempt : nat) : Q :=
  let backoffSeconds := (Seconds InitialBackoff * Pow2 attempt)%Q in
  if Qle_bool backoffSeconds (Seconds MaxBackoff) then backoffSeconds
  else Seconds MaxBackoff.

Definition backoffWithJitter (r : Q) (attempt : nat) : Duration :=
  let backoffSeconds := cappedBackoff attempt in
  let jitter := (r * (4 # 10) - (2 # 10))%Q in
  truncate ((backoffSeconds * (1 + jitter)) * inject_Z Second)%Q.

(** The same computation in binary64, for a check of the exact model at
    the ends of the jitter range: [0.4] and [0.2] are the nearest doubles,
    and the conversion to [time.Duration] drops the fraction. *)
Definition float64_to_int64 (x : float) : Z :=
  match Prim2SF x with
  | S754_finite negative m e =>
      let v := if (0 <=? e)%Z then (Z.pos m * 2 ^ e)%Z else Z.shiftr (Z.pos m) (- e) in
      if negative then (- v)%Z else v
  | _ => 0%Z
  end.

Definition backoffWithJitter64 (r backoffSeconds : float) : Duration :=
  let jitter := (r * 0x1.999999999999ap-2 - 0x1.999999999999ap-3)%float in
  float64_to_int64 ((backoffSeconds * (1 + jitter)) * 1000000000)%float.

Definition rand_Float64 (env : Env) : M Q :=
  fun w => (Float64 env (draws w),
            mkWorld (files w) (trace w) (calls w) (S (draws w))).

Definition Sleep (d : Duration) : M unit := emit (EvSleep d).

(** [%v] of an error value *)
Definition fmt_v (e : error) : string :=
  match e with Some msg => msg | None => "<nil>" end.

(** The loop [for attempt := 0; attempt < MaxRetries; attempt++], entered
    at [attempt] with [remaining = MaxRetries - attempt] iterations to
    go. *)
Fixpoint retryFrom (env : Env) (content : string) (remaining attempt : nat)
    (lastErr : error) : M (string * error) :=
  match remaining with
  | O => ret ("", Some ("max retries exceeded: " +:+ fmt_v lastErr))
  | S remaining' =>
      let* (result, err) := processWithGemini env content in
      emit (EvAttempt result err) ;;;
      match err with
      | None => ret (result, None)
      | Some e =>
          let lastErr := Some e in
          let* r := rand_Float64 env in
          Sleep (backoffWithJitter r attempt) ;;;
          retryFrom env content remaining' (S attempt) lastErr
      end
  end.

Definition processWithGeminiRetry (env : Env) (content : string) : M (string * error) :=
  retryFrom env content MaxRetries 0 None.

(** *** [processFileContent] *)

Definition processFileContent (env : Env) (fileInfo : FileToProcess) : M bool :=
  let* (processedContent, err) := processWithGeminiRetry env (Content fileInfo) in
  match err with
  | Some e =>
      printError ("Error processing file " +:+ Path fileInfo +:+ ": " +:+ e) ;;;
      ret false
  | None =>
      let* err := os.WriteFile env (Path fileInfo) processedContent in
      match err with
      | Some e =>
          printError ("Error writing to file " +:+ Path fileInfo +:+ ": " +:+ e) ;;;
          ret false
      | None => ret true
      end
  end.

(** *** [StatusBar]

    The counters are Go [int]s (64 bits); [++] wraps.  The time stamps only
    feed the elapsed time that is printed and are left out, as are the
    percentage and the bar drawn from it. *)

Definition maxInt : Z := 2 ^ 63 - 1.
Definition minInt : Z := - 2 ^ 63.

Definition incr (x : Z) : Z := if (x =? maxInt)%Z then minInt else (x + 1)%Z.

Record StatusBar : Type := mkStatusBar {
  total : Z;
  processed : Z;
  success : Z;
  failed : Z
}.

(** The four numbers a rendered line shows, in the order of the format
    string: done/total, successes, failures. *)
Record Line : Type := mkLine {
  shownDone : Z;
  shownTotal : Z;
  shownSuccess : Z;
  shownFailed : Z
}.

Definition NewStatusBar (total : Z) : StatusBar := mkStatusBar total 0 0 0.

Definition update (s : StatusBar) : Line :=
  mkLine (processed s) (total s) (success s) (failed s).

(** Each method runs under [s.mu]; it is one atomic transition that
    returns the new counters and the line it printed. *)
Definition IncrementSuccess (s : StatusBar) : StatusBar * Line :=
  let s := mkStatusBar (total s) (incr (processed s)) (incr (success s)) (failed s) in
  (s, update s).

Definition IncrementFailed (s : StatusBar) : StatusBar * Line :=
  let s := mkStatusBar (total s) (incr (processed s)) (success s) (incr (failed s)) in
  (s, update s).

Definition Finish (s : StatusBar) : StatusBar * Line :=
  (s, mkLine (total s) (total s) (success s) (failed s)).

(** A call on the status bar, and a run of calls from a fresh bar.  The
    run returns the final counters and, for every call, the counters as
    they stood when that call rendered, with the line it printed. *)
Inductive BarCall : Type := CallSuccess | CallFailed | CallFinish.

Definition call (c : BarCall) (s : StatusBar) : StatusBar * Line :=
  match c with
  | CallSuccess => IncrementSuccess s
  | CallFailed => IncrementFailed s
  | CallFinish => Finish s
  end.

Fixpoint runCalls (cs : list BarCall) (s : StatusBar) : StatusBar * list (StatusBar * Line) :=
  match cs with
  | [] => (s, [])
  | c :: rest =>
      let '(s1, line) := call c s in
      let '(s2, seen) := runCalls rest s1 in
      (s2, (s1, line) :: seen)
  end.

Definition isIncrement (c : BarCall) : bool :=
  match c with CallFinish => false | _ => true end.

Definition increments (cs : list BarCall) : nat :=
  length (filter (fun c => isIncrement c = true) cs).

(** What must hold of the counters whenever a line is rendered, for a bar
    created with total [N]. *)
Definition rendersConsistently (N : Z) (seen : StatusBar * Line) : Prop :=
  let s := seen.1 in
  processed s = (success s + failed s)%Z /\ (processed s <= total s)%Z /\ total s = N.

(** *** [getProgressBar] and the percentage it is called with *)

(** [float64(n)] for an [int]: exact up to [2^53], rounded to nearest
    beyond. *)
Definition float64_of_int (z : Z) : float :=
  if (z <? 0)%Z then (- PrimFloat.of_uint63 (Uint63.of_Z (- z)))%float
  else PrimFloat.of_uint63 (Uint63.of_Z z).

(** The loop [for i := 0; i < width; i++] of [getProgressBar], entered at
    [i] with [remaining = width - i] iterations to go. *)
Fixpoint barFrom (completed : Z) (remaining : nat) (i : Z) (bar : string) : string :=
  match remaining with
  | O => bar
  | S remaining' =>
      barFrom completed remaining' (i + 1)
              (if (i <? completed)%Z then bar +:+ "=" else bar +:+ " ")
  end.

Definition getProgressBar (percentage : float) : string :=
  let width := 20%Z in
  let completed := float64_to_int64 (percentage / 100 * float64_of_int width)%float in
  barFrom completed (Z.to_nat width) 0 "".

(** The percentage [update] computes from the counters, in binary64. *)
Definition percentage (s : StatusBar) : float :=
  (float64_of_int (processed s) / float64_of_int (total s) * 100)%float.

(** *** [ApiSemaphore]

    A buffered channel of capacity [max]; only the number of buffered
    elements matters.  A send blocks while the buffer is full and a receive
    blocks while it is empty: a blocked operation is [None]. *)

Record ApiSemaphore : Type := mkApiSemaphore { cap : nat; len : nat }.

Definition NewApiSemaphore (max : nat) : ApiSemaphore := mkApiSemaphore max 0.

Definition Acquire (s : ApiSemaphore) : option ApiSemaphore :=
  if (len s <? cap s)%nat then Some (mkApiSemaphore (cap s) (S (len s))) else None.

Definition Release (s : ApiSemaphore) : option ApiSemaphore :=
  match len s with
  | S n => Some (mkApiSemaphore (cap s) n)
  | O => None
  end.

(** [n] calls of [Acquire] with no [Release] in between; [None] when one
    of them blocks. *)
Fixpoint acquireTimes (n : nat) (s : ApiSemaphore) : option ApiSemaphore :=
  match n with
  | O => Some s
  | S n' =>
      match Acquire s with
      | Some s' => acquireTimes n' s'
      | None => None
      end
  end.

(** *** [main], up to the point where the goroutines are started

    [args] are the positional arguments left by [flag.Parse] and
    [recursive] is the value of [-r].  The result is the exit code of a
    call to [os.Exit], or the files handed to the worker goroutines. *)

Inductive Outcome : Type :=
| Exit (code : Z)
| FanOut (filesToProcess : list FileToProcess).

(** The part of [main] that follows the collection of a non-empty list of
    files: "Backup all files first", then "Process all files only after
    successful backup". *)
Definition backupThenProcess (env : Env) (filesToProcess : list FileToProcess)
  : M Outcome :=
  Println "=== Creating Backups ===" ;;;
  let* err := backupAllFiles env filesToProcess in
  match err with
  | Some e => printError ("Error during backup phase: " +:+ e) ;;; ret (Exit 1)
  | None => Println "=== Processing Files ===" ;;; ret (FanOut filesToProcess)
  end.

Definition main (env : Env) (args : list string) (recursive : bool) : M Outcome :=
  match args with
  | [] => Println "Usage: ./fixmd [-r] <filename.md or directory>" ;;; ret (Exit 1)
  | path :: _ =>
      match Getwd env with
      | (_, Some e) =>
          printError ("Error getting current directory: " +:+ e) ;;; ret (Exit 1)
      | (workDir, None) =>
          let backupDir := filepath.Join [workDir; BackupDirName] in
          match Stat env path with
          | (_, Some e) =>
              printError ("Error accessing path: " +:+ e) ;;; ret (Exit 1)
          | (fileInfo, None) =>
              let* collected :=
                if IsDir (info_of fileInfo) then
                  Println ("Collecting markdown files from directory: " +:+ path) ;;;
                  let* (filesToProcess, err) :=
                    collectFilesFromDir env path backupDir recursive in
                  match err with
                  | Some e => printError ("Error collecting files: " +:+ e) ;;; ret (inl 1%Z)
                  | None =>
                      Println ("Found " +:+ itoa (Z.of_nat (length filesToProcess))
                               +:+ " markdown files to process") ;;;
                      ret (inr filesToProcess)
                  end
                else if negb (strings.HasSuffix (strings.ToLower path) ".md") then
                  Println ("Skipping non-markdown file: " +:+ path) ;;; ret (inl 0%Z)
                else
                  let* (fileToProcess, err) := prepareFileForProcessing env path backupDir in
                  match err with
                  | Some e => printError ("Error preparing file: " +:+ e) ;;; ret (inl 1%Z)
                  | None => ret (inr [fileToProcess])
                  end in
              match collected with
              | inl code => ret (Exit code)
              | inr filesToProcess =>
                  if (length filesToProcess =? 0)%nat then
                    Println "No markdown files found to process." ;;; ret (Exit 0)
                  else backupThenProcess env filesToProcess
              end
          end
      end
  end.

(** *** [init], which runs before [main]

    [load] is what [godotenv.Load(EnvFile)] returned and [getenv] is
    [os.Getenv] as it answers after that call.  The result is [None] when
    [init] calls [os.Exit(1)], and otherwise the values it leaves in the
    package variables [GeminiAPIKey] and [GeminiAPIURL]. *)

Definition DefaultGeminiAPIURL : string :=
  "https://generativelanguage.googleapis.com/v1beta/models/gemini-2.0-flash:generateContent".
Definition EnvFile : string := ".env".

Definition init (load : error) (getenv : string -> string) : M (option (string * string)) :=
  match load with
  | Some e =>
      Println ("Warning: .env file not found or couldn't be loaded: " +:+ e) ;;;
      Println "Will check for environment variables directly or use defaults."
  | None => ret tt
  end ;;;
  let GeminiAPIKey := getenv "GEMINI_API_KEY" in
  if String.eqb GeminiAPIKey "" then
    Println "GEMINI_API_KEY not found in environment variables or .env file." ;;;
    Println "Please set it in .env file or as an environment variable." ;;;
    ret None
  else
    let GeminiAPIURL := getenv "GEMINI_API_URL" in
    if String.eqb GeminiAPIURL "" then
      Println "GEMINI_API_URL not found, using default URL." ;;;
      ret (Some (GeminiAPIKey, DefaultGeminiAPIURL))
    else ret (Some (GeminiAPIKey, GeminiAPIURL)).

(** The environment of [main] with the two package variables as [init]
    left them. *)
Definition withCredentials (env : Env) (key url : string) : Env :=
  mkEnv key url (Getwd env) (Stat env) (MkdirAll_err env) (WriteFile_outcome env)
        (Marshal env) (NewRequest_err env) (Do env) (Unmarshal env) (Float64 env).

(** The program up to the goroutines: [init], then [main]. *)
Definition fixmd (load : error) (getenv : string -> string) (env : Env)
    (args : list string) (recursive : bool) : M Outcome :=
  let* credentials := init load getenv in
  match credentials with
  | None => ret (Exit 1)
  | Some (key, url) => main (withCredentials env key url) args recursive
  end.

(** *** The goroutines started by [main]

    [main] starts one goroutine per file and waits for all of them.  The
    run is modelled as an interleaving of atomic steps: [main] starting the
    next goroutine, one goroutine advancing to its next blocking or shared
    operation, or [main] getting past [wg.Wait()].  A step that would block
    is not enabled. *)

(** Where a worker goroutine stands. *)
Inductive Goroutine : Type :=
| Spawned                      (* about to call [apiSemaphore.Acquire()] *)
| Acquired                     (* holds a slot; inside [processFileContent] *)
| Processed (success : bool)   (* [processFileContent] returned *)
| Reported                     (* status bar updated; deferred [Release] next *)
| Released                     (* slot given back; deferred [wg.Done] next *)
| Done.

Record Run : Type := mkRun {
  world : World;
  apiSemaphore : ApiSemaphore;
  statusBar : StatusBar;
  lines : list Line;                            (* status lines printed *)
  wg : Z;                                       (* the WaitGroup counter *)
  toSpawn : list FileToProcess;                 (* iterations of [main]'s loop to go *)
  workers : list (FileToProcess * Goroutine);   (* goroutines started *)
  finished : bool                               (* [main] is past [statusBar.Finish()] *)
}.

Definition start (filesToProcess : list FileToProcess) (w : World) : Run :=
  mkRun w (NewApiSemaphore MaxConcurrent)
        (NewStatusBar (Z.of_nat (length filesToProcess))) [] 0 filesToProcess [] false.

Definition setWorker (i : nat) (fi : FileToProcess) (g : Goroutine) (r : Run)
  : list (FileToProcess * Goroutine) :=
  <[i := (fi, g)]> (workers r).

(** One step of [main]: start the next goroutine, or, once the loop is
    over and the counter is zero, return from [wg.Wait()] and print the
    final line. *)
Definition stepMain (r : Run) : option Run :=
  match toSpawn r with
  | fileInfo :: rest =>
      Some (mkRun (world r) (apiSemaphore r) (statusBar r) (lines r)
                  (wg r + 1) rest (workers r ++ [(fileInfo, Spawned)]) (finished r))
  | [] =>
      if (wg r =? 0)%Z && negb (finished r) then
        let '(bar, line) := Finish (statusBar r) in
        Some (mkRun (world r) (apiSemaphore r) bar (lines r ++ [line])
                    (wg r) [] (workers r) true)
      else None
  end.

(** One step of goroutine [i]. *)
Definition stepWorker (env : Env) (i : nat) (r : Run) : option Run :=
  match workers r !! i with
  | None => None
  | Some (fi, Spawned) =>
      match Acquire (apiSemaphore r) with
      | Some sem =>
          Some (mkRun (world r) sem (statusBar r) (lines r) (wg r) (toSpawn r)
                      (setWorker i fi Acquired r) (finished r))
      | None => None
      end
  | Some (fi, Acquired) =>
      let '(ok, w) := processFileContent env fi (world r) in
      Some (mkRun w (apiSemaphore r) (statusBar r) (lines r) (wg r) (toSpawn r)
                  (setWorker i fi (Processed ok) r) (finished r))
  | Some (fi, Processed ok) =>
      let '(bar, line) :=
        if ok then IncrementSuccess (statusBar r) else IncrementFailed (statusBar r) in
      Some (mkRun (world r) (apiSemaphore r) bar (lines r ++ [line]) (wg r) (toSpawn r)
                  (setWorker i fi Reported r) (finished r))
  | Some (fi, Reported) =>
      match Release (apiSemaphore r) with
      | Some sem =>
          Some (mkRun (world r) sem (statusBar r) (lines r) (wg r) (toSpawn r)
                      (setWorker i fi Released r) (finished r))
      | None => None
      end
  | Some (fi, Released) =>
      Some (mkRun (world r) (apiSemaphore r) (statusBar r) (lines r) (wg r - 1) (toSpawn r)
                  (setWorker i fi Done r) (finished r))
  | Some (_, Done) => None
  end.

(** Who moves next is the scheduler's choice. *)
Inductive Choice : Type := ByMain | ByWorker (i : nat).

Definition step (env : Env) (c : Choice) (r : Run) : option Run :=
  match c with
  | ByMain => stepMain r
  | ByWorker i => stepWorker env i r
  end.

Definition steps (env : Env) (r r' : Run) : Prop := exists c, step env c r = Some r'.

(** A schedule played from a state; [None] when it asks for a step that is
    not enabled. *)
Fixpoint play (env : Env) (schedule : list Choice) (r : Run) : option Run :=
  match schedule with
  | [] => Some r
  | c :: rest =>
      match step env c r with
      | Some r' => play env rest r'
      | None => None
      end
  end.

(** Goroutines holding a slot of the semaphore, and goroutines whose
    transform call is in flight. *)
Definition holds (g : Goroutine) : bool :=
  match g with Acquired | Processed _ | Reported => true | _ => false end.

Definition inFlight (g : Goroutine) : bool :=
  match g with Acquired => true | _ => false end.

Definition isDone (g : Goroutine) : bool :=
  match g with Done => true | _ => false end.

Definition countWorkers (p : Goroutine -> bool) (r : Run) : nat :=
  sum_list_with (fun fg : FileToProcess * Goroutine => Nat.b2n (p fg.2)) (workers r).

(** What ties the semaphore and the WaitGroup to the goroutines: the
    channel holds one element per goroutine between its [Acquire] and its
    [Release], never more than its capacity [MaxConcurrent], and the
    WaitGroup counts the goroutines that have not called [wg.Done]. *)
Definition schedulerInvariant (r : Run) : Prop :=
  cap (apiSemaphore r) = MaxConcurrent /\
  len (apiSemaphore r) = countWorkers holds r /\
  (len (apiSemaphore r) <= cap (apiSemaphore r))%nat /\
  wg r = Z.of_nat (countWorkers (fun g => negb (isDone g)) r) /\
  (finished r = true -> toSpawn r = [] /\ wg r = 0%Z).

(** The tasks of a run: those a goroutine was started for, then those
    still to be started. *)
Definition tasks (r : Run) : list FileToProcess := (workers r).*1 ++ toSpawn r.

(** A goroutine that has updated the status bar. *)
Definition hasReported (g : Goroutine) : bool :=
  match g with Reported | Released | Done => true | _ => false end.

(** A rendered line whose numbers add up, for a batch of [N] files. *)
Definition lineConsistent (N : Z) (l : Line) : Prop :=
  shownDone l = (shownSuccess l + shownFailed l)%Z /\
  (shownDone l <= shownTotal l)%Z /\ shownTotal l = N.

(** What ties the status bar to the goroutines: it has counted exactly
    those that have reported, and every line printed so far is
    consistent. *)
Definition barInvariant (N : Z) (r : Run) : Prop :=
  total (statusBar r) = N /\
  processed (statusBar r) = (success (statusBar r) + failed (statusBar r))%Z /\
  (0 <= success (statusBar r))%Z /\ (0 <= failed (statusBar r))%Z /\
  processed (statusBar r) = Z.of_nat (countWorkers hasReported r) /\
  Z.of_nat (length (tasks r)) = N /\
  Forall (lineConsistent N) (lines r).

(** Steps a goroutine has still to take, and steps the whole run has
    still to take. *)
Definition stepsLeft (g : Goroutine) : nat :=
  match g with
  | Spawned => 5 | Acquired => 4 | Processed _ => 3
  | Reported => 2 | Released => 1 | Done => 0
  end.

Definition stepsToGo (r : Run) : nat :=
  6 * length (toSpawn r)
  + sum_list_with (fun fg : FileToProcess * Goroutine => stepsLeft fg.2) (workers r)
  + (if finished r then 0 else 1).

(** ** Reading a trace *)

(** The attempts and sleeps of a trace, in order. *)
Definition isRetryEvent (e : Event) : bool :=
  match e with EvAttempt _ _ | EvSleep _ => true | _ => false end.

Definition retryEvents (t : list Event) : list Event :=
  filter (fun e => isRetryEvent e = true) t.

Definition isSleep (e : Event) : bool :=
  match e with EvSleep _ => true | _ => false end.

Definition isAttempt (e : Event) : bool :=
  match e with EvAttempt _ _ => true | _ => false end.

Definition sleeps (t : list Event) : list Event := filter (fun e => isSleep e = true) t.
Definition attempts (t : list Event) : list Event := filter (fun e => isAttempt e = true) t.

(** A failed attempt followed by its sleep. *)
Definition failedRound (round : string * string * Duration) : list Event :=
  let '(result, e, d) := round in [EvAttempt result (Some e); EvSleep d].

(** The error the loop holds after the failed rounds [rounds], having
    started with [lastErr]. *)
Definition lastError (rounds : list (string * string * Duration)) (lastErr : error) : error :=
  match last rounds with
  | Some (_, e, _) => Some e
  | None => lastErr
  end.

(** The files after the backups of [fs] have all been written, in
    order. *)
Definition backedUp (fs : list FileToProcess) (m : gmap string string)
  : gmap string string :=
  foldl (fun m f => <[BackupPath f := Content f]> m) m fs.

(** [out] is what [processWithGemini] returned, without error, for
    [content]. *)
Definition transformOutput (env : Env) (content out : string) : Prop :=
  exists w0 w1, processWithGemini env content w0 = ((out, None), w1).

(** ** Well-formed path elements *)

(** A string without a separator. *)
Fixpoint noSeparator (s : string) : bool :=
  match s with
  | EmptyString => true
  | String c r => negb (Ascii.eqb c filepath.Separator) && noSeparator r
  end.

(** An element that [Clean] keeps as it is. *)
Definition proper (e : string) : bool :=
  negb (String.eqb e "") && negb (String.eqb e ".") && negb (String.eqb e "..").

(** The name of a directory entry: not empty, without separator, and
    neither [.] nor [..]. *)
Definition properName (name : string) : bool := proper name && noSeparator name.

(** The elements [Clean] has kept so far, innermost first. *)
Definition kept (rooted : bool) (p : string) : list string :=
  fold_left (filepath.clean_element rooted) (filepath.elements p) [].

(** The shape of what [Clean] keeps: proper elements, and below them, in a
    path that is not rooted, the [..] elements that lead out of the
    starting directory. *)
Definition keptShape (rooted : bool) (st : list string) : Prop :=
  exists props k,
    st = props ++ replicate k ".." /\
    Forall (fun e => proper e = true) props /\
    (rooted = true -> k = 0%nat).

(** Every entry below [e] has a proper name. *)
Fixpoint properBelow (e : Entry) : bool :=
  match e with
  | File _ => true
  | Directory _ _ entries =>
      forallb (fun child => properName (Name (info_of child)) && properBelow child) entries
  end.

(** A task as [main] hands it to the backup phase: a Markdown file with its
    content as found, and a backup destination that is not a Markdown
    file. *)
Definition preparedTask (m : gmap string string) (f : FileToProcess) : Prop :=
  isMarkdown (Path f) = true /\
  isMarkdown (BackupPath f) = false /\
  m !! Path f = Some (Content f).

(** ** Reading a directory tree *)

(** The files [walk] hands over for collection below [path]: a file when
    its name matches, and the entries of a directory unless the callback
    skips it (not recursive, and not the root of the walk). *)
Fixpoint selected (recursive : bool) (dirPath path : string) (e : Entry) : list string :=
  match e with
  | File name => if isMarkdown name then [path] else []
  | Directory _ _ entries =>
      if negb recursive && negb (String.eqb path dirPath) then []
      else flat_map (fun child =>
                       selected recursive dirPath
                                (filepath.Join [path; Name (info_of child)]) child)
                    entries
  end.

(** The matching files directly in a directory with entries [entries],
    and the matching files anywhere below [path]. *)
Definition topLevelMarkdown (dirPath : string) (entries : list Entry) : list string :=
  flat_map (fun child =>
              match child with
              | File name =>
                  if isMarkdown name then [filepath.Join [dirPath; name]] else []
              | Directory _ _ _ => []
              end) entries.

Fixpoint allMarkdown (path : string) (e : Entry) : list string :=
  match e with
  | File name => if isMarkdown name then [path] else []
  | Directory _ _ entries =>
      flat_map (fun child => allMarkdown (filepath.Join [path; Name (info_of child)]) child)
               entries
  end.

(** Whether the walk below [path] can succeed on the files [m]: every
    directory that is listed can be listed, and every file that is
    selected can be read. *)
Fixpoint collectable (m : gmap string string) (recursive : bool)
    (dirPath path : string) (e : Entry) : bool :=
  match e with
  | File name => if isMarkdown name then bool_decide (is_Some (m !! path)) else true
  | Directory _ listing entries =>
      match listing with
      | Some _ => false
      | None =>
          if negb recursive && negb (String.eqb path dirPath) then true
          else forallb (fun child =>
                          collectable m recursive dirPath
                                      (filepath.Join [path; Name (info_of child)]) child)
                       entries
      end
  end.

(** Events that touch files, and events of the transform phase. *)
Definition isWrite (e : Event) : bool :=
  match e with EvWriteFile _ _ => true | _ => false end.

Definition isTransform (e : Event) : bool :=
  match e with EvPost _ | EvAttempt _ _ | EvSleep _ => true | _ => false end.


(** ** Canonical paths *)

Definition properNames (es : list string) : Prop :=
  Forall (fun e => properName e = true) es.

(** The rooted path with elements [es]: [/e1/e2/.../en]. *)
Definition rooted (es : list string) : string := "/" +:+ strings.Join es "/".

(** The relative path with elements [es]: [e1/e2/.../en]. *)
Definition relative (es : list string) : string := strings.Join es "/".

(** A rooted path flattened into one name, every separator replaced by
    the filler: [_e1_e2_..._en]. *)
Definition flattened (es : list string) : string := "_" +:+ strings.Join es "_".

(** ** Reading a run of the program *)

(** The environment lets the backup of [f] through: its directory can be
    created and the write of its backup file completes. *)
Definition backsUp (env : Env) (f : FileToProcess) : Prop :=
  MkdirAll_err env (filepath.Dir (BackupPath f)) = None /\
  WriteFile_outcome env (BackupPath f) (Content f) = WriteCompletes.

(** The world [w'] differs from [w] by printed lines only. *)
Definition printsOnly (w w' : World) : Prop :=
  exists t, w' = mkWorld (files w) (trace w ++ t) (calls w) (draws w) /\
            Forall (fun e => exists line, e = EvPrint line) t.

(** How a run of [main] ends, as its last printed line tells it. *)
Definition explains (out : Outcome) (line : string) : Prop :=
  match out with
  | Exit code =>
      (code = 1%Z /\
       (line = "Usage: ./fixmd [-r] <filename.md or directory>"
        \/ strings.HasPrefix line "ERROR: " = true))
      \/ (code = 0%Z /\
          (strings.HasPrefix line "Skipping non-markdown file: " = true
           \/ line = "No markdown files found to process."))
  | FanOut fs => fs <> [] /\ line = "=== Processing Files ==="
  end.



(** A transform that fails before any request is sent, whatever the
    world. *)
Definition failsUnsent (env : Env) (content m : string) : Prop :=
  forall w0, processWithGemini env content w0 = (("", Some m), w0).

(** The request [processWithGemini] builds for [content], and the address
    it sends it to. *)
Definition requestFor (content : string) : GeminiRequest :=
  mkGeminiRequest [mkContent "user" [mkPart SystemPrompt; mkPart content]].

Definition apiURL (env : Env) : string := GeminiAPIURL env +:+ "?key=" +:+ GeminiAPIKey env.

(** [text] is what the service answered to [content] in some exchange:
    the request went out, the response came back with status 200 and a body
    that was read and parsed, and [text] is the first part of its first
    candidate. *)
Definition answeredWith (env : Env) (content text : string) : Prop :=
  exists n json resp body geminiResp candidate candidates part parts,
    Marshal env (requestFor content) = (json, None) /\
    Do env n (apiURL env) json = (resp, None) /\
    StatusCode resp = StatusOK /\
    Body resp = (body, None) /\
    Unmarshal env body = (geminiResp, None) /\
    Candidates geminiResp = candidate :: candidates /\
    Parts (CandidateContent candidate) = part :: parts /\
    text = Text part.

(** A goroutine whose call of [processFileContent] has returned. *)
Definition hasProcessed (g : Goroutine) : bool :=
  match g with Spawned | Acquired => false | _ => true end.

(** The footprint of a run that started from world [w0]: files other than
    the sources of its tasks are as in [w0], and the exchanges and sleeps so
    far are at most [MaxRetries] for every goroutine whose transform has
    returned. *)
Definition footprint (w0 : World) (r : Run) : Prop :=
  (forall p, p ∉ Path <$> tasks r -> files (world r) !! p = files w0 !! p) /\
  (calls (world r) <= calls w0 + MaxRetries * countWorkers hasProcessed r)%nat /\
  (length (sleeps (trace (world r)))
   <= length (sleeps (trace w0)) + MaxRetries * countWorkers hasProcessed r)%nat.

(** An environment that answers the transform of [f] at the first attempt,
    whatever the world, and completes the write-back. *)
Definition serves (env : Env) (answer : string -> string) (f : FileToProcess) : Prop :=
  (forall w0, exists w1,
     processWithGemini env (Content f) w0 = ((answer (Content f), None), w1)) /\
  WriteFile_outcome env (Path f) (answer (Content f)) = WriteCompletes.

(** A run in which every transform so far was answered and written back:
    no failure has been counted, and the source of every goroutine whose
    [processFileContent] has returned holds the answer to its content. *)
Definition answered (answer : string -> string) (r : Run) : Prop :=
  failed (statusBar r) = 0%Z /\
  forall i fi g, workers r !! i = Some (fi, g) ->
    match g with
    | Spawned | Acquired => True
    | Processed ok =>
        ok = true /\ files (world r) !! Path fi = Some (answer (Content fi))
    | Reported | Released | Done =>
        files (world r) !! Path fi = Some (answer (Content fi))
    end.

(** An environment in which every attempt to transform the content of [f]
    fails, whatever the world. *)
Definition refused (env : Env) (f : FileToProcess) : Prop :=
  forall w0, (processWithGemini env (Content f) w0).1.2 <> None.

(** A run in which no transform has succeeded: the files are those of
    [w0], no success has been counted, and every [processFileContent] that
    has returned has returned [false]. *)
Definition unanswered (w0 : World) (r : Run) : Prop :=
  files (world r) = files w0 /\
  success (statusBar r) = 0%Z /\
  forall i fi ok, workers r !! i = Some (fi, Processed ok) -> ok = false.

(** ** The progress bar, as drawn *)

(** [n] copies of one byte. *)
Fixpoint repeated (c : ascii) (n : nat) : string :=
  match n with
  | O => ""
  | S n' => String c (repeated c n')
  end.

(** The bar with [k] of [width] positions filled. *)
Definition filled (width k : nat) : string := repeated "=" k +:+ repeated " " (width - k).

(** Whether, for a batch of [t] files, the bar drawn after each number of
    processed files has [20 * processed / total] positions filled, rounded
    down. *)
Definition barsProportional (t : nat) : bool :=
  forallb (fun p =>
             String.eqb (getProgressBar (percentage (mkStatusBar (Z.of_nat t) (Z.of_nat p) 0 0)))
                        (filled 20 (20 * p / t)))
          (seq 0 (t + 1)).

(** ** The status bar, call by call *)

(** Whether a call reports a success ([ok = true]) or a failure
    ([ok = false]), and how many calls of a sequence do. *)
Definition reports (ok : bool) (c : BarCall) : bool :=
  match c, ok with
  | CallSuccess, true | CallFailed, false => true
  | _, _ => false
  end.

Definition reported (ok : bool) (cs : list BarCall) : nat :=
  length (filter (fun c => reports ok c = true) cs).

(** ** Sample environments

    An environment with a given working directory ([/w] unless said
    otherwise), whose JSON codec
    carries the file content as the request body and the response body as
    the only candidate's only part, and whose random source always yields
    one half.  The file system tree, the directory and write outcomes and
    the HTTP exchanges are given by the arguments. *)

Definition lastText (req : GeminiRequest) : string :=
  match Contents req with
  | c :: _ => match last (Parts c) with Some p => Text p | None => "" end
  | [] => ""
  end.

Definition sampleEnvAt (workDir : string) (stat : string -> Entry * error)
    (mkdir : string -> error) (write : string -> string -> WriteOutcome)
    (exchange : nat -> string -> string -> Response * error) : Env :=
  mkEnv "key" "https://api.example/generate" (workDir, None) stat mkdir write
        (fun req => (lastText req, None))
        (fun _ => None)
        exchange
        (fun body => (mkGeminiResponse [mkCandidate (mkContent "model" [mkPart body])], None))
        (fun _ => 1 # 2).

Definition sampleEnv : (string -> Entry * error) -> (string -> error) ->
                       (string -> string -> WriteOutcome) ->
                       (nat -> string -> string -> Response * error) -> Env :=
  sampleEnvAt "/w".

Definition noEntry : string -> Entry * error :=
  fun name => (File "", Some ("stat " +:+ name +:+ ": no such file or directory")).

(** The service answers every request with the body under a heading. *)
Definition answers : nat -> string -> string -> Response * error :=
  fun _ _ body => (mkResponse 200 ("# " +:+ body, None), None).

(** Every exchange times out. *)
Definition timesOut : nat -> string -> string -> Response * error :=
  fun _ _ _ => (mkResponse 0 ("", None), Some "context deadline exceeded").

(** The first [k] exchanges are refused with status 429, later ones are
    answered. *)
Definition refuses (k : nat) : nat -> string -> string -> Response * error :=
  fun n url body =>
    if (n <? k)%nat then (mkResponse 429 ("quota", None), None) else answers n url body.

Definition emptyWorld : World := mkWorld ∅ [] 0 0.

(** One Markdown file in the working directory, its task, and a disk on
    which writes to that file stop after three bytes while other writes
    complete. *)
Definition sampleFile : FileToProcess :=
  mkFileToProcess "/w/a.md" "teh text" "/w/backup/a.md.bak".

Definition sampleWorld : World := mkWorld {[ "/w/a.md" := "teh text" ]} [] 0 0.

(** A directory with five matching files, two others, and one matching
    file in a subdirectory. *)
Definition notesTree : Entry :=
  Directory "notes" None
    [File "a.md"; File "b.MD"; File "c.md"; File "d.txt"; File "e.md"; File "f.md";
     File "img.png"; Directory "sub" None [File "g.md"]].

Definition notesStat : string -> Entry * error :=
  fun name => if String.eqb name "notes" then (notesTree, None) else noEntry name.

Definition notesWorld : World :=
  mkWorld {[ "notes/a.md" := "A"; "notes/b.MD" := "B"; "notes/c.md" := "C";
             "notes/d.txt" := "D"; "notes/e.md" := "E"; "notes/f.md" := "F";
             "notes/img.png" := "PNG"; "notes/sub/g.md" := "G" ]} [] 0 0.

(** A regular file that is not Markdown, and a directory without a
    matching file at its top level. *)
Definition plainStat : string -> Entry * error :=
  fun name =>
    if String.eqb name "README.TXT" then (File "README.TXT", None)
    else if String.eqb name "docs"
         then (Directory "docs" None [File "x.txt"; Directory "sub" None [File "y.md"]], None)
         else noEntry name.

Definition plainWorld : World :=
  mkWorld {[ "README.TXT" := "read me"; "docs/x.txt" := "x"; "docs/sub/y.md" := "y" ]} [] 0 0.

(** Three files, one of them in a subdirectory whose backup directory
    cannot be created. *)
Definition sampleBatch : list FileToProcess :=
  [mkFileToProcess "a.md" "A" "/w/backup/a.md.bak";
   mkFileToProcess "sub/b.md" "B" "/w/backup/sub/b.md.bak";
   mkFileToProcess "c.md" "C" "/w/backup/c.md.bak"].

Definition batchWorld : World :=
  mkWorld {[ "a.md" := "A"; "sub/b.md" := "B"; "c.md" := "C" ]} [] 0 0.

Definition subDenied : string -> error :=
  fun path =>
    if String.eqb path "/w/backup/sub"
    then Some "mkdir /w/backup/sub: permission denied" else None.

(** Files inside and outside the working directory [/w]; two of the
    outside directories have names that begin like the working directory's. *)
Definition scatteredWorld : World :=
  mkWorld {[ "/w/a.md" := "1"; "/w/sub/a.md" := "2"; "/tmp/a.md" := "3";
             "/w2/a.md" := "4"; "/w2/notes/a.md" := "5"; "/wX../etc/a.md" := "6" ]} [] 0 0.

Definition fourFiles : list FileToProcess := sampleBatch ++ [sampleFile].

Definition sourceWriteStops : string -> string -> WriteOutcome :=
  fun name _ =>
    if String.eqb name "/w/a.md" then WriteStops 3 "input/output error"
    else WriteCompletes.

(** The two environments used most: the directory [notes] in the working
    directory [/w], and no directory at all; in both the service answers. *)
Definition notesEnv : Env :=
  sampleEnv notesStat (fun _ => None) (fun _ _ => WriteCompletes) answers.

Definition plainEnv : Env :=
  sampleEnv noEntry (fun _ => None) (fun _ _ => WriteCompletes) answers.

(** The tasks collected from the directory [notes], not recursively. *)
Definition notesTasks : list FileToProcess :=
  [mkFileToProcess "notes/a.md" "A" "/w/backup/notes/a.md.bak";
   mkFileToProcess "notes/b.MD" "B" "/w/backup/notes/b.MD.bak";
   mkFileToProcess "notes/c.md" "C" "/w/backup/notes/c.md.bak";
   mkFileToProcess "notes/e.md" "E" "/w/backup/notes/e.md.bak";
   mkFileToProcess "notes/f.md" "F" "/w/backup/notes/f.md.bak"].

(** Two schedules.  In the first, the first goroutine is started, takes a
    slot and processes its file.  In the second, every goroutine is
    started; then each in turn runs to its end, and [main] finishes. *)
Definition firstFileOnly : list Choice := [ByMain; ByWorker 0; ByWorker 0].

Definition oneByOne (n : nat) : list Choice :=
  replicate n ByMain
  ++ flat_map (fun i => replicate 5 (ByWorker i)) (seq 0 n)
  ++ [ByMain].

(** Two files outside the working directory whose absolute paths flatten
    to the same name. *)
Definition collidingWorld : World :=
  mkWorld {[ "/a/b_c.md" := "one"; "/a_b/c.md" := "two" ]} [] 0 0.

(** A directory with a subdirectory that cannot be listed, and a directory
    with a Markdown file that is listed but cannot be read. *)
Definition lockedStat : string -> Entry * error :=
  fun name =>
    if String.eqb name "vault"
    then (Directory "vault" None
            [File "a.md"; Directory "private" (Some "open vault/private: permission denied") [];
             File "z.md"], None)
    else if String.eqb name "stale"
         then (Directory "stale" None [File "a.md"; File "gone.md"; File "z.md"], None)
         else noEntry name.

Definition lockedWorld : World :=
  mkWorld {[ "vault/a.md" := "A"; "vault/z.md" := "Z"; "stale/a.md" := "A";
             "stale/z.md" := "Z" ]} [] 0 0.

(** An environment in which no request can be created: the configured URL
    does not parse. *)
Definition badURL : Env :=
  mkEnv "key" "ht tp://api.example/generate" ("/w", None) noEntry (fun _ => None)
        (fun _ _ => WriteCompletes)
        (fun req => (lastText req, None))
        (fun url => Some ("parse " +:+ url +:+ ": first path segment in URL cannot contain colon"))
        answers
        (fun body => (mkGeminiResponse [mkCandidate (mkContent "model" [mkPart body])], None))
        (fun _ => 1 # 2).

(** * Properties *)

(** ** The helpers on concrete inputs *)

Example Clean_examples :
  map filepath.Clean
      ["a//b/./c/.."; "/../a"; ""; "../../x"; "a/../.."; "/"; "/a/b/"; "x../y"]
  = ["a/b"; "/a"; "."; "../../x"; ".."; "/"; "/a/b"; "x../y"].
Proof. reflexivity. Qed.

Example Dir_Base_examples :
  (map filepath.Dir ["/a/b/c.md"; "c.md"; "/c.md"; "a/b/"; ""],
   map filepath.Base ["/a/b/c.md"; "c.md"; "a/b/"; "//"; ""])
  = (["/a/b"; "."; "/"; "a/b"; "."], ["c.md"; "c.md"; "b"; "/"; "."]).
Proof. reflexivity. Qed.

Example Join_examples :
  map filepath.Join [["/w"; "backup"]; [""; "a.md"]; ["/sub"; "a.md"];
                     ["/w/backup"; "/sub/a.md.bak"]; ["/w/backup"; "../x"]; [""; ""]]
  = ["/w/backup"; "a.md"; "/sub/a.md"; "/w/backup/sub/a.md.bak"; "/w/x"; ""].
Proof. reflexivity. Qed.

Example strings_examples :
  (strings.ReplaceAll "/home/u/a.md" "/" "_", strings.ToLower "README.Md",
   strings.HasSuffix "a.MD" ".md", strings.HasSuffix (strings.ToLower "a.MD") ".md",
   strings.HasPrefix "/w2/x" "/w", strings.slice_from 3 "/w2/x")
  = ("_home_u_a.md", "readme.md", false, true, true, "/x").
Proof. reflexivity. Qed.

(** ** Strings *)

Lemma append_cons c a b : String c a +:+ b = String c (a +:+ b).
Proof. reflexivity. Qed.

Lemma append_empty_l b : "" +:+ b = b.
Proof. reflexivity. Qed.

Lemma append_empty_r a : a +:+ "" = a.
Proof. induction a as [|c a IH]; [done|]. by rewrite append_cons, IH. Qed.

Lemma append_assoc a b c : (a +:+ b) +:+ c = a +:+ (b +:+ c).
Proof. induction a as [|x a IH]; [done|]. by rewrite !append_cons, IH. Qed.

Lemma length_append a b : String.length (a +:+ b) = (String.length a + String.length b)%nat.
Proof. induction a as [|x a IH]; [done|]. rewrite append_cons. simpl. by rewrite IH. Qed.

Lemma ToLower_append a b : strings.ToLower (a +:+ b) = strings.ToLower a +:+ strings.ToLower b.
Proof. induction a as [|x a IH]; [done|]. rewrite append_cons. simpl. by rewrite IH, append_cons. Qed.

Lemma ToLower_length a : String.length (strings.ToLower a) = String.length a.
Proof. induction a as [|x a IH]; [done|]. simpl. by rewrite IH. Qed.

Lemma slice_from_append a b k :
  strings.slice_from (String.length a + k) (a +:+ b) = strings.slice_from k b.
Proof. induction a as [|x a IH]; [done|]. rewrite append_cons. simpl. exact IH. Qed.

(** A name ending in [.bak] is not a Markdown name. *)
Lemma bak_is_not_markdown stem : isMarkdown (stem +:+ ".bak") = false.
Proof.
  unfold isMarkdown, strings.HasSuffix.
  rewrite ToLower_append, length_append, ToLower_length.
  change (strings.ToLower ".bak") with ".bak". simpl String.length.
  replace (String.length stem + 4 - 3)%nat with (String.length stem + 1)%nat by lia.
  rewrite <- (ToLower_length stem) at 2. rewrite slice_from_append. simpl.
  apply andb_false_r.
Qed.

(** A string that ends in [suffix] still does with something put in front. *)
Lemma HasSuffix_append pre s suffix :
  strings.HasSuffix s suffix = true -> strings.HasSuffix (pre +:+ s) suffix = true.
Proof.
  unfold strings.HasSuffix. intros H. apply andb_true_iff in H as [Hlen Heq].
  apply Nat.leb_le in Hlen. rewrite length_append.
  apply andb_true_iff. split; [apply Nat.leb_le; lia|].
  replace (String.length pre + String.length s - String.length suffix)%nat
    with (String.length pre + (String.length s - String.length suffix))%nat by lia.
  by rewrite slice_from_append.
Qed.

(** A Markdown name stays one with something put in front. *)
Lemma isMarkdown_append pre name : isMarkdown name = true -> isMarkdown (pre +:+ name) = true.
Proof.
  unfold isMarkdown. intros H. rewrite ToLower_append. by apply HasSuffix_append.
Qed.

(** The slice [fileDir[len(absWorkDir)+1:]] is always within bounds where
    the program takes it: a string that has [pre] as a prefix and differs
    from it is longer than [pre]. *)
Lemma HasPrefix_longer s pre :
  strings.HasPrefix s pre = true -> String.eqb s pre = false ->
  (String.length pre + 1 <= String.length s)%nat.
Proof.
  unfold strings.HasPrefix. revert s.
  induction pre as [|c pre IH]; intros [|x s] Hpre Hne; simpl in *; try done; try lia.
  destruct (ascii_dec c x) as [->|]; [|done].
  rewrite Ascii.eqb_refl in Hne. specialize (IH s Hpre Hne). lia.
Qed.

(** ** Path elements *)

Lemma elements_not_nil p : filepath.elements p <> [].
Proof.
  destruct p as [|c r]; simpl; [done|].
  destruct (Ascii.eqb c filepath.Separator); [done|]. by destruct (filepath.elements r).
Qed.

Lemma elements_noSeparator t : noSeparator t = true -> filepath.elements t = [t].
Proof.
  induction t as [|c t IH]; intros H; [done|].
  simpl in *. apply andb_true_iff in H as [Hc Ht]. apply negb_true_iff in Hc.
  rewrite Hc, (IH Ht). done.
Qed.

(** Appending a string without separator extends the last element. *)
Lemma elements_append s t :
  noSeparator t = true ->
  exists es e, filepath.elements s = es ++ [e] /\ filepath.elements (s +:+ t) = es ++ [e +:+ t].
Proof.
  intros Ht. induction s as [|c s (es & e & Hs & Hst)].
  - exists [], "". split; [done|]. rewrite append_empty_l. by apply elements_noSeparator.
  - rewrite append_cons. simpl. destruct (Ascii.eqb c filepath.Separator).
    + exists ("" :: es), e. rewrite Hs, Hst. done.
    + rewrite Hs, Hst. destruct es as [|x es]; simpl.
      * exists [], (String c e). done.
      * exists (String c x :: es), e. done.
Qed.

Lemma elements_separator s t :
  filepath.elements (s +:+ "/" +:+ t) = filepath.elements s ++ filepath.elements t.
Proof.
  induction s as [|c s IH].
  - reflexivity.
  - rewrite append_cons. simpl. rewrite IH.
    destruct (Ascii.eqb c filepath.Separator); [done|].
    pose proof (elements_not_nil s) as Hne.
    by destruct (filepath.elements s).
Qed.

Lemma strings_Join_snoc l e sep : exists pre, strings.Join (l ++ [e]) sep = pre +:+ e.
Proof.
  induction l as [|x l (pre & IH)].
  - by exists "".
  - simpl. rewrite IH. destruct (l ++ [e]) eqn:Hl.
    + by destruct l.
    + exists (x +:+ sep +:+ pre). by rewrite !append_assoc.
Qed.

Lemma clean_element_proper rooted out e :
  proper e = true -> filepath.clean_element rooted out e = e :: out.
Proof.
  unfold proper, filepath.clean_element. intros H.
  apply andb_true_iff in H as [H H2]. apply andb_true_iff in H as [H0 H1].
  apply negb_true_iff in H0, H1, H2. by rewrite H0, H1, H2.
Qed.

(** [Clean] keeps a proper last element where it is. *)
Lemma Clean_last p es e :
  filepath.elements p = es ++ [e] -> proper e = true ->
  exists pre, filepath.Clean p = pre +:+ e.
Proof.
  intros Hp He. unfold filepath.Clean. rewrite Hp, fold_left_app. simpl.
  rewrite clean_element_proper by done. simpl.
  destruct (strings_Join_snoc
              (rev (fold_left (filepath.clean_element (filepath.IsAbs p)) es [])) e "/")
    as [pre Hpre].
  destruct (filepath.IsAbs p).
  - exists ("/" +:+ pre). by rewrite Hpre, append_assoc.
  - rewrite Hpre. destruct (rev _ ++ [e]) eqn:Hl; [by destruct (rev _)|]. by exists pre.
Qed.

Lemma proper_bak e : proper (e +:+ ".bak") = true.
Proof.
  unfold proper.
  assert (H : forall x, (String.length x < 4)%nat -> String.eqb (e +:+ ".bak") x = false).
  { intros x Hx. apply String.eqb_neq. intros Heq. apply (f_equal String.length) in Heq.
    rewrite length_append in Heq. simpl in Heq. lia. }
  rewrite !H by (simpl; lia). done.
Qed.

(** Whatever is joined in front, a path built from [rel +:+ ".bak"] ends in
    [.bak]. *)
Lemma Join_bak base rel : exists stem, filepath.Join [base; rel +:+ ".bak"] = stem +:+ ".bak".
Proof.
  assert (Hclean : forall q, exists stem, filepath.Clean (q +:+ ".bak") = stem +:+ ".bak").
  { intros q. destruct (elements_append q ".bak" eq_refl) as (es & e & _ & Hq).
    destruct (Clean_last _ _ _ Hq (proper_bak e)) as [pre Hpre].
    exists (pre +:+ e). by rewrite Hpre, append_assoc. }
  unfold filepath.Join. destruct (String.eqb base "") eqn:Hb.
  - destruct (String.eqb (rel +:+ ".bak") "") eqn:He.
    + apply String.eqb_eq in He. apply (f_equal String.length) in He.
      rewrite length_append in He. simpl in He. lia.
    + simpl. apply Hclean.
  - simpl. rewrite <- !append_assoc. apply Hclean.
Qed.

(** ** Cleaned paths *)

Lemma proper_not_dotdot e : proper e = true -> String.eqb e ".." = false.
Proof.
  unfold proper. intros H. apply andb_true_iff in H as [_ H].
  by apply negb_true_iff in H.
Qed.

Lemma clean_element_shape rooted st e :
  keptShape rooted st -> keptShape rooted (filepath.clean_element rooted st e).
Proof.
  intros (props & k & -> & Hprops & Hroot).
  unfold filepath.clean_element.
  destruct (String.eqb e "" || String.eqb e ".") eqn:Hskip.
  { by exists props, k. }
  destruct (String.eqb_spec e "..") as [->|Hne].
  - destruct props as [|top props]; simpl.
    + destruct k as [|k]; simpl.
      * destruct rooted eqn:Hr.
        { by exists [], 0%nat. }
        exists [], 1%nat. by repeat split.
      * exists [], (S (S k)). repeat split; try done.
        intros Hr. by specialize (Hroot Hr).
    + inversion Hprops as [|? ? Htop Hprops']; subst.
      rewrite (proper_not_dotdot _ Htop). by exists props, k.
  - exists (e :: props), k. repeat split; try done. constructor; [|done].
    apply orb_false_iff in Hskip as [H0 H1]. unfold proper. rewrite H0, H1. simpl.
    apply negb_true_iff. by apply String.eqb_neq.
Qed.

Lemma fold_clean_shape rooted es :
  forall st, keptShape rooted st ->
             keptShape rooted (fold_left (filepath.clean_element rooted) es st).
Proof.
  induction es as [|e es IH]; intros st Hst; [done|].
  simpl. apply IH. by apply clean_element_shape.
Qed.

Lemma kept_shape rooted p : keptShape rooted (kept rooted p).
Proof. apply fold_clean_shape. exists [], 0%nat. by repeat split. Qed.

Lemma replicate_snoc {A} (x : A) k : replicate k x ++ [x] = x :: replicate k x.
Proof. induction k as [|k IH]; [done|]. simpl. by rewrite IH. Qed.

Lemma rev_replicate {A} (x : A) k : rev (replicate k x) = replicate k x.
Proof. induction k as [|k IH]; [done|]. simpl. by rewrite IH, replicate_snoc. Qed.

(** Cleaning what was kept keeps all of it. *)
Lemma fold_clean_dots k :
  forall j, fold_left (filepath.clean_element false) (replicate k "..") (replicate j "..")
            = replicate (k + j) "..".
Proof.
  induction k as [|k IH]; intros j; [done|].
  destruct j as [|j].
  - change (fold_left (filepath.clean_element false) (replicate k "..") (replicate 1 "..")
            = replicate (S k + 0) "..").
    rewrite (IH 1%nat). f_equal. lia.
  - change (fold_left (filepath.clean_element false) (replicate k "..")
                      (replicate (S (S j)) "..")
            = replicate (S k + S j) "..").
    rewrite (IH (S (S j))). f_equal. lia.
Qed.

Lemma fold_clean_props rooted props :
  Forall (fun e => proper e = true) props ->
  forall st, fold_left (filepath.clean_element rooted) props st = rev props ++ st.
Proof.
  induction 1 as [|e props He _ IH]; intros st; [done|].
  simpl. rewrite clean_element_proper by done. rewrite IH, <- app_assoc. done.
Qed.

Lemma fold_clean_kept rooted st :
  keptShape rooted st ->
  fold_left (filepath.clean_element rooted) (rev st) [] = st.
Proof.
  intros (props & k & -> & Hprops & Hroot).
  rewrite rev_app_distr, fold_left_app, rev_replicate.
  assert (Hdots : fold_left (filepath.clean_element rooted) (replicate k "..") []
                  = replicate k "..").
  { destruct rooted.
    - by rewrite (Hroot eq_refl).
    - pose proof (fold_clean_dots k 0) as H. simpl in H. rewrite H. f_equal. lia. }
  rewrite Hdots.
  rewrite fold_clean_props by (by apply Forall_rev). by rewrite rev_involutive.
Qed.

(** ** Elements of a joined path *)

Lemma elements_all_noSeparator p : Forall (fun e => noSeparator e = true) (filepath.elements p).
Proof.
  induction p as [|c p IH]; simpl.
  - by repeat constructor.
  - destruct (Ascii.eqb c filepath.Separator) eqn:Hc.
    + by constructor.
    + destruct (filepath.elements p) as [|h t]; inversion IH; subst.
      * by repeat constructor; simpl; rewrite Hc.
      * constructor; [|done]. simpl. by rewrite Hc.
Qed.

Lemma elements_strings_Join l :
  l <> [] -> Forall (fun e => noSeparator e = true) l ->
  filepath.elements (strings.Join l "/") = l.
Proof.
  intros Hne Hall. induction Hall as [|e l He Hl IH]; [done|].
  destruct l as [|x l].
  - simpl. by apply elements_noSeparator.
  - change (strings.Join (e :: x :: l) "/") with (e +:+ "/" +:+ strings.Join (x :: l) "/").
    rewrite elements_separator, (elements_noSeparator e He), IH; done.
Qed.

Lemma clean_element_Forall (P : string -> Prop) rooted out e :
  Forall P out -> P e -> Forall P (filepath.clean_element rooted out e).
Proof.
  intros Hout He. unfold filepath.clean_element.
  destruct (String.eqb e "" || String.eqb e "."); [done|].
  destruct (String.eqb e "..").
  - destruct out as [|top below].
    + destruct rooted; by repeat constructor.
    + destruct (String.eqb top ".."); [by constructor|]. by inversion Hout.
  - by constructor.
Qed.

Lemma kept_noSeparator rooted p : Forall (fun e => noSeparator e = true) (kept rooted p).
Proof.
  unfold kept. pose proof (elements_all_noSeparator p) as Hall.
  assert (H : forall st, Forall (fun e => noSeparator e = true) st ->
               Forall (fun e => noSeparator e = true)
                      (fold_left (filepath.clean_element rooted) (filepath.elements p) st)).
  { induction Hall as [|e es He _ IH]; intros st Hst; [done|].
    simpl. apply IH. by apply clean_element_Forall. }
  apply H. constructor.
Qed.

Lemma IsAbs_append d t : d <> "" -> filepath.IsAbs (d +:+ t) = filepath.IsAbs d.
Proof.
  destruct d as [|c d]; [done|]. intros _. rewrite append_cons.
  unfold filepath.IsAbs, strings.HasPrefix. cbn [String.prefix].
  destruct (ascii_dec "/" c); [|done]. by destruct (d +:+ t), d.
Qed.

(** Joining a proper name to a path never gives that path back. *)
Lemma Join_child_differs d n :
  proper n = true -> noSeparator n = true -> filepath.Join [d; n] <> d.
Proof.
  intros Hn Hsep Heq.
  assert (Hne : n <> "") by (intros ->; done).
  unfold filepath.Join in Heq. destruct (String.eqb_spec d "") as [->|Hd].
  - destruct (String.eqb_spec n "") as [|_]; [done|]. simpl in Heq.
    destruct (Clean_last n [] n (elements_noSeparator n Hsep) Hn) as [pre Hpre].
    rewrite Hpre in Heq. apply (f_equal String.length) in Heq.
    rewrite length_append in Heq. destruct n; [done|]. simpl in Heq. lia.
  - change (strings.Join [d; n] "/") with (d +:+ "/" +:+ n) in Heq.
    set (rooted := filepath.IsAbs d).
    assert (Hkept : kept rooted (d +:+ "/" +:+ n) = n :: kept rooted d).
    { unfold kept. rewrite elements_separator, (elements_noSeparator n Hsep), fold_left_app.
      simpl. by apply clean_element_proper. }
    set (l := rev (kept rooted d)).
    assert (Hl : Forall (fun e => noSeparator e = true) (l ++ [n])).
    { apply Forall_app. split; [apply Forall_rev, kept_noSeparator|by constructor]. }
    assert (Hnil : l ++ [n] <> []) by (by destruct l).
    assert (Helems : fold_left (filepath.clean_element rooted) (filepath.elements d) []
                     = fold_left (filepath.clean_element rooted) (l ++ [n]) []).
    { rewrite <- Heq at 1. unfold filepath.Clean.
      rewrite (IsAbs_append d ("/" +:+ n) Hd). fold rooted.
      fold (kept rooted (d +:+ "/" +:+ n)). rewrite Hkept. simpl rev. fold l.
      destruct rooted.
      - change (filepath.elements ("/" +:+ strings.Join (l ++ [n]) "/"))
          with ("" :: filepath.elements (strings.Join (l ++ [n]) "/")).
        by rewrite (elements_strings_Join _ Hnil Hl).
      - destruct (l ++ [n]) eqn:Hln; [done|]. rewrite <- Hln in *.
        by rewrite (elements_strings_Join _ Hnil Hl). }
    fold (kept rooted d) in Helems.
    rewrite fold_left_app in Helems. unfold l in Helems.
    rewrite (fold_clean_kept rooted (kept rooted d) (kept_shape rooted d)) in Helems.
    simpl in Helems. rewrite clean_element_proper in Helems by done.
    apply (f_equal length) in Helems. simpl in Helems. lia.
Qed.

(** ** The name at the end of a path *)

Lemma slice_from_split k : forall s, exists a, s = a +:+ strings.slice_from k s.
Proof.
  induction k as [|k IH]; intros s.
  - by exists "".
  - destruct s as [|c s]; [by exists ""|].
    destruct (IH s) as [a Ha]. exists (String c a).
    rewrite append_cons. simpl. by rewrite <- Ha.
Qed.

Lemma HasSuffix_split s suffix :
  strings.HasSuffix s suffix = true -> exists a, s = a +:+ suffix.
Proof.
  unfold strings.HasSuffix. intros H. apply andb_true_iff in H as [_ H].
  apply String.eqb_eq in H.
  destruct (slice_from_split (String.length s - String.length suffix) s) as [a Ha].
  exists a. by rewrite H in Ha.
Qed.

Lemma lower_byte_separator c :
  Ascii.eqb (strings.lower_byte c) filepath.Separator = Ascii.eqb c filepath.Separator.
Proof. destruct c as [[] [] [] [] [] [] [] []]; reflexivity. Qed.

(** Lowering a path lowers its elements. *)
Lemma elements_ToLower p :
  filepath.elements (strings.ToLower p) = map strings.ToLower (filepath.elements p).
Proof.
  induction p as [|c p IH]; [done|].
  simpl. rewrite lower_byte_separator, IH.
  destruct (Ascii.eqb c filepath.Separator); [done|].
  by destruct (filepath.elements p).
Qed.

Lemma elements_single p h : filepath.elements p = [h] -> p = h.
Proof.
  revert h. induction p as [|c p IH]; intros h Hp.
  - by inversion Hp.
  - simpl in Hp. destruct (Ascii.eqb c filepath.Separator).
    + inversion Hp as [[Hh Hnil]]. by apply elements_not_nil in Hnil.
    + destruct (filepath.elements p) as [|h' t] eqn:Hel;
        [by apply elements_not_nil in Hel|].
      inversion Hp; subst. by rewrite (IH h' eq_refl).
Qed.

(** A path ends with its last element. *)
Lemma path_ends_with_last p :
  forall es e, filepath.elements p = es ++ [e] -> exists pre, p = pre +:+ e.
Proof.
  induction p as [|c p IH]; intros es e Hp.
  - simpl in Hp. destruct es as [|x [|y es]]; inversion Hp; subst. by exists "".
  - simpl in Hp. destruct (Ascii.eqb c filepath.Separator).
    + destruct es as [|x es].
      * inversion Hp as [[He Hnil]]. by apply elements_not_nil in Hnil.
      * inversion Hp as [[Hx Hrest]]. destruct (IH es e Hrest) as [pre ->].
        exists (String c pre). by rewrite append_cons.
    + destruct (filepath.elements p) as [|h t] eqn:Hel;
        [by apply elements_not_nil in Hel|].
      destruct es as [|x es].
      * inversion Hp as [[He Ht]]. subst t. apply elements_single in Hel. subst h.
        by exists "".
      * inversion Hp as [[Hx Hrest]]. destruct (IH (h :: es) e) as [pre ->].
        { by rewrite Hrest. }
        exists (String c pre). by rewrite append_cons.
Qed.

(** Whether a path is a Markdown path is decided by its last element. *)
Lemma isMarkdown_last p es e :
  filepath.elements p = es ++ [e] -> isMarkdown p = isMarkdown e.
Proof.
  intros Hp. destruct (isMarkdown e) eqn:He.
  - destruct (path_ends_with_last p es e Hp) as [pre ->]. by apply isMarkdown_append.
  - destruct (isMarkdown p) eqn:Hmd; [|done].
    unfold isMarkdown in Hmd. apply HasSuffix_split in Hmd as [a Ha].
    destruct (elements_append a ".md" eq_refl) as (es1 & e1 & _ & Hel).
    rewrite <- Ha, elements_ToLower, Hp, map_app in Hel. simpl in Hel.
    apply app_inj_tail in Hel as [_ Hlast].
    unfold isMarkdown in He. rewrite Hlast in He.
    by rewrite (HasSuffix_append e1 ".md" ".md" eq_refl) in He.
Qed.

(** The name [Base] gives for a path that does not end in a separator is
    its last element, so the program's test on the path is a test on the
    name. *)
Lemma isMarkdown_Base p es e :
  filepath.elements p = es ++ [e] -> e <> "" ->
  filepath.Base p = e /\ isMarkdown (filepath.Base p) = isMarkdown p.
Proof.
  intros Hp He.
  assert (Hbase : filepath.Base p = e).
  { unfold filepath.Base. destruct (String.eqb_spec p "") as [->|_].
    - simpl in Hp. destruct es as [|x [|y es]]; inversion Hp; by subst.
    - rewrite Hp, rev_app_distr. simpl. rewrite filter_cons.
      destruct (decide _) as [|Hn]; [done|]. exfalso. apply Hn.
      by rewrite (proj2 (String.eqb_neq e "") He). }
  split; [done|]. rewrite Hbase. symmetry. by eapply isMarkdown_last.
Qed.

(** ** Running the monad *)

Ltac run :=
  unfold os.WriteFile, os.MkdirAll, os.store, os.ReadFile, Println, printError,
    Sleep, rand_Float64, client_Do, emit, bind, ret in *; simpl in *.

Ltac split_match :=
  match goal with
  | |- context [match ?x with _ => _ end] => destruct x eqn:?; simpl in *
  | H : context [match ?x with _ => _ end] |- _ => destruct x eqn:?; simpl in *
  end.

(** ** The retrying client *)

(** One call of [processWithGemini] leaves the files and the random stream
    alone, starts at most one exchange, and returns either a result with no
    error or an empty result with an error. *)
Lemma processWithGemini_effect env content w res err w' :
  processWithGemini env content w = ((res, err), w') ->
  files w' = files w /\ draws w' = draws w /\
  (calls w <= calls w' <= S (calls w))%nat /\
  (err <> None -> res = "") /\
  exists t, trace w' = trace w ++ t /\ (t = [] \/ exists body, t = [EvPost body]).
Proof.
  unfold processWithGemini. intros H. run.
  repeat split_match;
    inversion H; subst; simpl;
    repeat split; try lia; try congruence; try done;
    solve [ exists []; rewrite app_nil_r; auto | eexists; split; eauto ].
Qed.

Lemma lastError_cons r e d rounds lastErr :
  lastError ((r, e, d) :: rounds) lastErr = lastError rounds (Some e).
Proof.
  unfold lastError. destruct rounds as [|x rounds]; [done|].
  change (last ((r, e, d) :: x :: rounds)) with (last (x :: rounds)).
  destruct (last (x :: rounds)) as [[[? ?] ?]|] eqn:E; [done|].
  apply last_None in E. discriminate.
Qed.

(** The shape of every run of the loop: some failed rounds, each an attempt
    that returned an error followed by the sleep computed for it, and then
    either one successful attempt whose result is returned, or, once the
    budget is used up, the terminal error. *)
Lemma retryFrom_shape env content remaining :
  forall attempt lastErr w res err w',
    retryFrom env content remaining attempt lastErr w = ((res, err), w') ->
    files w' = files w /\
    exists (rounds : list (string * string * Duration)) (t : list Event),
      trace w' = trace w ++ t /\
      retryEvents t
      = flat_map failedRound rounds
        ++ match err with None => [EvAttempt res None] | Some _ => [] end /\
      Forall (fun e => isTransform e = true) t /\
      draws w' = (draws w + length rounds)%nat /\
      (calls w' <= calls w + length rounds
                   + match err with None => 1 | Some _ => 0 end)%nat /\
      (forall j r e d, rounds !! j = Some (r, e, d) ->
         d = backoffWithJitter (Float64 env (draws w + j)) (attempt + j)) /\
      match err with
      | None => (length rounds < remaining)%nat
      | Some m =>
          length rounds = remaining /\ res = "" /\
          m = "max retries exceeded: " +:+ fmt_v (lastError rounds lastErr)
      end.
Proof.
  induction remaining as [|remaining IH]; intros attempt lastErr w res err w' H.
  - simpl in H. run. inversion H; subst. split; [done|].
    exists [], []. rewrite app_nil_r. repeat split; auto; try lia.
    intros j r e d Hj. discriminate.
  - simpl in H. unfold bind at 1 in H.
    destruct (processWithGemini env content w) as [[r0 e0] w1] eqn:Hcall.
    apply processWithGemini_effect in Hcall
      as (Hfiles & Hdraws & Hcalls & Hres & t0 & Htrace & Ht0).
    assert (Ht0' : retryEvents t0 = [] /\ Forall (fun e => isTransform e = true) t0).
    { destruct Ht0 as [->|[body ->]]; split; try done. by repeat constructor. }
    destruct Ht0' as [Hre0 Htr0].
    destruct e0 as [e|].
    + (* the attempt failed: sleep and go round again *)
      run.
      match type of H with retryFrom _ _ _ _ _ ?x = _ => set (w3 := x) in * end.
      apply IH in H as (Hf & rounds & t & Ht & Hre & Htr & Hd & Hc & Hdelay & Hend).
      simpl in *. split; [congruence|].
      set (d := backoffWithJitter (Float64 env (draws w1)) attempt).
      exists ((r0, e, d) :: rounds), (t0 ++ [EvAttempt r0 (Some e); EvSleep d] ++ t).
      repeat split.
      * rewrite Ht, Htrace. simpl. by rewrite <- !app_assoc.
      * unfold retryEvents in *. rewrite !filter_app, Hre0, Hre. done.
      * apply Forall_app; split; [done|]. apply Forall_app; split; [|done].
        by repeat constructor.
      * simpl. lia.
      * destruct err; simpl in *; lia.
      * intros [|j] r' e' d' Hj; simpl in Hj.
        -- inversion Hj; subst. unfold d. rewrite Hdraws.
           by rewrite !Nat.add_0_r.
        -- apply Hdelay in Hj. rewrite Hj, Hdraws.
           by rewrite <- !Nat.add_succ_r.
      * destruct err as [m|].
        -- destruct Hend as (Hlen & Hempty & Hm). repeat split; simpl; auto.
           by rewrite lastError_cons.
        -- simpl. lia.
    + (* the attempt succeeded: return at once *)
      run. inversion H; subst. simpl. split; [done|].
      exists [], (t0 ++ [EvAttempt res None]). repeat split; simpl; try lia.
      * by rewrite Htrace, <- app_assoc.
      * unfold retryEvents in *. by rewrite filter_app, Hre0.
      * apply Forall_app; split; [done|]. by repeat constructor.
      * intros j r e d Hj. discriminate.
Qed.

(** ** The backoff delay *)







(** In binary64 the bounds are met exactly at the two ends of the jitter
    range, [r = 0] and the largest double below 1, for the capped delays of
    1, 2, 4, 8, 16 and 30 seconds; rounding is monotone in between. *)
Example backoffWithJitter64_ends :
  map (fun b => (backoffWithJitter64 0 b, backoffWithJitter64 0x1.fffffffffffffp-1 b))
      [1; 2; 4; 8; 16; 30]%float
  = [(800000000, 1200000000); (1600000000, 2400000000); (3200000000, 4800000000);
     (6400000000, 9600000000); (12800000000, 19200000000);
     (24000000000, 36000000000)]%Z.
Proof. vm_compute. reflexivity. Qed.

(** ** Attempts and sleeps of the retry loop *)


Lemma sleeps_retryEvents t : sleeps (retryEvents t) = sleeps t.
Proof.
  unfold sleeps, retryEvents. induction t as [|[] t IH]; simpl; auto;
    repeat (rewrite filter_cons; simpl; repeat case_decide; try done); congruence.
Qed.


Lemma sleeps_rounds rounds :
  sleeps (flat_map failedRound rounds) = map (fun round => EvSleep round.2) rounds.
Proof.
  induction rounds as [|[[r e] d] rounds IH]; [done|].
  simpl. unfold sleeps in *. rewrite !filter_cons. simpl. by rewrite IH.
Qed.

(** A result returned without error is what some call of
    [processWithGemini] returned. *)
Lemma retryFrom_success env content remaining :
  forall attempt lastErr w res w',
    retryFrom env content remaining attempt lastErr w = ((res, None), w') ->
    exists w0 w1, processWithGemini env content w0 = ((res, None), w1).
Proof.
  induction remaining as [|remaining IH]; intros attempt lastErr w res w' H.
  - simpl in H. run. discriminate.
  - simpl in H. unfold bind at 1 in H.
    destruct (processWithGemini env content w) as [[r0 [e|]] w1] eqn:Hcall.
    + run. by apply IH in H.
    + run. inversion H; subst. eauto.
Qed.

(** The last thing the loop does is the successful attempt, or else the
    sleep after the last failed one. *)
Lemma retryFrom_last env content remaining :
  forall attempt lastErr w res err w',
    retryFrom env content remaining attempt lastErr w = ((res, err), w') ->
    match err with
    | None => last (trace w') = Some (EvAttempt res None)
    | Some _ => remaining = 0%nat \/ exists d, last (trace w') = Some (EvSleep d)
    end.
Proof.
  induction remaining as [|remaining IH]; intros attempt lastErr w res err w' H.
  - simpl in H. run. inversion H; subst. by left.
  - simpl in H. unfold bind at 1 in H.
    destruct (processWithGemini env content w) as [[r0 [e|]] w1] eqn:Hcall.
    + run. destruct remaining as [|remaining].
      * simpl in H. run. inversion H; subst. simpl. right.
        eexists. by rewrite last_snoc.
      * apply IH in H. destruct err; [|done].
        destruct H as [H|H]; [discriminate|by right].
    + run. inversion H; subst. simpl. by rewrite last_snoc.
Qed.

(** ** The claims about the retrying client *)


(** A run in which the service refuses twice and then answers. *)
Example processWithGeminiRetry_third_attempt :
  let '((res, err), w') :=
    processWithGeminiRetry (sampleEnv noEntry (fun _ => None) (fun _ _ => WriteCompletes)
                                      (refuses 2)) "teh text" emptyWorld in
  (res, err, calls w', retryEvents (trace w'))
  = ("# teh text", None, 3%nat,
     [EvAttempt "" (Some "API returned error status: 429, body: quota");
      EvSleep 1000000000%Z;
      EvAttempt "" (Some "API returned error status: 429, body: quota");
      EvSleep 2000000000%Z;
      EvAttempt "# teh text" None]).
Proof. vm_compute. reflexivity. Qed.





(** The same run, evaluated: five attempts, five sleeps of 1, 2, 4, 8 and
    16 seconds (the jitter of this environment is zero), the last of them
    after the fifth attempt. *)
Example processWithGeminiRetry_exhausted :
  let '((res, err), w') :=
    processWithGeminiRetry (sampleEnv noEntry (fun _ => None) (fun _ _ => WriteCompletes)
                                      timesOut) "text" emptyWorld in
  (res, err, calls w', sleeps (trace w'), last (trace w'))
  = ("", Some "max retries exceeded: error sending request: context deadline exceeded",
     5%nat,
     [EvSleep 1000000000%Z; EvSleep 2000000000%Z; EvSleep 4000000000%Z;
      EvSleep 8000000000%Z; EvSleep 16000000000%Z],
     Some (EvSleep 16000000000%Z)).
Proof. vm_compute. reflexivity. Qed.

(** ** The status bar *)

Lemma incr_below (x bound : Z) : (x < bound <= maxInt)%Z -> incr x = (x + 1)%Z.
Proof. intros H. unfold incr. destruct (Z.eqb_spec x maxInt); lia. Qed.

(** From counters that add up and leave room for the increments still to
    come, every render sees counters that add up and do not exceed the
    total, and the run ends with [processed] advanced by the number of
    increments. *)
Lemma runCalls_invariant cs :
  forall s,
    (0 <= success s)%Z -> (0 <= failed s)%Z ->
    processed s = (success s + failed s)%Z ->
    (processed s + Z.of_nat (increments cs) <= total s)%Z ->
    (total s <= maxInt)%Z ->
    Forall (rendersConsistently (total s)) (runCalls cs s).2 /\
    processed (runCalls cs s).1 = (processed s + Z.of_nat (increments cs))%Z /\
    total (runCalls cs s).1 = total s /\
    processed (runCalls cs s).1
    = (success (runCalls cs s).1 + failed (runCalls cs s).1)%Z.
Proof.
  unfold increments.
  induction cs as [|c cs IH]; intros s Hs Hf Hsum Hroom Hmax.
  - simpl. split; [constructor|]. split; [lia|done].
  - simpl.
    destruct (call c s) as [s1 line] eqn:Hcall.
    destruct (runCalls cs s1) as [s2 seen] eqn:Hrest. simpl.
    assert (Hstep : total s1 = total s /\ (0 <= success s1)%Z /\ (0 <= failed s1)%Z /\
                    processed s1 = (success s1 + failed s1)%Z /\
                    processed s1
                    = (processed s + if isIncrement c then 1 else 0)%Z).
    { destruct c; simpl in Hcall; inversion Hcall; subst; simpl;
        rewrite ?filter_cons in Hroom; simpl in Hroom;
        rewrite ?(incr_below (processed s) (total s)),
                ?(incr_below (success s) (total s)),
                ?(incr_below (failed s) (total s)) by lia; lia. }
    destruct Hstep as (Ht & Hs1 & Hf1 & Hsum1 & Hp1).
    rewrite filter_cons in Hroom |- *.
    specialize (IH s1 Hs1 Hf1 Hsum1). rewrite Hrest in IH. simpl in IH.
    destruct IH as (Hseen & Hp2 & Ht2 & Hsum2).
    + rewrite Ht, Hp1. destruct c; simpl in *; lia.
    + lia.
    + rewrite Ht in *. split; [|split; [|split]]; try done.
      * constructor; [|done]. unfold rendersConsistently. simpl.
        repeat split; try done. destruct c; simpl in *; lia.
      * rewrite Hp2, Hp1. destruct c; simpl; lia.
Qed.

(** C3, as the code has it.  On a bar created with total [N], a run of
    calls with at most [N] increments keeps [processed = success + failed]
    and [processed <= total] at every render; when the run has exactly [N]
    increments, [processed = total] at its end, and the line [Finish]
    prints then shows [N] of [N] with successes and failures adding up to
    [N]. *)
Theorem statusBar_counters (N : Z) (cs : list BarCall) :
  (0 <= N <= maxInt)%Z ->
  (Z.of_nat (increments cs) <= N)%Z ->
  let '(s, seen) := runCalls cs (NewStatusBar N) in
  Forall (rendersConsistently N) seen /\
  (Z.of_nat (increments cs) = N ->
   processed s = total s /\
   let line := (Finish s).2 in
   shownDone line = N /\ shownTotal line = N /\
   (shownSuccess line + shownFailed line)%Z = N).
Proof.
  intros HN Hcount.
  pose proof (runCalls_invariant cs (NewStatusBar N)) as H. simpl in H.
  destruct H as (Hseen & Hp & Ht & Hsum); try lia.
  destruct (runCalls cs (NewStatusBar N)) as [s seen] eqn:Hrun. simpl in *.
  split; [done|]. intros Hall. repeat split; lia.
Qed.

Lemma statusBar_counters_witness :
  (0 <= 2 <= maxInt)%Z /\
  (Z.of_nat (increments [CallSuccess; CallFailed; CallFinish]) <= 2)%Z /\
  Forall (rendersConsistently 2)
         (runCalls [CallSuccess; CallFailed; CallFinish] (NewStatusBar 2)).2.
Proof.
  split; [done|]. split; [done|].
  pose proof (statusBar_counters 2 [CallSuccess; CallFailed; CallFinish]) as H.
  simpl in H. apply H; done.
Defined.

(** C3 as stated fails: nothing in the status bar stops the counters at
    the total.  Two successes on a bar with total 1 render [processed = 2]. *)
Lemma statusBar_exceeds_total :
  ~ Forall (rendersConsistently 1)
           (runCalls [CallSuccess; CallSuccess] (NewStatusBar 1)).2.
Proof.
  intros H. simpl in H. inversion H as [|? ? _ H2]; subst.
  inversion H2 as [|? ? Hbad _]; subst.
  unfold rendersConsistently in Hbad. simpl in Hbad.
  destruct Hbad as (_ & Hle & _). vm_compute in Hle. by apply Hle.
Qed.


(** ** The write-back *)

Lemma isTransform_not_write e : isTransform e = true -> isWrite e = false.
Proof. by destruct e. Qed.

Lemma Forall_not_write t :
  Forall (fun e => isTransform e = true) t -> Forall (fun e => isWrite e = false) t.
Proof. intros H. eapply Forall_impl; [exact H|]. intros e. apply isTransform_not_write. Qed.

(** C2, as the code has it.  [processFileContent] touches no file other
    than the source path.  When the transform fails it writes nothing.
    Otherwise its one write comes after the successful attempt and carries
    that attempt's output; the file then holds that output when the write
    completes, is untouched when the file cannot be opened, and holds a
    prefix of the output (possibly all of it) when the write stops or the
    close fails after the file was truncated. *)
Theorem processFileContent_write_back env fi w :
  let '(ok, w') := processFileContent env fi w in
  (forall p, p <> Path fi -> files w' !! p = files w !! p) /\
  ((ok = false /\ files w' = files w /\
    exists t, trace w' = trace w ++ t /\ Forall (fun e => isWrite e = false) t)
   \/
   exists out t1 t2,
     transformOutput env (Content fi) out /\
     trace w' = trace w ++ t1 ++ [EvWriteFile (Path fi) out] ++ t2 /\
     Forall (fun e => isWrite e = false) t1 /\
     last t1 = Some (EvAttempt out None) /\
     Forall (fun e => isWrite e = false) t2 /\
     match WriteFile_outcome env (Path fi) out with
     | WriteCompletes => ok = true /\ files w' = <[Path fi := out]> (files w)
     | OpenFails _ => ok = false /\ files w' = files w
     | WriteStops n _ =>
         ok = false /\
         files w' = <[Path fi := String.substring 0 (Nat.min n (String.length out)) out]>
                      (files w)
     | CloseFails _ => ok = false /\ files w' = <[Path fi := out]> (files w)
     end).
Proof.
  unfold processFileContent, bind at 1.
  destruct (processWithGeminiRetry env (Content fi) w) as [[out err] w1] eqn:H.
  unfold processWithGeminiRetry in H.
  pose proof (retryFrom_last _ _ _ _ _ _ _ _ _ H) as Hlast.
  pose proof (retryFrom_shape _ _ _ _ _ _ _ _ _ H)
    as (Hfiles & rounds & t1 & Ht & Hre & Htr & _).
  apply Forall_not_write in Htr.
  destruct err as [m|].
  - (* the transform failed *)
    run. split; [intros p _; by rewrite Hfiles|]. left.
    split; [done|]. split; [done|].
    eexists (t1 ++ [_]). rewrite Ht, <- app_assoc. split; [done|].
    apply Forall_app; split; [done|]. by repeat constructor.
  - (* the transform succeeded: one write *)
    assert (Hout : transformOutput env (Content fi) out)
      by (by apply retryFrom_success in H).
    assert (Hl1 : last t1 = Some (EvAttempt out None)).
    { simpl in Hlast, Hre. rewrite Ht, last_app in Hlast.
      destruct (last t1) eqn:El; [done|].
      apply last_None in El. subst t1.
      apply (f_equal length) in Hre. rewrite length_app in Hre. simpl in Hre. lia. }
    run. destruct (WriteFile_outcome env (Path fi) out) eqn:Hw; simpl.
    + split; [intros p Hp; by rewrite lookup_insert_ne, Hfiles|].
      right. exists out, t1, []. rewrite Hw, Ht, Hfiles, <- app_assoc.
      repeat split; try done.
    + split; [intros p Hp; by rewrite Hfiles|].
      right. exists out, t1. eexists [_].
      rewrite Hw, Ht, Hfiles, <- !app_assoc. repeat split; try done.
      by repeat constructor.
    + split; [intros p Hp; by rewrite lookup_insert_ne, Hfiles|].
      right. exists out, t1. eexists [_].
      rewrite Hw, Ht, Hfiles, <- !app_assoc. repeat split; try done.
      by repeat constructor.
    + split; [intros p Hp; by rewrite lookup_insert_ne, Hfiles|].
      right. exists out, t1. eexists [_].
      rewrite Hw, Ht, Hfiles, <- !app_assoc. repeat split; try done.
      by repeat constructor.
Qed.

(** C2 as stated fails when the write-back stops half way: the transform
    succeeded, [os.WriteFile] truncated the source file and wrote three
    bytes before the error, and the worker reports failure.  The file then
    holds neither its original content nor the transform's output. *)
Lemma processFileContent_partial_write :
  let env := sampleEnv noEntry (fun _ => None) sourceWriteStops answers in
  let '(ok, w') := processFileContent env sampleFile sampleWorld in
  ok = false /\
  files sampleWorld !! Path sampleFile = Some "teh text" /\
  transformOutput env (Content sampleFile) "# teh text" /\
  files w' !! Path sampleFile = Some "# t" /\
  files w' !! Path sampleFile <> files sampleWorld !! Path sampleFile /\
  ~ transformOutput env (Content sampleFile) "# t".
Proof.
  intros env.
  destruct (processFileContent env sampleFile sampleWorld) as [ok w'] eqn:H.
  vm_compute in H. inversion H; subst; clear H.
  split; [reflexivity|]. split; [vm_compute; reflexivity|]. split; [|split; [|split]].
  - exists emptyWorld. eexists. vm_compute. reflexivity.
  - vm_compute. reflexivity.
  - vm_compute. discriminate.
  - intros (w0 & w1 & Hcall). unfold processWithGemini in Hcall. simpl in Hcall.
    unfold client_Do, bind, ret in Hcall. simpl in Hcall. inversion Hcall.
Qed.

(** ** The backup phase *)

(** The backup destination that [prepareFileForProcessing] derives ends in
    [.bak], so it is never the path of a Markdown file. *)
Lemma prepared_backup_path env filePath backupBaseDir w f w' :
  prepareFileForProcessing env filePath backupBaseDir w = ((f, None), w') ->
  exists stem, BackupPath f = stem +:+ ".bak".
Proof.
  unfold prepareFileForProcessing. intros H. run.
  destruct (files w !! filePath) as [content|]; simpl in H; [|by inversion H].
  destruct (filepath.Abs (Getwd env) filePath) as [absFilePath [e|]];
    destruct (Getwd env) as [workDir e0]; simpl in H;
    destruct (filepath.Abs (workDir, e0) workDir) as [absWorkDir e1];
    inversion H; subst; simpl.
  apply Join_bak.
Qed.

Lemma prepared_backup_not_markdown env filePath backupBaseDir w f w' :
  prepareFileForProcessing env filePath backupBaseDir w = ((f, None), w') ->
  isMarkdown (BackupPath f) = false.
Proof.
  intros H. apply prepared_backup_path in H as [stem ->]. apply bak_is_not_markdown.
Qed.

Lemma backedUp_app pre post m : backedUp (pre ++ post) m = backedUp post (backedUp pre m).
Proof. unfold backedUp. by rewrite foldl_app. Qed.

(** Backups are written to backup paths only. *)
Lemma backedUp_other fs : forall m p,
  p ∉ BackupPath <$> fs -> backedUp fs m !! p = m !! p.
Proof.
  induction fs as [|f fs IH]; intros m p Hp; [done|].
  simpl in *. apply not_elem_of_cons in Hp as [Hne Hp].
  rewrite IH by done. by apply lookup_insert_ne.
Qed.

(** A backup that no later task overwrites holds the task's content. *)
Lemma backedUp_in_place pre g post m :
  BackupPath g ∉ BackupPath <$> post ->
  backedUp (pre ++ g :: post) m !! BackupPath g = Some (Content g).
Proof.
  intros Hfresh. rewrite backedUp_app. simpl.
  rewrite backedUp_other by done. apply lookup_insert_eq.
Qed.

(** What a write to [name] can leave there. *)
Lemma WriteFile_effect env name data w err w' :
  os.WriteFile env name data w = (err, w') ->
  trace w' = trace w ++ [EvWriteFile name data] /\
  calls w' = calls w /\ draws w' = draws w /\
  (forall p, p <> name -> files w' !! p = files w !! p) /\
  (err = None -> files w' = <[name := data]> (files w)).
Proof.
  intros H. run.
  destruct (WriteFile_outcome env name data); inversion H; subst; simpl;
    repeat split; try done; intros p Hp; by rewrite ?lookup_insert_ne.
Qed.

(** The backup loop, entered at task [i]: it only prints, creates
    directories and writes backup files.  On success every backup has been
    written in order; on failure the loop stopped at some task [f], the
    error names [f]'s path, every task before [f] has been backed up, and
    nothing but [f]'s own backup path can differ from that. *)
Lemma backupFrom_spec env total fs :
  forall i w err w',
    backupFrom env total i fs w = (err, w') ->
    calls w' = calls w /\ draws w' = draws w /\
    (exists t, trace w' = trace w ++ t /\ Forall (fun e => isTransform e = false) t) /\
    match err with
    | None => files w' = backedUp fs (files w)
    | Some m =>
        exists pre f post e,
          fs = pre ++ f :: post /\
          (m = "error creating backup directory structure for "
               +:+ Path f +:+ ": " +:+ e
           \/ m = "error creating backup file for " +:+ Path f +:+ ": " +:+ e) /\
          forall p, p <> BackupPath f -> files w' !! p = backedUp pre (files w) !! p
    end.
Proof.
  induction fs as [|f fs IH]; intros i w err w' H.
  - simpl in H. run. inversion H; subst. simpl. repeat split; try done.
    eexists [_]. split; [done|]. by repeat constructor.
  - simpl in H. unfold bind at 1 in H.
    destruct (os.MkdirAll env (filepath.Dir (BackupPath f)) w) as [e1 w1] eqn:Hmk.
    assert (Hw1 : w1 = mkWorld (files w)
                         (trace w ++ [EvMkdirAll (filepath.Dir (BackupPath f))])
                         (calls w) (draws w)
                  /\ e1 = MkdirAll_err env (filepath.Dir (BackupPath f))).
    { run. by inversion Hmk. }
    destruct Hw1 as [-> ->].
    destruct (MkdirAll_err env (filepath.Dir (BackupPath f))) as [e|] eqn:Hdir.
    + (* the directory cannot be created *)
      run. inversion H; subst. simpl. repeat split; try done.
      * eexists [_]. split; [done|]. by repeat constructor.
      * exists [], f, fs, e. split; [done|]. split; [by left|done].
    + unfold bind at 1 in H.
      destruct (os.WriteFile env (BackupPath f) (Content f) _) as [e2 w2] eqn:Hwr.
      apply WriteFile_effect in Hwr as (Ht2 & Hc2 & Hd2 & Hother & Hdone).
      simpl in *. destruct e2 as [e|].
      * (* the backup file cannot be written *)
        run. inversion H; subst. repeat split; try done.
        -- eexists [_; _]. rewrite Ht2, <- app_assoc. split; [done|].
           by repeat constructor.
        -- exists [], f, fs, e. split; [done|]. split; [by right|done].
      * unfold bind at 1 in H.
        match type of H with context [Println ?l w2] =>
          destruct (Println l w2) as [[] w3] eqn:Hpr end.
        assert (Hw3 : files w3 = files w2 /\ calls w3 = calls w2 /\
                      draws w3 = draws w2 /\ exists ev, trace w3 = trace w2 ++ [EvPrint ev]).
        { run. inversion Hpr; subst. simpl. eauto. }
        destruct Hw3 as (Hf3 & Hc3 & Hd3 & ev & Ht3).
        apply IH in H as (Hc & Hd & (t & Ht & Hnt) & Hfin).
        split; [congruence|]. split; [congruence|]. split.
        -- exists ([EvMkdirAll (filepath.Dir (BackupPath f));
                    EvWriteFile (BackupPath f) (Content f); EvPrint ev] ++ t).
           split; [|apply Forall_app; split; [by repeat constructor|done]].
           rewrite Ht, Ht3, Ht2. simpl. by rewrite <- !app_assoc.
        -- rewrite Hf3, (Hdone eq_refl) in Hfin. destruct err as [m|]; [|done].
           destruct Hfin as (pre & g & post & e & -> & Hm & Hrest).
           exists (f :: pre), g, post, e. split; [done|]. split; [done|].
           intros p Hp. by apply Hrest.
Qed.

(** Whether the backup loop fails, and with which error, is decided by the
    environment alone. *)
Lemma backupFrom_error env total fs :
  forall i w w', (backupFrom env total i fs w).1 = (backupFrom env total i fs w').1.
Proof.
  induction fs as [|f fs IH]; intros i w w'; [done|].
  simpl. run.
  destruct (MkdirAll_err env (filepath.Dir (BackupPath f))); [done|].
  destruct (WriteFile_outcome env (BackupPath f) (Content f)); simpl; [apply IH|done..].
Qed.

(** C1.  When the backup of a batch fails, the error names the path of the
    task [f] at which it stopped; [main] prints it and exits with code 1
    instead of starting the workers, so that no exchange is started and no
    transform event occurs; every path that is not a backup destination of
    the batch holds what it held before, in particular every Markdown
    source file of a batch whose backup destinations are not Markdown files
    (as [prepareFileForProcessing] derives them, see
    [prepared_backup_not_markdown]); and the backups of the tasks before
    [f] stay as written: at most [f]'s own backup path differs from the
    state in which exactly those tasks are backed up. *)
Theorem backup_failure_aborts env fs w m :
  (backupAllFiles env fs w).1 = Some m ->
  exists pre f post e w2,
    fs = pre ++ f :: post /\
    (m = "error creating backup directory structure for " +:+ Path f +:+ ": " +:+ e
     \/ m = "error creating backup file for " +:+ Path f +:+ ": " +:+ e) /\
    backupThenProcess env fs w = (Exit 1, w2) /\
    calls w2 = calls w /\
    (exists t, trace w2 = trace w ++ t /\ Forall (fun e => isTransform e = false) t) /\
    (forall p, p ∉ BackupPath <$> fs -> files w2 !! p = files w !! p) /\
    (Forall (fun g => isMarkdown (BackupPath g) = false) fs ->
     forall g, g ∈ fs -> isMarkdown (Path g) = true ->
               files w2 !! Path g = files w !! Path g) /\
    (forall p, p <> BackupPath f -> files w2 !! p = backedUp pre (files w) !! p).
Proof.
  intros Hfail. unfold backupThenProcess, bind at 1.
  destruct (Println "=== Creating Backups ===" w) as [[] w0] eqn:Hp.
  assert (Hw0 : w0 = mkWorld (files w) (trace w ++ [EvPrint "=== Creating Backups ==="])
                             (calls w) (draws w)) by (run; by inversion Hp).
  unfold bind at 1.
  destruct (backupAllFiles env fs w0) as [err w1] eqn:Hb.
  assert (Herr : err = Some m).
  { unfold backupAllFiles in *.
    rewrite (backupFrom_error _ _ _ _ w w0) in Hfail. by rewrite Hb in Hfail. }
  subst err. unfold backupAllFiles in Hb.
  apply backupFrom_spec in Hb as (Hc & Hd & (t & Ht & Hnt) & pre & f & post & e & Hfs & Hm & Hrest).
  exists pre, f, post, e. eexists. split; [done|]. split; [done|].
  run. split; [done|]. subst w0. simpl in *. split; [done|].
  assert (Hother : forall p, p ∉ BackupPath <$> fs -> files w1 !! p = files w !! p).
  { intros p Hp'. destruct (decide (p = BackupPath f)) as [->|Hne].
    + exfalso. apply Hp'. rewrite Hfs, fmap_app. apply elem_of_app. right.
      apply elem_of_cons. by left.
    + rewrite Hrest by done. apply backedUp_other.
      intros Hin. apply Hp'. rewrite Hfs, fmap_app. apply elem_of_app. by left. }
  split; [|split; [|split]].
  - eexists (_ :: t ++ [_]). rewrite Ht, <- !app_assoc. split; [done|].
    constructor; [done|]. apply Forall_app; split; [done|]. by repeat constructor.
  - exact Hother.
  - intros Hbak g Hg Hmd. apply Hother. intros Hin.
    apply list_elem_of_fmap in Hin as (g' & Heq & Hg').
    rewrite Forall_forall in Hbak. specialize (Hbak g' Hg').
    rewrite <- Heq in Hbak. congruence.
  - done.
Qed.

Lemma backup_failure_aborts_witness :
  let env := sampleEnv noEntry subDenied (fun _ _ => WriteCompletes) answers in
  let m := "error creating backup directory structure for sub/b.md: mkdir /w/backup/sub: permission denied" in
  (backupAllFiles env sampleBatch batchWorld).1 = Some m /\
  exists pre f post e w2,
    sampleBatch = pre ++ f :: post /\
    (m = "error creating backup directory structure for " +:+ Path f +:+ ": " +:+ e
     \/ m = "error creating backup file for " +:+ Path f +:+ ": " +:+ e) /\
    backupThenProcess env sampleBatch batchWorld = (Exit 1, w2) /\
    calls w2 = calls batchWorld /\
    (exists t, trace w2 = trace batchWorld ++ t /\
               Forall (fun e => isTransform e = false) t) /\
    (forall p, p ∉ BackupPath <$> sampleBatch -> files w2 !! p = files batchWorld !! p) /\
    (Forall (fun g => isMarkdown (BackupPath g) = false) sampleBatch ->
     forall g, g ∈ sampleBatch -> isMarkdown (Path g) = true ->
               files w2 !! Path g = files batchWorld !! Path g) /\
    (forall p, p <> BackupPath f ->
               files w2 !! p = backedUp pre (files batchWorld) !! p).
Proof.
  intros env m.
  assert (H : (backupAllFiles env sampleBatch batchWorld).1 = Some m)
    by (vm_compute; reflexivity).
  split; [exact H|].
  exact (backup_failure_aborts env sampleBatch batchWorld m H).
Defined.

(** The scenario evaluated: of three files the second cannot be backed up.
    The first backup stays, no source file changes, no request is sent. *)
Example backup_denied_for_one_of_three :
  let env := sampleEnv noEntry subDenied (fun _ _ => WriteCompletes) answers in
  let '(out, w2) := backupThenProcess env sampleBatch batchWorld in
  (out, map (fun p => files w2 !! p)
            ["a.md"; "sub/b.md"; "c.md";
             "/w/backup/a.md.bak"; "/w/backup/sub/b.md.bak"; "/w/backup/c.md.bak"],
   calls w2)
  = (Exit 1, [Some "A"; Some "B"; Some "C"; Some "A"; None; None], 0%nat).
Proof. vm_compute. reflexivity. Qed.

(** ** Collecting the files *)

(** Induction over a directory tree. *)
Lemma Entry_tree_ind (P : Entry -> Prop) :
  (forall name, P (File name)) ->
  (forall name listing entries, Forall P entries -> P (Directory name listing entries)) ->
  forall e, P e.
Proof.
  intros Hfile Hdir. fix IH 1. intros [name|name listing entries].
  - apply Hfile.
  - apply Hdir. induction entries as [|child entries IHentries]; constructor.
    + apply IH.
    + exact IHentries.
Qed.

(** Preparing a file only reads: the world is as before, and the task
    carries the path it was given and the content found there. *)
Lemma prepareFileForProcessing_reads env filePath backupBaseDir w f err w' :
  prepareFileForProcessing env filePath backupBaseDir w = ((f, err), w') ->
  w' = w /\
  (err = None -> Path f = filePath /\ files w !! filePath = Some (Content f)).
Proof.
  unfold prepareFileForProcessing. intros H. run.
  destruct (files w !! filePath) as [content|] eqn:Hread; simpl in H.
  - destruct (filepath.Abs (Getwd env) filePath) as [absFilePath [e|]];
      destruct (Getwd env) as [workDir e0]; simpl in H;
      destruct (filepath.Abs (workDir, e0) workDir) as [absWorkDir e1];
      inversion H; subst; split; try done.
  - inversion H; subst. split; done.
Qed.

(** What the callback does with one path. *)
Lemma walkFunc_spec env dirPath backupBaseDir recursive path info err acc w r acc' w' :
  walkFunc env dirPath backupBaseDir recursive path info err acc w = ((r, acc'), w') ->
  w' = w /\
  match r with
  | None =>
      err = None /\
      if IsDir info then acc' = acc /\ negb recursive && negb (String.eqb path dirPath) = false
      else if isMarkdown (Name info)
           then exists f, acc' = acc ++ [f] /\ Path f = path /\
                          files w !! path = Some (Content f)
           else acc' = acc
  | Some SkipDir =>
      IsDir info = true /\ negb recursive && negb (String.eqb path dirPath) = true /\
      acc' = acc
  | Some (Failure _) => acc' = acc
  end.
Proof.
  unfold walkFunc. intros H. destruct err as [e|].
  - run. by inversion H; subst.
  - destruct (IsDir info) eqn:Hdir.
    + destruct (negb recursive && negb (String.eqb path dirPath)) eqn:Hskip;
        run; by inversion H; subst.
    + destruct (isMarkdown (Name info)) eqn:Hmd; simpl in H.
      * unfold bind at 1 in H.
        destruct (prepareFileForProcessing env path backupBaseDir w)
          as [[f [e|]] w1] eqn:Hprep;
          apply prepareFileForProcessing_reads in Hprep as [-> Hf];
          run; inversion H; subst; split; try done.
        split; [done|]. destruct (Hf eq_refl) as [Hp Hc]. by exists f.
      * run. by inversion H; subst.
Qed.

#[local] Arguments walkFunc : simpl never.
#[local] Arguments filepath.Join : simpl never.

(** [walk] with the program's callback never changes the world; when it
    ends without error it has appended exactly the selected paths, in
    order; and [SkipDir] only ever comes back for a directory from which
    nothing is selected. *)
Lemma walk_selected env dirPath backupBaseDir recursive e :
  forall path acc w r acc' w',
    walk (walkFunc env dirPath backupBaseDir recursive) path e acc w = ((r, acc'), w') ->
    w' = w /\
    match r with
    | None => Path <$> acc' = (Path <$> acc) ++ selected recursive dirPath path e
    | Some SkipDir =>
        acc' = acc /\ IsDir (info_of e) = true /\ selected recursive dirPath path e = []
    | Some (Failure _) => True
    end.
Proof.
  induction e as [name|name listing entries IH] using Entry_tree_ind;
    intros path acc w r acc' w' H.
  - simpl in H. apply walkFunc_spec in H as [-> H]. split; [done|].
    simpl in *. destruct r as [[|msg]|]; try done.
    + by destruct H.
    + destruct H as [_ H]. destruct (isMarkdown name).
      * destruct H as (f & -> & Hp & _). rewrite fmap_app. simpl. by rewrite Hp.
      * subst. by rewrite app_nil_r.
  - simpl in H. unfold bind at 1 in H.
    destruct (walkFunc env dirPath backupBaseDir recursive path
                (mkFileInfo name true) listing acc w) as [[err1 acc1] w1] eqn:Hfn.
    apply walkFunc_spec in Hfn as [-> Hfn]. simpl in Hfn.
    destruct err1 as [[|msg]|].
    + (* the callback skips this directory *)
      destruct Hfn as (_ & Hskip & ->).
      assert (r = Some SkipDir /\ acc' = acc /\ w' = w) as (-> & -> & ->)
        by (destruct listing; run; by inversion H).
      repeat split. simpl. by rewrite Hskip.
    + assert (r = Some (Failure msg) /\ w' = w) as (-> & ->)
        by (destruct listing; run; by inversion H).
      done.
    + destruct Hfn as (-> & -> & Hgo). simpl. rewrite Hgo. clear Hgo.
      assert (Hloop : forall acc w r acc' w',
                 walkNames (walk (walkFunc env dirPath backupBaseDir recursive))
                           path entries acc w = ((r, acc'), w') ->
                 w' = w /\
                 match r with
                 | None =>
                     Path <$> acc'
                     = (Path <$> acc)
                       ++ flat_map (fun child =>
                                      selected recursive dirPath
                                        (filepath.Join [path; Name (info_of child)]) child)
                                   entries
                 | Some SkipDir => False
                 | Some (Failure _) => True
                 end).
      { clear H. induction IH as [|child entries Hchild _ IHentries];
          intros acc0 w0 r0 acc0' w0' H.
        - run. inversion H; subst. split; [done|]. by rewrite app_nil_r.
        - simpl in H. unfold bind at 1 in H.
          destruct (walk (walkFunc env dirPath backupBaseDir recursive)
                      (filepath.Join [path; Name (info_of child)]) child acc0 w0)
            as [[err acc2] w2] eqn:Hwalk.
          apply Hchild in Hwalk as [-> Hres].
          destruct err as [[|msg]|].
          + destruct Hres as (-> & Hdir & Hnone). rewrite Hdir in H. simpl in H.
            apply IHentries in H as [-> H]. split; [done|].
            destruct r0 as [[|msg]|]; try done. simpl. by rewrite Hnone.
          + replace (negb (IsDir (info_of child)) || negb (is_SkipDir (Failure msg)))
              with true in H by (by destruct (IsDir (info_of child))).
            run. by inversion H; subst.
          + apply IHentries in H as [-> H]. split; [done|].
            destruct r0 as [[|msg]|]; try done.
            simpl. by rewrite H, Hres, <- app_assoc. }
      apply Hloop in H as [-> H]. split; [done|]. by destruct r as [[|msg]|].
Qed.

Lemma selected_recursive dirPath e :
  forall path, selected true dirPath path e = allMarkdown path e.
Proof.
  induction e as [name|name listing entries IH] using Entry_tree_ind; intros path; [done|].
  simpl. induction IH as [|child entries Hchild _ IHentries]; [done|].
  simpl. by rewrite Hchild, IHentries.
Qed.

Lemma selected_top_level dirPath entries :
  (forall child, child ∈ entries -> IsDir (info_of child) = true ->
                 filepath.Join [dirPath; Name (info_of child)] <> dirPath) ->
  flat_map (fun child =>
              selected false dirPath (filepath.Join [dirPath; Name (info_of child)]) child)
           entries
  = topLevelMarkdown dirPath entries.
Proof.
  induction entries as [|child entries IH]; intros Hne; [done|].
  simpl. rewrite IH by (intros c Hc; apply Hne; by apply elem_of_cons; right).
  f_equal. destruct child as [name|name listing sub]; [done|].
  simpl. destruct (String.eqb_spec (filepath.Join [dirPath; name]) dirPath) as [Heq|]; [|done].
  exfalso. eapply Hne; [by apply elem_of_cons; left|done|exact Heq].
Qed.

(** With a working directory to resolve paths against, preparing a file
    that can be read succeeds. *)
Lemma prepareFileForProcessing_succeeds env filePath backupBaseDir w :
  (Getwd env).2 = None ->
  is_Some (files w !! filePath) ->
  exists f, prepareFileForProcessing env filePath backupBaseDir w = ((f, None), w).
Proof.
  intros Hwd [content Hread]. unfold prepareFileForProcessing. run. rewrite Hread. simpl.
  destruct (Getwd env) as [workDir e0] eqn:Hg. simpl in Hwd. subst e0.
  unfold filepath.Abs. destruct (filepath.IsAbs filePath), (filepath.IsAbs workDir); eauto.
Qed.

(** A collectable tree is walked without failure. *)
Lemma walk_succeeds env dirPath backupBaseDir recursive e :
  forall path acc w,
    (Getwd env).2 = None ->
    collectable (files w) recursive dirPath path e = true ->
    exists r acc',
      walk (walkFunc env dirPath backupBaseDir recursive) path e acc w = ((r, acc'), w)
      /\ (r = None \/ r = Some SkipDir).
Proof.
  induction e as [name|name listing entries IH] using Entry_tree_ind;
    intros path acc w Hwd Hok.
  - simpl in *. unfold walkFunc. simpl. destruct (isMarkdown name); simpl.
    + apply bool_decide_eq_true in Hok.
      destruct (prepareFileForProcessing_succeeds env path backupBaseDir w Hwd Hok)
        as [f Hf].
      unfold bind. rewrite Hf. run. eauto.
    + run. eauto.
  - simpl in Hok. destruct listing as [e|]; [done|].
    simpl. unfold bind at 1. unfold walkFunc at 1. simpl.
    destruct (negb recursive && negb (String.eqb path dirPath)) eqn:Hskip.
    + run. eauto.
    + run. clear Hskip. revert acc.
      induction IH as [|child entries Hchild _ IHentries]; intros acc.
      * run. eauto.
      * simpl in Hok. apply andb_true_iff in Hok as [Hc Hrest].
        simpl. unfold bind at 1.
        destruct (Hchild (filepath.Join [path; Name (info_of child)]) acc w Hwd Hc)
          as (r & acc1 & Hwalk & Hr).
        rewrite Hwalk. destruct Hr as [->| ->].
        -- by apply IHentries.
        -- destruct (walk_selected _ _ _ _ _ _ _ _ _ _ _ Hwalk) as (_ & _ & Hdir & _).
           rewrite Hdir. simpl. by apply IHentries.
Qed.

(** C8.  For a directory whose entries have proper names and whose
    selected files can be collected, [collectFilesFromDir] leaves the world
    as it is and returns, without error, one task per selected file in the
    order of the walk: with [recursive = false] exactly the matching files
    directly in the directory, and with [recursive = true] the matching
    files of the whole tree. *)
Theorem collectFilesFromDir_selects env dirPath backupBaseDir name entries recursive w :
  Stat env dirPath = (Directory name None entries, None) ->
  (Getwd env).2 = None ->
  Forall (fun child => properName (Name (info_of child)) = true) entries ->
  collectable (files w) recursive dirPath dirPath (Directory name None entries) = true ->
  exists filesToProcess,
    collectFilesFromDir env dirPath backupBaseDir recursive w = ((filesToProcess, None), w) /\
    Path <$> filesToProcess
    = if recursive then allMarkdown dirPath (Directory name None entries)
      else topLevelMarkdown dirPath entries.
Proof.
  intros Hstat Hwd Hnames Hok.
  assert (Hne : forall child, child ∈ entries -> IsDir (info_of child) = true ->
                  filepath.Join [dirPath; Name (info_of child)] <> dirPath).
  { intros child Hin _. rewrite Forall_forall in Hnames.
    specialize (Hnames child Hin). unfold properName in Hnames.
    apply andb_true_iff in Hnames as [Hp Hs]. by apply Join_child_differs. }
  destruct (walk_succeeds env dirPath backupBaseDir recursive _ dirPath [] w Hwd Hok)
    as (r & acc & Hwalk & Hr).
  pose proof (walk_selected _ _ _ _ _ _ _ _ _ _ _ Hwalk) as [_ Hsel].
  exists acc. split.
  - unfold collectFilesFromDir, Walk. rewrite Hstat. unfold bind. rewrite Hwalk.
    destruct Hr as [->| ->]; by run.
  - assert (Hpaths : Path <$> acc
                     = selected recursive dirPath dirPath (Directory name None entries)).
    { destruct Hr as [->| ->]; [done|]. destruct Hsel as (-> & _ & ->). done. }
    rewrite Hpaths. destruct recursive.
    + apply selected_recursive.
    + simpl. rewrite String.eqb_refl. simpl. by apply selected_top_level.
Qed.

Lemma collectFilesFromDir_selects_witness :
  let env := sampleEnv notesStat (fun _ => None) (fun _ _ => WriteCompletes) answers in
  exists filesToProcess,
    collectFilesFromDir env "notes" "/w/backup" false notesWorld
    = ((filesToProcess, None), notesWorld) /\
    Path <$> filesToProcess
    = ["notes/a.md"; "notes/b.MD"; "notes/c.md"; "notes/e.md"; "notes/f.md"].
Proof.
  intros env.
  refine (collectFilesFromDir_selects env "notes" "/w/backup" "notes"
            [File "a.md"; File "b.MD"; File "c.md"; File "d.txt"; File "e.md";
             File "f.md"; File "img.png"; Directory "sub" None [File "g.md"]]
            false notesWorld _ _ _ _).
  - reflexivity.
  - reflexivity.
  - repeat constructor.
  - vm_compute. reflexivity.
Defined.

(** The same directory collected recursively: the nested file is included. *)
Example collectFilesFromDir_recursive :
  let env := sampleEnv notesStat (fun _ => None) (fun _ _ => WriteCompletes) answers in
  let '((filesToProcess, err), _) :=
    collectFilesFromDir env "notes" "/w/backup" true notesWorld in
  (err, map (fun f => (Path f, BackupPath f)) filesToProcess)
  = (None,
     [("notes/a.md", "/w/backup/notes/a.md.bak"); ("notes/b.MD", "/w/backup/notes/b.MD.bak");
      ("notes/c.md", "/w/backup/notes/c.md.bak"); ("notes/e.md", "/w/backup/notes/e.md.bak");
      ("notes/f.md", "/w/backup/notes/f.md.bak");
      ("notes/sub/g.md", "/w/backup/notes/sub/g.md.bak")]).
Proof. vm_compute. reflexivity. Qed.

(** ** Nothing to process *)

(** Collecting looks at the files only, not at the rest of the world. *)
Lemma prepareFileForProcessing_files env filePath backupBaseDir w0 w :
  files w0 = files w ->
  (prepareFileForProcessing env filePath backupBaseDir w0).1
  = (prepareFileForProcessing env filePath backupBaseDir w).1.
Proof.
  intros Hf. unfold prepareFileForProcessing. run. rewrite Hf.
  destruct (files w !! filePath); simpl; [|done].
  destruct (filepath.Abs (Getwd env) filePath) as [absFilePath [e|]];
    destruct (Getwd env) as [workDir e0]; simpl;
    destruct (filepath.Abs (workDir, e0) workDir) as [absWorkDir e1]; done.
Qed.

Lemma walkFunc_files env dirPath backupBaseDir recursive path info err acc w0 w :
  files w0 = files w ->
  (walkFunc env dirPath backupBaseDir recursive path info err acc w0).1
  = (walkFunc env dirPath backupBaseDir recursive path info err acc w).1.
Proof.
  intros Hf. unfold walkFunc. destruct err; [done|].
  destruct (IsDir info).
  - by destruct (negb recursive && negb (String.eqb path dirPath)).
  - destruct (negb (isMarkdown (Name info))); [done|]. unfold bind.
    pose proof (prepareFileForProcessing_files env path backupBaseDir w0 w Hf) as Hp.
    destruct (prepareFileForProcessing env path backupBaseDir w0) as [[f0 e0] w0'].
    destruct (prepareFileForProcessing env path backupBaseDir w) as [[f e] w'].
    simpl in Hp. inversion Hp; subst. by destruct e.
Qed.

Lemma walk_files env dirPath backupBaseDir recursive e :
  forall path acc w0 w,
    files w0 = files w ->
    (walk (walkFunc env dirPath backupBaseDir recursive) path e acc w0).1
    = (walk (walkFunc env dirPath backupBaseDir recursive) path e acc w).1.
Proof.
  induction e as [name|name listing entries IH] using Entry_tree_ind;
    intros path acc w0 w Hf.
  - simpl. by apply walkFunc_files.
  - simpl. unfold bind.
    pose proof (walkFunc_files env dirPath backupBaseDir recursive path
                  (mkFileInfo name true) listing acc w0 w Hf) as Hfn.
    destruct (walkFunc _ _ _ _ _ _ _ _ w0) as [[r0 acc0] w0'] eqn:H0.
    destruct (walkFunc _ _ _ _ _ _ _ _ w) as [[r acc1] w'] eqn:H1.
    apply walkFunc_spec in H0 as [-> _]. apply walkFunc_spec in H1 as [-> _].
    simpl in Hfn. inversion Hfn; subst.
    destruct listing; [done|]. destruct r; [done|].
    clear Hfn. revert acc1.
    induction IH as [|child entries Hchild _ IHentries]; intros acc1; [done|].
    simpl. unfold bind.
    pose proof (Hchild (filepath.Join [path; Name (info_of child)]) acc1 w0 w Hf) as Hc.
    destruct (walk _ _ child acc1 w0) as [[e0 a0] w0'] eqn:H0.
    destruct (walk _ _ child acc1 w) as [[e1 a1] w'] eqn:H1.
    apply walk_selected in H0 as [-> _]. apply walk_selected in H1 as [-> _].
    simpl in Hc. inversion Hc; subst.
    destruct e1 as [we|]; [|apply IHentries].
    destruct (negb (IsDir (info_of child)) || negb (is_SkipDir we)); [done|].
    apply IHentries.
Qed.

(** Collecting never changes the world, and its result is decided by the
    files. *)
Lemma collectFilesFromDir_reads env dirPath backupBaseDir recursive w0 w :
  (collectFilesFromDir env dirPath backupBaseDir recursive w).2 = w /\
  (files w0 = files w ->
   (collectFilesFromDir env dirPath backupBaseDir recursive w0).1
   = (collectFilesFromDir env dirPath backupBaseDir recursive w).1).
Proof.
  unfold collectFilesFromDir, Walk.
  destruct (Stat env dirPath) as [entry [e|]].
  - split; [done|]. intros _. done.
  - split.
    + unfold bind.
      destruct (walk _ dirPath entry [] w) as [[r acc] w'] eqn:Hw.
      apply walk_selected in Hw as [-> _]. by destruct r as [[|msg]|].
    + intros Hf. unfold bind.
      pose proof (walk_files env dirPath backupBaseDir recursive entry dirPath [] w0 w Hf)
        as Heq.
      destruct (walk _ dirPath entry [] w0) as [[r0 acc0] w0'].
      destruct (walk _ dirPath entry [] w) as [[r acc] w'].
      simpl in Heq. inversion Heq; subst. by destruct r as [[|msg]|].
Qed.

(** C10.  When the argument is a regular file whose name, the last element
    of the path (what [filepath.Base] returns, see [isMarkdown_Base]), does
    not end in [.md] once lowered, or a directory in which no file is
    collected, [main] only prints and exits with code 0: the files are as
    before, and no directory is created, no file written, no request
    sent. *)
Theorem nothing_to_process_exits_zero env path rest recursive w workDir entry :
  Getwd env = (workDir, None) ->
  Stat env path = (entry, None) ->
  (IsDir (info_of entry) = false /\
   exists es name, filepath.elements path = es ++ [name] /\ name <> "" /\
                   isMarkdown name = false)
  \/ (IsDir (info_of entry) = true /\
      (collectFilesFromDir env path (filepath.Join [workDir; BackupDirName]) recursive w).1
      = ([], None)) ->
  exists t,
    main env (path :: rest) recursive w
    = (Exit 0, mkWorld (files w) (trace w ++ t) (calls w) (draws w)) /\
    Forall (fun e => exists line, e = EvPrint line) t.
Proof.
  intros Hwd Hstat Hcase. unfold main. rewrite Hwd, Hstat.
  destruct Hcase as [(Hfile & es & name & Hname & _ & Hmd)|[Hdir Hnone]].
  - assert (Hsuffix : strings.HasSuffix (strings.ToLower path) ".md" = false).
    { change (isMarkdown path = false).
      by rewrite (isMarkdown_last path es name Hname). }
    rewrite Hfile, Hsuffix. run. eexists [_]. split; [done|]. repeat constructor. eauto.
  - rewrite Hdir. unfold bind at 1. unfold bind at 1.
    destruct (Println ("Collecting markdown files from directory: " +:+ path) w)
      as [[] w0] eqn:Hp.
    assert (Hw0 : w0 = mkWorld (files w)
                         (trace w ++ [EvPrint ("Collecting markdown files from directory: "
                                               +:+ path)])
                         (calls w) (draws w)) by (run; by inversion Hp).
    unfold bind at 1.
    destruct (collectFilesFromDir_reads env path (filepath.Join [workDir; BackupDirName])
                recursive w0 w) as [_ Hsame].
    destruct (collectFilesFromDir_reads env path (filepath.Join [workDir; BackupDirName])
                recursive w0 w0) as [Hw _].
    destruct (collectFilesFromDir env path _ recursive w0) as [[fs err] w1].
    simpl in Hw. subst w1.
    rewrite Hnone in Hsame. simpl in Hsame.
    assert (Hres : (fs, err) = ([], None)) by (apply Hsame; by subst w0).
    inversion Hres; subst fs err. subst w0. run.
    eexists [_; _; _]. rewrite <- !app_assoc. split; [done|].
    repeat constructor; eauto.
Qed.

Lemma nothing_to_process_exits_zero_witness :
  let env := sampleEnv plainStat (fun _ => None) (fun _ _ => WriteCompletes) answers in
  exists t,
    main env ["README.TXT"] false plainWorld
    = (Exit 0, mkWorld (files plainWorld) (trace plainWorld ++ t)
                       (calls plainWorld) (draws plainWorld)) /\
    Forall (fun e => exists line, e = EvPrint line) t.
Proof.
  intros env.
  refine (nothing_to_process_exits_zero env "README.TXT" [] false plainWorld "/w"
            (File "README.TXT") _ _ _).
  - reflexivity.
  - reflexivity.
  - left. split; [reflexivity|]. exists [], "README.TXT". by repeat split.
Defined.

(** A directory whose only Markdown file is nested, not recursive: exit
    code 0 after two lines of output and nothing else. *)
Example empty_directory_exits_zero :
  let env := sampleEnv plainStat (fun _ => None) (fun _ _ => WriteCompletes) answers in
  let '(out, w') := main env ["docs"] false plainWorld in
  (out, map (fun p => files w' !! p) ["docs/x.txt"; "docs/sub/y.md"; "/w/backup/sub/y.md.bak"],
   calls w', trace w')
  = (Exit 0, [Some "x"; Some "y"; None], 0%nat,
     [EvPrint "Collecting markdown files from directory: docs";
      EvPrint "Found 0 markdown files to process";
      EvPrint "No markdown files found to process."]).
Proof. vm_compute. reflexivity. Qed.

(** ** What [main] hands to the backup phase *)

Lemma Join_last d n :
  properName n = true -> exists pre, filepath.Join [d; n] = pre +:+ n.
Proof.
  unfold properName. intros H. apply andb_true_iff in H as [Hp Hs].
  assert (Hne : String.eqb n "" = false).
  { unfold proper in Hp. apply andb_true_iff in Hp as [Hp _].
    apply andb_true_iff in Hp as [Hp _]. by apply negb_true_iff in Hp. }
  unfold filepath.Join. destruct (String.eqb d "").
  - rewrite Hne. simpl. apply (Clean_last n [] n); [by apply elements_noSeparator|done].
  - change (strings.Join [d; n] "/") with (d +:+ "/" +:+ n).
    apply (Clean_last _ (filepath.elements d) n); [|done].
    by rewrite elements_separator, (elements_noSeparator n Hs).
Qed.

#[local] Arguments prepareFileForProcessing : simpl never.
#[local] Arguments backupThenProcess : simpl never.

(** The tasks the walk collects are prepared tasks. *)
Lemma walk_prepared env dirPath backupBaseDir recursive e :
  forall path acc w r acc' w',
    (IsDir (info_of e) = false -> exists pre, path = pre +:+ Name (info_of e)) ->
    properBelow e = true ->
    Forall (preparedTask (files w)) acc ->
    walk (walkFunc env dirPath backupBaseDir recursive) path e acc w = ((r, acc'), w') ->
    Forall (preparedTask (files w)) acc'.
Proof.
  induction e as [name|name listing entries IH] using Entry_tree_ind;
    intros path acc w r acc' w' Hpath Hwf Hacc H.
  - destruct (Hpath eq_refl) as [pre Hpre]. clear Hpath. simpl in H, Hpre. unfold walkFunc in H. simpl in H.
    destruct (isMarkdown name) eqn:Hmd; simpl in H.
    + unfold bind at 1 in H.
      destruct (prepareFileForProcessing env path backupBaseDir w) as [[f [e|]] w1] eqn:Hprep.
      * run. by inversion H; subst.
      * pose proof (prepared_backup_not_markdown _ _ _ _ _ _ Hprep) as Hbak.
        apply prepareFileForProcessing_reads in Hprep as [-> Hf].
        destruct (Hf eq_refl) as [Hp Hc].
        run. inversion H; subst. apply Forall_app. split; [done|].
        constructor; [|done]. unfold preparedTask. rewrite Hp.
        split; [|done]. by apply isMarkdown_append.
    + run. by inversion H; subst.
  - simpl in H. unfold bind at 1 in H.
    destruct (walkFunc env dirPath backupBaseDir recursive path
                (mkFileInfo name true) listing acc w) as [[err1 acc1] w1] eqn:Hfn.
    apply walkFunc_spec in Hfn as [-> Hfn]. simpl in Hfn.
    assert (Hacc1 : acc1 = acc).
    { destruct err1 as [[|msg]|]; [by destruct Hfn as (_ & _ & ->)|done|].
      by destruct Hfn as (_ & -> & _). }
    subst acc1.
    destruct listing as [e|]; [run; by inversion H; subst|].
    destruct err1 as [we|]; [run; by inversion H; subst|].
    simpl in Hwf. clear Hfn. revert acc Hacc H.
    induction IH as [|child entries Hchild _ IHentries]; intros acc Hacc H.
    + run. by inversion H; subst.
    + simpl in Hwf. apply andb_true_iff in Hwf as [Hc Hrest].
      apply andb_true_iff in Hc as [Hname Hbelow].
      simpl in H. unfold bind at 1 in H.
      destruct (walk (walkFunc env dirPath backupBaseDir recursive)
                  (filepath.Join [path; Name (info_of child)]) child acc w)
        as [[err acc2] w2] eqn:Hwalk.
      pose proof (walk_selected _ _ _ _ _ _ _ _ _ _ _ Hwalk) as [-> _].
      apply Hchild in Hwalk; [|by intros _; apply Join_last|done|done].
      destruct err as [we|]; [|by apply IHentries in H].
      destruct (negb (IsDir (info_of child)) || negb (is_SkipDir we)).
      * run. by inversion H; subst.
      * by apply IHentries in H.
Qed.

(** [main] either exits after printing only, or goes on to the backup
    phase with a non-empty batch of prepared tasks, having changed no
    file. *)
Lemma main_hands_over_prepared_tasks env args recursive w :
  (forall path entry, Stat env path = (entry, None) -> properBelow entry = true) ->
  exists t,
    Forall (fun e => exists line, e = EvPrint line) t /\
    let w0 := mkWorld (files w) (trace w ++ t) (calls w) (draws w) in
    (exists code, main env args recursive w = (Exit code, w0))
    \/ (exists fs, fs <> [] /\ Forall (preparedTask (files w)) fs /\
                   main env args recursive w = backupThenProcess env fs w0).
Proof.
  intros Hwf. unfold main.
  destruct args as [|path rest].
  { run. eexists [_]. split; [repeat constructor; eauto|]. left. eauto. }
  destruct (Getwd env) as [workDir [e|]] eqn:Hwd.
  { run. eexists [_]. split; [repeat constructor; eauto|]. left. eauto. }
  destruct (Stat env path) as [fileInfo [e|]] eqn:Hstat.
  { run. eexists [_]. split; [repeat constructor; eauto|]. left. eauto. }
  specialize (Hwf path fileInfo Hstat).
  set (backupDir := filepath.Join [workDir; BackupDirName]).
  destruct (IsDir (info_of fileInfo)) eqn:Hdir.
  - (* a directory *)
    unfold collectFilesFromDir, Walk. rewrite Hstat. unfold bind.
    destruct (Println ("Collecting markdown files from directory: " +:+ path) w)
      as [[] w1] eqn:Hp.
    assert (Hw1 : w1 = mkWorld (files w)
                         (trace w ++ [EvPrint ("Collecting markdown files from directory: "
                                               +:+ path)])
                         (calls w) (draws w)) by (run; by inversion Hp).
    destruct (walk (walkFunc env path backupDir recursive) path fileInfo [] w1)
      as [[r fs] w2] eqn:Hwalk.
    pose proof (walk_selected _ _ _ _ _ _ _ _ _ _ _ Hwalk) as [-> _].
    assert (Hfs : Forall (preparedTask (files w)) fs).
    { replace (files w) with (files w1) by (by subst w1).
      eapply walk_prepared; [| |constructor|exact Hwalk]; [|done].
      intros Hfalse. congruence. }
    destruct r as [[|msg]|].
    + (* nothing collected from the root *)
      run. destruct fs as [|f fs]; simpl; subst w1; simpl.
      * eexists [_; _; _]. rewrite <- !app_assoc. split; [repeat constructor; eauto|].
        left. eauto.
      * eexists [_; _]. rewrite <- !app_assoc. split; [repeat constructor; eauto|].
        right. exists (f :: fs). by repeat split.
    + run. subst w1. simpl. eexists [_; _]. rewrite <- !app_assoc.
      split; [repeat constructor; eauto|]. left. eauto.
    + run. destruct fs as [|f fs]; simpl; subst w1; simpl.
      * eexists [_; _; _]. rewrite <- !app_assoc. split; [repeat constructor; eauto|].
        left. eauto.
      * eexists [_; _]. rewrite <- !app_assoc. split; [repeat constructor; eauto|].
        right. exists (f :: fs). by repeat split.
  - (* a single file *)
    destruct (strings.HasSuffix (strings.ToLower path) ".md") eqn:Hmd; simpl.
    + unfold bind.
      destruct (prepareFileForProcessing env path backupDir w) as [[f [e|]] w1] eqn:Hprep.
      * apply prepareFileForProcessing_reads in Hprep as [-> _]. run.
        eexists [_]. split; [repeat constructor; eauto|]. left. eauto.
      * pose proof (prepared_backup_not_markdown _ _ _ _ _ _ Hprep) as Hbak.
        apply prepareFileForProcessing_reads in Hprep as [-> Hf].
        destruct (Hf eq_refl) as [Hp Hc]. run.
        exists []. rewrite app_nil_r. split; [constructor|]. right.
        exists [f]. split; [done|]. split; [|by destruct w].
        constructor; [|done]. unfold preparedTask. rewrite Hp. by repeat split.
    + run. eexists [_]. split; [repeat constructor; eauto|]. left. eauto.
Qed.

(** The backup loop changes backup destinations only, whether it succeeds
    or fails. *)
Lemma backupFrom_other env total fs i w err w' p :
  backupFrom env total i fs w = (err, w') ->
  p ∉ BackupPath <$> fs -> files w' !! p = files w !! p.
Proof.
  intros H Hp. apply backupFrom_spec in H as (_ & _ & _ & Hfin).
  destruct err as [m|].
  - destruct Hfin as (pre & f & post & e & Hfs & _ & Hrest).
    rewrite Hfs, fmap_app in Hp. apply not_elem_of_app in Hp as [Hpre Hpost].
    apply not_elem_of_cons in Hpost as [Hne _].
    rewrite Hrest by done. by apply backedUp_other.
  - rewrite Hfin. by apply backedUp_other.
Qed.

(** Up to the point where the workers are started, [main] changes no
    Markdown file: whatever it writes, it writes to a path ending in
    [.bak]. *)
Lemma main_keeps_originals env args recursive w p :
  (forall path entry, Stat env path = (entry, None) -> properBelow entry = true) ->
  isMarkdown p = true ->
  files (main env args recursive w).2 !! p = files w !! p.
Proof.
  intros Hwf Hmd.
  destruct (main_hands_over_prepared_tasks env args recursive w Hwf)
    as (t & _ & [[code Hexit]|(fs & _ & Hfs & Hrun)]).
  - by rewrite Hexit.
  - rewrite Hrun. unfold backupThenProcess, backupAllFiles, bind.
    destruct (Println "=== Creating Backups ===" _) as [[] w1] eqn:Hp1.
    assert (Hw1 : files w1 = files w) by (run; by inversion Hp1).
    destruct (backupFrom env (length fs) 0 fs w1) as [err w2] eqn:Hb.
    assert (Hw2 : files w2 !! p = files w !! p).
    { rewrite <- Hw1. eapply backupFrom_other; [exact Hb|].
      intros Hin. apply list_elem_of_fmap in Hin as (f & -> & Hf).
      rewrite Forall_forall in Hfs. destruct (Hfs f Hf) as (_ & Hbak & _). congruence. }
    destruct err; by run.
Qed.

(** ** The worker goroutines and the semaphore *)

Lemma sum_list_with_insert {A} (f : A -> nat) (l : list A) :
  forall i a b,
    l !! i = Some a ->
    (sum_list_with f (<[i := b]> l) + f a = sum_list_with f l + f b)%nat.
Proof.
  induction l as [|x l IH]; intros [|i] a b Hi; simpl in *; try done.
  - inversion Hi; subst. lia.
  - specialize (IH i a b Hi). lia.
Qed.

Lemma initial_invariant fs w : schedulerInvariant (start fs w).
Proof. unfold schedulerInvariant, start, countWorkers, MaxConcurrent. simpl. repeat split; try lia; done. Qed.

(** A goroutine moving from [g] to [g'] changes each count by the
    difference of the two states. *)
Lemma countWorkers_move p i fi g g' r w sem bar ls n :
  workers r !! i = Some (fi, g) ->
  (countWorkers p (mkRun w sem bar ls n (toSpawn r) (setWorker i fi g' r) (finished r))
   + Nat.b2n (p g)
   = countWorkers p r + Nat.b2n (p g'))%nat.
Proof.
  intros Hi. unfold countWorkers, setWorker. simpl.
  apply (sum_list_with_insert (fun fg : FileToProcess * Goroutine => Nat.b2n (p fg.2))
           (workers r) i (fi, g) (fi, g') Hi).
Qed.

Lemma stepMain_invariant r r' :
  schedulerInvariant r -> stepMain r = Some r' -> schedulerInvariant r'.
Proof.
  intros (Hcap & Hlen & Hle & Hwg & Hfin) H. unfold stepMain in H.
  destruct (toSpawn r) as [|fi rest] eqn:Hspawn.
  - destruct ((wg r =? 0)%Z && negb (finished r)) eqn:Hready; [|done].
    apply andb_true_iff in Hready as [Hzero _]. apply Z.eqb_eq in Hzero.
    inversion H; subst. unfold schedulerInvariant, countWorkers in *. simpl.
    repeat split; try done.
  - inversion H; subst. unfold schedulerInvariant, countWorkers in *. simpl.
    rewrite !sum_list_with_app. simpl.
    repeat split; try lia; exfalso;
      match goal with
      | Hf : finished r = true |- _ => apply Hfin in Hf as [Hnil _]; discriminate
      end.
Qed.

Lemma stepWorker_invariant env i r r' :
  schedulerInvariant r -> stepWorker env i r = Some r' -> schedulerInvariant r'.
Proof.
  intros (Hcap & Hlen & Hle & Hwg & Hfin) H. unfold stepWorker in H.
  destruct (workers r !! i) as [[fi g]|] eqn:Hi; [|done].
  destruct g as [| |ok| | |].
  - (* Acquire *)
    unfold Acquire in H. destruct (len (apiSemaphore r) <? cap (apiSemaphore r))%nat eqn:Hroom;
      [|done].
    apply Nat.ltb_lt in Hroom. inversion H; subst; clear H.
    pose proof (countWorkers_move holds i fi Spawned Acquired r (world r)
                  (mkApiSemaphore (cap (apiSemaphore r)) (S (len (apiSemaphore r))))
                  (statusBar r) (lines r) (wg r) Hi) as Hh.
    pose proof (countWorkers_move (fun g => negb (isDone g)) i fi Spawned Acquired r (world r)
                  (mkApiSemaphore (cap (apiSemaphore r)) (S (len (apiSemaphore r))))
                  (statusBar r) (lines r) (wg r) Hi) as Hn.
    unfold schedulerInvariant. simpl in *. repeat split; try lia; by apply Hfin.
  - (* processFileContent *)
    destruct (processFileContent env fi (world r)) as [ok w'].
    inversion H; subst; clear H.
    pose proof (countWorkers_move holds i fi Acquired (Processed ok) r w'
                  (apiSemaphore r) (statusBar r) (lines r) (wg r) Hi) as Hh.
    pose proof (countWorkers_move (fun g => negb (isDone g)) i fi Acquired (Processed ok) r w'
                  (apiSemaphore r) (statusBar r) (lines r) (wg r) Hi) as Hn.
    unfold schedulerInvariant. simpl in *. repeat split; try lia; by apply Hfin.
  - (* the status bar *)
    destruct (if ok then IncrementSuccess (statusBar r) else IncrementFailed (statusBar r))
      as [bar line].
    inversion H; subst; clear H.
    pose proof (countWorkers_move holds i fi (Processed ok) Reported r (world r)
                  (apiSemaphore r) bar (lines r ++ [line]) (wg r) Hi) as Hh.
    pose proof (countWorkers_move (fun g => negb (isDone g)) i fi (Processed ok) Reported r
                  (world r) (apiSemaphore r) bar (lines r ++ [line]) (wg r) Hi) as Hn.
    unfold schedulerInvariant. simpl in *. repeat split; try lia; by apply Hfin.
  - (* Release *)
    unfold Release in H. destruct (len (apiSemaphore r)) as [|n] eqn:Hn0; [done|].
    inversion H; subst; clear H.
    pose proof (countWorkers_move holds i fi Reported Released r (world r)
                  (mkApiSemaphore (cap (apiSemaphore r)) n)
                  (statusBar r) (lines r) (wg r) Hi) as Hh.
    pose proof (countWorkers_move (fun g => negb (isDone g)) i fi Reported Released r (world r)
                  (mkApiSemaphore (cap (apiSemaphore r)) n)
                  (statusBar r) (lines r) (wg r) Hi) as Hn.
    unfold schedulerInvariant. simpl in *. repeat split; try lia; by apply Hfin.
  - (* wg.Done *)
    inversion H; subst; clear H.
    pose proof (countWorkers_move holds i fi Released Done r (world r)
                  (apiSemaphore r) (statusBar r) (lines r) (wg r - 1) Hi) as Hh.
    pose proof (countWorkers_move (fun g => negb (isDone g)) i fi Released Done r (world r)
                  (apiSemaphore r) (statusBar r) (lines r) (wg r - 1) Hi) as Hn.
    unfold schedulerInvariant. simpl in *. repeat split; try lia.
    + by apply Hfin.
    + match goal with
      | Hf : finished r = true |- _ => apply Hfin in Hf as [_ Hz]
      end.
      lia.
  - done.
Qed.

Lemma step_invariant env c r r' :
  schedulerInvariant r -> step env c r = Some r' -> schedulerInvariant r'.
Proof.
  destruct c as [|i]; simpl; [apply stepMain_invariant|apply stepWorker_invariant].
Qed.

(** The tasks of a run are never changed by a step. *)
Lemma step_tasks env c r r' : step env c r = Some r' -> tasks r' = tasks r.
Proof.
  unfold tasks. destruct c as [|i]; simpl; intros H.
  - unfold stepMain in H. destruct (toSpawn r) as [|fi rest] eqn:Hs.
    + destruct ((wg r =? 0)%Z && negb (finished r)); [|done].
      by inversion H; subst.
    + inversion H; subst. simpl. by rewrite fmap_app, <- app_assoc.
  - unfold stepWorker in H.
    destruct (workers r !! i) as [[fi g]|] eqn:Hi; [|done].
    assert (Hsame : forall g', (setWorker i fi g' r).*1 = (workers r).*1).
    { intros g'. unfold setWorker. rewrite list_fmap_insert. simpl.
      apply list_insert_id. by rewrite list_lookup_fmap, Hi. }
    destruct g as [| |ok| | |]; try done.
    + destruct (Acquire (apiSemaphore r)); [|done]. inversion H; subst. simpl.
      by rewrite Hsame.
    + destruct (processFileContent env fi (world r)). inversion H; subst. simpl.
      by rewrite Hsame.
    + destruct (if ok then _ else _). inversion H; subst. simpl. by rewrite Hsame.
    + destruct (Release (apiSemaphore r)); [|done]. inversion H; subst. simpl.
      by rewrite Hsame.
    + inversion H; subst. simpl. by rewrite Hsame.
Qed.

(** Every step brings the run one step closer to its end. *)
Lemma step_stepsToGo env c r r' :
  step env c r = Some r' -> stepsToGo r = S (stepsToGo r').
Proof.
  unfold stepsToGo. destruct c as [|i]; simpl; intros H.
  - unfold stepMain in H. destruct (toSpawn r) as [|fi rest] eqn:Hs.
    + destruct ((wg r =? 0)%Z && negb (finished r)) eqn:Hready; [|done].
      apply andb_true_iff in Hready as [_ Hnf]. apply negb_true_iff in Hnf.
      inversion H; subst. simpl. rewrite Hnf. lia.
    + inversion H; subst. simpl. rewrite sum_list_with_app. simpl. lia.
  - unfold stepWorker in H.
    destruct (workers r !! i) as [[fi g]|] eqn:Hi; [|done].
    assert (Hmove : forall g',
               (sum_list_with (fun fg : FileToProcess * Goroutine => stepsLeft fg.2)
                              (setWorker i fi g' r) + stepsLeft g
                = sum_list_with (fun fg : FileToProcess * Goroutine => stepsLeft fg.2)
                                (workers r) + stepsLeft g')%nat).
    { intros g'. unfold setWorker.
      apply (sum_list_with_insert (fun fg : FileToProcess * Goroutine => stepsLeft fg.2)
               (workers r) i (fi, g) (fi, g') Hi). }
    destruct g as [| |ok| | |]; try done.
    + destruct (Acquire (apiSemaphore r)); [|done]. inversion H; subst. simpl.
      specialize (Hmove Acquired). simpl in Hmove. lia.
    + destruct (processFileContent env fi (world r)) as [ok w']. inversion H; subst. simpl.
      specialize (Hmove (Processed ok)). simpl in Hmove. lia.
    + destruct (if ok then _ else _). inversion H; subst. simpl.
      specialize (Hmove Reported). simpl in Hmove. lia.
    + destruct (Release (apiSemaphore r)); [|done]. inversion H; subst. simpl.
      specialize (Hmove Released). simpl in Hmove. lia.
    + inversion H; subst. simpl. specialize (Hmove Done). simpl in Hmove. lia.
Qed.

(** What holds after any schedule that could be played. *)
Lemma play_invariant env schedule :
  forall r r',
    schedulerInvariant r -> play env schedule r = Some r' ->
    schedulerInvariant r' /\ tasks r' = tasks r /\
    (length schedule + stepsToGo r' = stepsToGo r)%nat.
Proof.
  induction schedule as [|c schedule IH]; intros r r' Hinv H; simpl in H.
  - inversion H; subst. split; [done|]. split; [done|]. simpl. lia.
  - destruct (step env c r) as [r1|] eqn:Hstep; [|done].
    pose proof (step_invariant _ _ _ _ Hinv Hstep) as Hinv1.
    pose proof (step_tasks _ _ _ _ Hstep) as Ht.
    pose proof (step_stepsToGo _ _ _ _ Hstep) as Hm.
    destruct (IH r1 r' Hinv1 H) as (Hinv' & Ht' & Hm').
    split; [done|]. split; [congruence|]. simpl. lia.
Qed.

Lemma workers_cases (ws : list (FileToProcess * Goroutine)) :
  Forall (fun fg => fg.2 = Done) ws
  \/ (exists i fi g, ws !! i = Some (fi, g) /\ g <> Done /\ g <> Spawned)
  \/ (exists i fi, ws !! i = Some (fi, Spawned) /\
                   sum_list_with (fun fg : FileToProcess * Goroutine => Nat.b2n (holds fg.2)) ws
                   = 0%nat).
Proof.
  induction ws as [|[fi g] ws IH].
  - left. constructor.
  - destruct g as [| |ok| | |];
      try (right; left; exists 0%nat, fi; eexists; split; [done|]; split; discriminate).
    + (* this one waits for the semaphore *)
      destruct IH as [Hall|[(i & fi' & g & Hi & Hg)|(i & fi' & Hi & Hnone)]].
      * right. right. exists 0%nat, fi. split; [done|]. simpl.
        induction Hall as [|[fi' g'] ws' Hd _ IHall]; [done|].
        simpl in *. subst g'. simpl. apply IHall.
      * right. left. exists (S i), fi', g. done.
      * right. right. exists (S i), fi'. split; [done|]. simpl. done.
    + (* this one is done *)
      destruct IH as [Hall|[(i & fi' & g & Hi & Hg)|(i & fi' & Hi & Hnone)]].
      * left. by constructor.
      * right. left. exists (S i), fi', g. done.
      * right. right. exists (S i), fi'. split; [done|]. simpl. done.
Qed.

Lemma all_done_counts (p : Goroutine -> bool) (ws : list (FileToProcess * Goroutine)) :
  p Done = false ->
  Forall (fun fg => fg.2 = Done) ws ->
  sum_list_with (fun fg : FileToProcess * Goroutine => Nat.b2n (p fg.2)) ws = 0%nat.
Proof.
  intros Hp Hall. induction Hall as [|[fi g] ws Hd _ IH]; [done|].
  simpl in *. subst g. rewrite Hp. simpl. exact IH.
Qed.

Lemma not_done_zero (ws : list (FileToProcess * Goroutine)) :
  sum_list_with (fun fg : FileToProcess * Goroutine => Nat.b2n (negb (isDone fg.2))) ws = 0%nat ->
  Forall (fun fg => fg.2 = Done) ws.
Proof.
  induction ws as [|[fi g] ws IH]; intros H; [constructor|].
  simpl in H. destruct g; simpl in H; try lia. constructor; [done|]. apply IH. lia.
Qed.

(** A goroutine that holds a slot is never blocked: its next step is
    always enabled. *)
Lemma holder_can_step env r i fi g :
  schedulerInvariant r ->
  workers r !! i = Some (fi, g) -> g <> Done -> g <> Spawned ->
  is_Some (stepWorker env i r).
Proof.
  intros (Hcap & Hlen & Hle & Hwg & Hfin) Hi Hd Hs. unfold stepWorker. rewrite Hi.
  destruct g as [| |ok| | |]; try done.
  - by destruct (processFileContent env fi (world r)).
  - by destruct (if ok then _ else _).
  - assert (Hone : (1 <= len (apiSemaphore r))%nat).
    { rewrite Hlen. unfold countWorkers.
      apply (sum_list_with_in (fi, Reported)
               (fun fg : FileToProcess * Goroutine => Nat.b2n (holds fg.2))).
      by apply list_elem_of_lookup_2 in Hi. }
    unfold Release. destruct (len (apiSemaphore r)); [lia|done].
Qed.

(** Until [main] is past [statusBar.Finish()], some step is enabled. *)
Lemma never_stuck env r :
  schedulerInvariant r -> finished r = false -> exists c r', step env c r = Some r'.
Proof.
  intros Hinv Hnf. pose proof Hinv as (Hcap & Hlen & Hle & Hwg & Hfin).
  destruct (toSpawn r) as [|fi rest] eqn:Hs.
  - destruct (workers_cases (workers r))
      as [Hall|[(i & fi & g & Hi & Hd & Hsp)|(i & fi & Hi & Hnone)]].
    + exists ByMain. simpl. unfold stepMain. rewrite Hs, Hwg, Hnf.
      pose proof (all_done_counts (fun g => negb (isDone g)) _ eq_refl Hall) as Hzero.
      unfold countWorkers. simpl in Hzero. rewrite Hzero. simpl. eauto.
    + exists (ByWorker i). simpl.
      destruct (holder_can_step env r i fi g Hinv Hi Hd Hsp) as [r' Hr']. eauto.
    + exists (ByWorker i). simpl. unfold stepWorker. rewrite Hi. unfold Acquire.
      unfold countWorkers in Hlen. rewrite Hnone in Hlen. rewrite Hlen, Hcap. simpl. eauto.
  - exists ByMain. simpl. unfold stepMain. rewrite Hs. eauto.
Qed.

Lemma inFlight_le_holds (ws : list (FileToProcess * Goroutine)) :
  (sum_list_with (fun fg : FileToProcess * Goroutine => Nat.b2n (inFlight fg.2)) ws
   <= sum_list_with (fun fg : FileToProcess * Goroutine => Nat.b2n (holds fg.2)) ws)%nat.
Proof.
  induction ws as [|[fi g] ws IH]; [done|]. simpl. destruct g; simpl; lia.
Qed.

(** C7.  In every state the goroutines can reach, under any schedule: at
    most [MaxConcurrent] transform calls are in flight, because the
    goroutines between [Acquire] and [Release] are exactly as many as the
    elements in the channel and those never exceed its capacity; a
    goroutine that holds a slot can always take its next step, whatever
    [processFileContent] returned, so it gives the slot back; the run is
    never stuck before [main] has finished; it ends after exactly six
    steps per file and one more; and at the end every goroutine is done
    and the semaphore is empty. *)
Theorem semaphore_bounds_in_flight env fs w schedule r :
  play env schedule (start fs w) = Some r ->
  (countWorkers inFlight r <= MaxConcurrent)%nat /\
  countWorkers holds r = len (apiSemaphore r) /\
  (len (apiSemaphore r) <= MaxConcurrent)%nat /\
  (forall i fi g, workers r !! i = Some (fi, g) -> holds g = true ->
                  is_Some (stepWorker env i r)) /\
  (finished r = false -> exists c r', step env c r = Some r') /\
  (length schedule + stepsToGo r = 6 * length fs + 1)%nat /\
  (finished r = true ->
   len (apiSemaphore r) = 0%nat /\
   Forall (fun fg => fg.2 = Done) (workers r) /\
   (workers r).*1 = fs).
Proof.
  intros Hplay.
  destruct (play_invariant env schedule _ _ (initial_invariant fs w) Hplay)
    as (Hinv & Htasks & Hsteps).
  pose proof Hinv as (Hcap & Hlen & Hle & Hwg & Hfin).
  split; [|split; [|split; [|split; [|split; [|split]]]]].
  - pose proof (inFlight_le_holds (workers r)) as Hin.
    unfold countWorkers in *. lia.
  - done.
  - lia.
  - intros i fi g Hi Hholds. apply (holder_can_step env r i fi g Hinv Hi);
      by destruct g.
  - by apply never_stuck.
  - rewrite Hsteps. unfold stepsToGo, start. simpl. lia.
  - intros Hf. destruct (Hfin Hf) as [Hnil Hzero].
    assert (Hall : Forall (fun fg => fg.2 = Done) (workers r)).
    { apply not_done_zero. unfold countWorkers in Hwg. lia. }
    split; [|split; [done|]].
    + rewrite Hlen. unfold countWorkers. by apply all_done_counts.
    + unfold tasks in Htasks. rewrite Hnil, app_nil_r in Htasks. by rewrite Htasks.
Qed.

Lemma semaphore_bounds_in_flight_witness :
  let env := sampleEnv noEntry (fun _ => None) (fun _ _ => WriteCompletes) answers in
  let schedule := [ByMain; ByMain; ByMain; ByMain; ByWorker 0; ByWorker 1; ByWorker 2] in
  exists r,
    play env schedule (start fourFiles batchWorld) = Some r /\
    countWorkers inFlight r = 3%nat /\
    (countWorkers inFlight r <= MaxConcurrent)%nat /\
    step env (ByWorker 3) r = None.
Proof.
  intros env schedule.
  destruct (play env schedule (start fourFiles batchWorld)) as [r|] eqn:Hplay;
    [|vm_compute in Hplay; discriminate].
  exists r. split; [done|].
  pose proof (semaphore_bounds_in_flight env fourFiles batchWorld schedule r Hplay)
    as (Hbound & _).
  vm_compute in Hplay. inversion Hplay; subst r; clear Hplay.
  split; [reflexivity|]. split; [exact Hbound|]. reflexivity.
Defined.

(** A whole run of four files under one schedule: the fourth goroutine
    gets its slot once the first has released, and at the end all four
    files hold the service's answer and the bar has counted four
    successes. *)
Example four_files_run :
  let env := sampleEnv noEntry (fun _ => None) (fun _ _ => WriteCompletes) answers in
  let worker i := [ByWorker i; ByWorker i; ByWorker i; ByWorker i; ByWorker i] in
  let schedule :=
    [ByMain; ByMain; ByMain; ByMain] ++ worker 0%nat ++ worker 3%nat ++ worker 1%nat
    ++ worker 2%nat ++ [ByMain] in
  match play env schedule (start fourFiles batchWorld) with
  | Some r =>
      (finished r, len (apiSemaphore r), statusBar r, last (lines r),
       map (fun f => files (world r) !! Path f) fourFiles)
      = (true, 0%nat, mkStatusBar 4 4 4 0, Some (mkLine 4 4 4 0),
         [Some "# A"; Some "# B"; Some "# C"; Some "# teh text"])
  | None => False
  end.
Proof. vm_compute. reflexivity. Qed.

(** ** The status bar during a run *)

Lemma countWorkers_le p r : (countWorkers p r <= length (workers r))%nat.
Proof.
  unfold countWorkers. induction (workers r) as [|[fi g] ws IH]; [done|].
  simpl. destruct (p g); simpl; lia.
Qed.

Lemma length_tasks r : length (tasks r) = (length (workers r) + length (toSpawn r))%nat.
Proof. unfold tasks. by rewrite length_app, length_fmap. Qed.

Lemma stepMain_tasks r r' : stepMain r = Some r' -> tasks r' = tasks r.
Proof.
  unfold tasks, stepMain. intros H. destruct (toSpawn r) as [|fi rest] eqn:Hs.
  - destruct ((wg r =? 0)%Z && negb (finished r)); [|done]. by inversion H; subst.
  - inversion H; subst. simpl. by rewrite fmap_app, <- app_assoc.
Qed.

Lemma stepMain_bar N r r' :
  schedulerInvariant r -> barInvariant N r -> stepMain r = Some r' -> barInvariant N r'.
Proof.
  intros (_ & _ & _ & Hwg & _) (Ht & Hsum & Hs & Hf & Hp & Hn & Hlines) H.
  pose proof (stepMain_tasks r r' H) as Htasks.
  unfold stepMain in H. destruct (toSpawn r) as [|fi rest] eqn:Hspawn.
  - destruct ((wg r =? 0)%Z && negb (finished r)) eqn:Hready; [|done].
    apply andb_true_iff in Hready as [Hzero _]. apply Z.eqb_eq in Hzero.
    inversion H; subst r'; clear H. unfold barInvariant. simpl.
    rewrite Htasks. repeat split; try done.
    apply Forall_app. split; [done|]. constructor; [|done].
    (* every goroutine is done, so all have reported *)
    assert (Hall : Forall (fun fg => fg.2 = Done) (workers r)).
    { apply not_done_zero. unfold countWorkers in Hwg. lia. }
    assert (Hcount : countWorkers hasReported r = length (workers r)).
    { unfold countWorkers. clear -Hall.
      induction Hall as [|[fi g] ws Hd _ IH]; [done|]. simpl in *. subst g. simpl. lia. }
    rewrite length_tasks, Hspawn in Hn. simpl in Hn.
    unfold lineConsistent. simpl. lia.
  - inversion H; subst r'; clear H. unfold barInvariant, countWorkers in *. simpl in *.
    rewrite sum_list_with_app. simpl. rewrite Htasks.
    repeat split; try done. lia.
Qed.

Lemma stepWorker_bar env N i r r' :
  (N <= maxInt)%Z ->
  barInvariant N r -> stepWorker env i r = Some r' -> barInvariant N r'.
Proof.
  intros HN (Ht & Hsum & Hs & Hf & Hp & Hn & Hlines) H.
  pose proof (step_tasks env (ByWorker i) r r' H) as Htasks.
  pose proof (countWorkers_le hasReported r') as Hle'.
  assert (Hlen' : (Z.of_nat (length (workers r')) <= N)%Z).
  { rewrite <- Hn, <- Htasks, length_tasks. lia. }
  simpl in H. unfold stepWorker in H.
  destruct (workers r !! i) as [[fi g]|] eqn:Hi; [|done].
  destruct g as [| |ok| | |]; try done.
  - destruct (Acquire (apiSemaphore r)) as [sem|]; [|done].
    inversion H; subst r'; clear H.
    pose proof (countWorkers_move hasReported i fi Spawned Acquired r (world r) sem
                  (statusBar r) (lines r) (wg r) Hi) as Hmove.
    unfold barInvariant. rewrite Htasks. simpl in *. repeat split; try done. lia.
  - destruct (processFileContent env fi (world r)) as [ok w'].
    inversion H; subst r'; clear H.
    pose proof (countWorkers_move hasReported i fi Acquired (Processed ok) r w'
                  (apiSemaphore r) (statusBar r) (lines r) (wg r) Hi) as Hmove.
    unfold barInvariant. rewrite Htasks. simpl in *. repeat split; try done. lia.
  - (* the increment *)
    destruct (if ok then IncrementSuccess (statusBar r) else IncrementFailed (statusBar r))
      as [bar line] eqn:Hbar.
    inversion H; subst r'; clear H.
    pose proof (countWorkers_move hasReported i fi (Processed ok) Reported r (world r)
                  (apiSemaphore r) bar (lines r ++ [line]) (wg r) Hi) as Hmove.
    simpl in Hmove, Hle', Hlen'.
    assert (Hroom : (processed (statusBar r) < N)%Z) by lia.
    assert (Hbar' : total bar = N /\ processed bar = (processed (statusBar r) + 1)%Z /\
                    processed bar = (success bar + failed bar)%Z /\
                    (0 <= success bar)%Z /\ (0 <= failed bar)%Z /\ line = update bar).
    { destruct ok; simpl in Hbar; inversion Hbar; subst bar line; simpl;
        rewrite ?(incr_below (processed (statusBar r)) N),
                ?(incr_below (success (statusBar r)) N),
                ?(incr_below (failed (statusBar r)) N) by lia;
        repeat split; try done; lia. }
    destruct Hbar' as (Ht' & Hp' & Hsum' & Hs' & Hf' & ->).
    unfold barInvariant. rewrite Htasks. simpl. repeat split; try done; try lia.
    apply Forall_app. split; [done|]. constructor; [|done].
    unfold lineConsistent, update. simpl. lia.
  - destruct (Release (apiSemaphore r)) as [sem|]; [|done].
    inversion H; subst r'; clear H.
    pose proof (countWorkers_move hasReported i fi Reported Released r (world r) sem
                  (statusBar r) (lines r) (wg r) Hi) as Hmove.
    unfold barInvariant. rewrite Htasks. simpl in *. repeat split; try done. lia.
  - inversion H; subst r'; clear H.
    pose proof (countWorkers_move hasReported i fi Released Done r (world r)
                  (apiSemaphore r) (statusBar r) (lines r) (wg r - 1) Hi) as Hmove.
    unfold barInvariant. rewrite Htasks. simpl in *. repeat split; try done. lia.
Qed.

(** In every run of [N] files, every status line printed is consistent:
    what is shown as processed is the sum of the successes and failures
    shown, and never more than the total.  When [main] has finished, the
    last line shows [N] of [N]. *)
Lemma every_line_consistent env fs w schedule r :
  (Z.of_nat (length fs) <= maxInt)%Z ->
  play env schedule (start fs w) = Some r ->
  Forall (lineConsistent (Z.of_nat (length fs))) (lines r) /\
  (finished r = true ->
   exists line, last (lines r) = Some line /\ shownDone line = Z.of_nat (length fs)).
Proof.
  intros HN Hplay.
  assert (Hinit : barInvariant (Z.of_nat (length fs)) (start fs w) /\
                  (finished (start fs w) = true ->
                   exists line, last (lines (start fs w)) = Some line /\
                                shownDone line = Z.of_nat (length fs))).
  { split; [|done]. unfold barInvariant, start, countWorkers, tasks. simpl.
    repeat split; try done. }
  pose proof (initial_invariant fs w) as Hsched.
  revert Hplay Hinit Hsched. generalize (start fs w) as r0. clear w.
  induction schedule as [|c schedule IH]; intros r0 Hplay [Hbar Hlast] Hsched; simpl in Hplay.
  - inversion Hplay; subst. split; [apply Hbar|done].
  - destruct (step env c r0) as [r1|] eqn:Hstep; [|done].
    apply (IH r1 Hplay); [|by eapply step_invariant].
    destruct c as [|i]; simpl in Hstep.
    + split; [by eapply stepMain_bar|]. intros Hfin.
      unfold stepMain in Hstep. destruct (toSpawn r0) as [|fi rest].
      * destruct ((wg r0 =? 0)%Z && negb (finished r0)); [|done].
        inversion Hstep; subst r1. simpl. eexists. rewrite last_snoc. split; [done|].
        simpl. apply Hbar.
      * inversion Hstep; subst r1. simpl in *. by apply Hlast.
    + split; [by eapply stepWorker_bar|]. intros Hfin.
      destruct Hsched as (_ & _ & _ & Hwg & Hf0).
      (* a goroutine cannot move once [main] has finished *)
      exfalso.
      assert (Hf : finished r0 = true).
      { unfold stepWorker in Hstep. destruct (workers r0 !! i) as [[fi g]|]; [|done].
        destruct g as [| |ok| | |]; try done.
        - destruct (Acquire (apiSemaphore r0)); [|done]. by inversion Hstep; subst.
        - destruct (processFileContent env fi (world r0)). by inversion Hstep; subst.
        - destruct (if ok then _ else _). by inversion Hstep; subst.
        - destruct (Release (apiSemaphore r0)); [|done]. by inversion Hstep; subst.
        - by inversion Hstep; subst. }
      destruct (Hf0 Hf) as [_ Hzero].
      assert (Hall : Forall (fun fg => fg.2 = Done) (workers r0)).
      { apply not_done_zero. unfold countWorkers in Hwg. lia. }
      unfold stepWorker in Hstep. destruct (workers r0 !! i) as [[fi g]|] eqn:Hi; [|done].
      rewrite Forall_forall in Hall. apply list_elem_of_lookup_2 in Hi.
      specialize (Hall _ Hi). simpl in Hall. subst g. done.
Qed.

(** ** The backup destination *)

(** C6 on concrete paths, with working directory [/w] and backup root
    [/w/backup].  A file in the working directory or below it is mirrored,
    and a file elsewhere is flattened.  But the test for "below the
    working directory" compares strings, not path elements: a file in
    [/w2/notes] is taken for a file in the subdirectory [/notes] and is not
    flattened; a file in [/w2] gets the backup destination of the file of
    the same name in [/w]; and a file in [/wX../etc] gets a destination
    outside the backup root. *)
Lemma backup_destinations :
  let env := sampleEnv noEntry (fun _ => None) (fun _ _ => WriteCompletes) answers in
  map (fun filePath =>
         let '((f, err), _) :=
           prepareFileForProcessing env filePath "/w/backup" scatteredWorld in
         (err, BackupPath f))
      ["/w/a.md"; "/w/sub/a.md"; "/tmp/a.md"; "/w2/notes/a.md"; "/w2/a.md"; "/wX../etc/a.md"]
  = [(None, "/w/backup/a.md.bak");
     (None, "/w/backup/sub/a.md.bak");
     (None, "/w/backup/_tmp_a.md.bak");
     (None, "/w/backup/notes/a.md.bak");
     (None, "/w/backup/a.md.bak");
     (None, "/w/etc/a.md.bak")].
Proof. vm_compute. reflexivity. Qed.

(** With the root as working directory, the first byte of the directory
    below it is cut off: the file [/ab/x.md] is backed up as [b/x.md.bak]. *)
Lemma backup_destination_below_root :
  let env := sampleEnvAt "/" noEntry (fun _ => None) (fun _ _ => WriteCompletes) answers in
  let w := mkWorld {[ "/ab/x.md" := "x" ]} [] 0 0 in
  let '((f, err), _) := prepareFileForProcessing env "/ab/x.md" "/backup" w in
  (err, BackupPath f) = (None, "/backup/b/x.md.bak").
Proof. vm_compute. reflexivity. Qed.

(** ** Paths of proper names *)

Lemma properNames_proper es : properNames es -> Forall (fun e => proper e = true) es.
Proof.
  intros H. eapply Forall_impl; [exact H|]. intros e He.
  unfold properName in He. by apply andb_true_iff in He as [? _].
Qed.

Lemma properNames_noSeparator es : properNames es -> Forall (fun e => noSeparator e = true) es.
Proof.
  intros H. eapply Forall_impl; [exact H|]. intros e He.
  unfold properName in He. by apply andb_true_iff in He as [_ ?].
Qed.

Lemma strings_Join_cons e es sep :
  es <> [] -> strings.Join (e :: es) sep = e +:+ sep +:+ strings.Join es sep.
Proof. by destruct es. Qed.

Lemma strings_Join_app l1 l2 sep :
  l1 <> [] -> l2 <> [] ->
  strings.Join (l1 ++ l2) sep = strings.Join l1 sep +:+ sep +:+ strings.Join l2 sep.
Proof.
  intros H1 H2. induction l1 as [|e l1 IH]; [done|].
  destruct l1 as [|x l1].
  - simpl app. by rewrite strings_Join_cons.
  - change ((e :: x :: l1) ++ l2) with (e :: ((x :: l1) ++ l2)).
    rewrite strings_Join_cons by done. rewrite IH by done.
    rewrite (strings_Join_cons e (x :: l1)) by done. by rewrite !append_assoc.
Qed.

Lemma strings_Join_snoc_append l e sep t :
  strings.Join (l ++ [e]) sep +:+ t = strings.Join (l ++ [e +:+ t]) sep.
Proof.
  destruct l as [|x l]; [done|].
  rewrite !(strings_Join_app (x :: l)) by done. simpl. by rewrite !append_assoc.
Qed.

Lemma noSeparator_append a b :
  noSeparator (a +:+ b) = noSeparator a && noSeparator b.
Proof.
  induction a as [|c a IH]; [done|]. rewrite append_cons. simpl. rewrite IH.
  by rewrite andb_assoc.
Qed.

Lemma properName_bak n : noSeparator n = true -> properName (n +:+ ".bak") = true.
Proof.
  intros Hn. unfold properName. rewrite proper_bak, noSeparator_append, Hn. done.
Qed.

(** The elements of a rooted path. *)
Lemma elements_rooted es :
  properNames es ->
  filepath.elements (rooted es) = "" :: match es with [] => [""] | _ => es end.
Proof.
  intros Hes. unfold rooted.
  change ("/" +:+ strings.Join es "/") with (String "/" (strings.Join es "/")).
  simpl. f_equal. destruct es as [|e es]; [done|].
  apply elements_strings_Join; [done|]. by apply properNames_noSeparator.
Qed.

Lemma fold_clean_rooted rooted_ es :
  properNames es ->
  fold_left (filepath.clean_element rooted_) (filepath.elements (rooted es)) [] = rev es.
Proof.
  intros Hes. rewrite elements_rooted by done. destruct es as [|e es]; [done|].
  change (fold_left (filepath.clean_element rooted_) ("" :: e :: es) [])
    with (fold_left (filepath.clean_element rooted_) (e :: es) []).
  rewrite fold_clean_props by (by apply properNames_proper). by rewrite app_nil_r.
Qed.

Lemma IsAbs_rooted es : filepath.IsAbs (rooted es) = true.
Proof.
  unfold rooted, filepath.IsAbs, strings.HasPrefix.
  change ("/" +:+ strings.Join es "/") with (String "/" (strings.Join es "/")).
  cbn [String.prefix]. destruct (ascii_dec "/" "/"); [|done]. by destruct (strings.Join es "/").
Qed.

(** A rooted path of proper names is clean. *)
Lemma Clean_rooted es : properNames es -> filepath.Clean (rooted es) = rooted es.
Proof.
  intros Hes. unfold filepath.Clean. rewrite IsAbs_rooted.
  rewrite fold_clean_rooted by done. by rewrite rev_involutive.
Qed.

Lemma IsAbs_relative es : properNames es -> filepath.IsAbs (relative es) = false.
Proof.
  intros Hes. destruct es as [|e es]; [done|].
  inversion Hes as [|? ? He _]; subst.
  unfold properName in He. apply andb_true_iff in He as [Hp Hs].
  destruct e as [|c e]; [done|].
  simpl in Hs. apply andb_true_iff in Hs as [Hc _]. apply negb_true_iff in Hc.
  assert (Hstart : exists r, relative (String c e :: es) = String c r).
  { unfold relative. destruct es; [by eexists|]. rewrite strings_Join_cons by done.
    rewrite append_cons. by eexists. }
  destruct Hstart as [r ->].
  unfold filepath.IsAbs, strings.HasPrefix. cbn [String.prefix].
  destruct (ascii_dec "/" c) as [<-|]; [by vm_compute in Hc|done].
Qed.

Lemma Clean_relative es :
  es <> [] -> properNames es -> filepath.Clean (relative es) = relative es.
Proof.
  intros Hne Hes. unfold filepath.Clean. rewrite IsAbs_relative by done.
  unfold relative.
  rewrite elements_strings_Join by (done || by apply properNames_noSeparator).
  rewrite fold_clean_props by (by apply properNames_proper).
  rewrite app_nil_r, rev_involutive. destruct es; [by destruct Hne|done].
Qed.

Lemma relative_ne_empty es : es <> [] -> properNames es -> relative es <> "".
Proof.
  intros Hne Hes Heq. destruct es as [|e es]; [done|].
  inversion Hes as [|? ? He _]; subst.
  destruct e as [|c e]; [done|].
  unfold relative in Heq. destruct es; [done|]. rewrite strings_Join_cons in Heq by done.
  by rewrite append_cons in Heq.
Qed.

(** Joining a relative path of proper names to a rooted one appends the
    elements. *)
Lemma Join_rooted ws es :
  properNames ws -> properNames es -> es <> [] ->
  filepath.Join [rooted ws; relative es] = rooted (ws ++ es).
Proof.
  intros Hws Hes Hne. unfold filepath.Join.
  change (String.eqb (rooted ws) "") with false. cbv iota.
  change (strings.Join [rooted ws; relative es] "/")
    with (rooted ws +:+ "/" +:+ relative es).
  unfold filepath.Clean.
  rewrite (IsAbs_append (rooted ws) ("/" +:+ relative es)) by done. rewrite IsAbs_rooted.
  rewrite elements_separator, fold_left_app, fold_clean_rooted by done.
  unfold relative.
  rewrite elements_strings_Join by (done || by apply properNames_noSeparator).
  rewrite fold_clean_props by (by apply properNames_proper).
  rewrite <- rev_app_distr, rev_involutive. done.
Qed.

Lemma Join_relative ds es :
  properNames ds -> properNames es -> ds <> [] -> es <> [] ->
  filepath.Join [relative ds; relative es] = relative (ds ++ es).
Proof.
  intros Hds Hes Hd He. unfold filepath.Join.
  destruct (String.eqb_spec (relative ds) "") as [Heq|_];
    [by apply relative_ne_empty in Heq|].
  change (strings.Join [relative ds; relative es] "/")
    with (relative ds +:+ "/" +:+ relative es).
  fold relative.
  assert (H : relative ds +:+ "/" +:+ relative es = relative (ds ++ es)).
  { unfold relative. by rewrite strings_Join_app. }
  rewrite H. apply Clean_relative; [by destruct ds|by apply Forall_app].
Qed.

(** The directory of a rooted path. *)
Lemma Dir_rooted ds name :
  properNames (ds ++ [name]) -> filepath.Dir (rooted (ds ++ [name])) = rooted ds.
Proof.
  intros Hall. pose proof Hall as Hds. apply Forall_app in Hds as [Hds Hname].
  unfold filepath.Dir, filepath.upto_last_separator.
  rewrite elements_rooted by done.
  assert (Hel : match ds ++ [name] with [] => [""] | _ => ds ++ [name] end = ds ++ [name])
    by (by destruct ds).
  rewrite Hel. clear Hel.
  change ("" :: ds ++ [name]) with (("" :: ds) ++ [name]).
  rewrite rev_app_distr. simpl rev at 1. cbv iota.
  destruct (rev ("" :: ds)) as [|x l] eqn:Hrev.
  { apply (f_equal (@rev string)) in Hrev. rewrite rev_involutive in Hrev. done. }
  cbn [app]. rewrite <- Hrev.
  change (rev [name]) with [name]. cbn [app]. cbv iota.
  change (rev ("" :: rev ("" :: ds))) with (rev (rev ("" :: ds)) ++ [""]).
  rewrite rev_involutive.
  change (("" :: ds) ++ [""]) with ("" :: (ds ++ [""])).
  rewrite strings_Join_cons by (by destruct ds).
  change ("" +:+ "/" +:+ strings.Join (ds ++ [""]) "/")
    with (String "/" (strings.Join (ds ++ [""]) "/")).
  unfold filepath.Clean.
  assert (Habs : filepath.IsAbs (String "/" (strings.Join (ds ++ [""]) "/")) = true).
  { unfold filepath.IsAbs, strings.HasPrefix. cbn [String.prefix].
    destruct (ascii_dec "/" "/"); [|done]. by destruct (strings.Join _ _). }
  rewrite Habs.
  change (filepath.elements (String "/" (strings.Join (ds ++ [""]) "/")))
    with ("" :: filepath.elements (strings.Join (ds ++ [""]) "/")).
  rewrite elements_strings_Join.
  - change (fold_left (filepath.clean_element true) ("" :: (ds ++ [""])) [])
      with (fold_left (filepath.clean_element true) (ds ++ [""]) []).
    rewrite fold_left_app. rewrite (fold_clean_props true ds) by (by apply properNames_proper).
    cbn [fold_left]. change (filepath.clean_element true (rev ds ++ []) "") with (rev ds ++ []).
    by rewrite app_nil_r, rev_involutive.
  - by destruct ds.
  - apply Forall_app. split; [by apply properNames_noSeparator|by constructor].
Qed.

Lemma Base_rooted ds name :
  properNames (ds ++ [name]) -> filepath.Base (rooted (ds ++ [name])) = name.
Proof.
  intros Hall.
  assert (Hname : name <> "").
  { apply Forall_app in Hall as [_ Hn]. inversion Hn as [|? ? H _]; subst.
    intros ->. done. }
  eapply (isMarkdown_Base _ ("" :: ds) name); [|done].
  rewrite elements_rooted by done. by destruct ds.
Qed.

Lemma Base_relative ds name :
  properNames (ds ++ [name]) -> filepath.Base (relative (ds ++ [name])) = name.
Proof.
  intros Hall.
  assert (Hname : name <> "").
  { apply Forall_app in Hall as [_ Hn]. inversion Hn as [|? ? H _]; subst.
    intros ->. done. }
  eapply (isMarkdown_Base _ ds name); [|done].
  unfold relative. apply elements_strings_Join; [by destruct ds|].
  by apply properNames_noSeparator.
Qed.

Lemma HasPrefix_append a b : strings.HasPrefix (a +:+ b) a = true.
Proof.
  unfold strings.HasPrefix. induction a as [|c a IH]; [by destruct b|].
  rewrite append_cons. cbn [String.prefix]. by destruct (ascii_dec c c).
Qed.

Lemma rooted_app ws ds :
  ws <> [] -> ds <> [] -> rooted (ws ++ ds) = rooted ws +:+ "/" +:+ relative ds.
Proof.
  intros Hw Hd. unfold rooted, relative. rewrite strings_Join_app by done.
  by rewrite !append_assoc.
Qed.

Lemma append_ne_self a c b : String.eqb (a +:+ String c b) a = false.
Proof.
  apply String.eqb_neq. intros H. apply (f_equal String.length) in H.
  rewrite length_append in H. simpl in H. lia.
Qed.

Lemma relative_cons e es : es <> [] -> relative (e :: es) = e +:+ "/" +:+ relative es.
Proof. intros H. unfold relative. by rewrite strings_Join_cons. Qed.

Lemma rooted_inj es1 es2 :
  properNames es1 -> properNames es2 -> rooted es1 = rooted es2 -> es1 = es2.
Proof.
  intros H1 H2 Heq. apply (f_equal filepath.elements) in Heq.
  rewrite !elements_rooted in Heq by done.
  destruct es1 as [|a es1], es2 as [|b es2]; try done.
  - inversion Heq; subst. inversion H2; subst. done.
  - inversion Heq; subst. inversion H1; subst. done.
  - by inversion Heq.
Qed.

Lemma append_inj_r a b t : a +:+ t = b +:+ t -> a = b.
Proof.
  revert b. induction a as [|c a IH]; intros [|d b] H.
  - done.
  - apply (f_equal String.length) in H. rewrite !length_append in H. simpl in H. lia.
  - apply (f_equal String.length) in H. rewrite !length_append in H. simpl in H. lia.
  - rewrite !append_cons in H. inversion H; subst. f_equal. by apply IH.
Qed.

(** The destination [main] derives for a file at [ds/name] below the
    working directory [/ws], named relative to it or in full. *)
Lemma prepareFileForProcessing_below env ws ds name filePath content w :
  Getwd env = (rooted ws, None) ->
  ws <> [] ->
  properNames (ws ++ ds ++ [name]) ->
  filePath = relative (ds ++ [name]) \/ filePath = rooted (ws ++ ds ++ [name]) ->
  files w !! filePath = Some content ->
  prepareFileForProcessing env filePath (filepath.Join [rooted ws; BackupDirName]) w
  = ((mkFileToProcess filePath content
        (rooted (ws ++ [BackupDirName] ++ ds ++ [name +:+ ".bak"])), None), w).
Proof.
  intros Hwd Hws Hall Hpath Hread.
  pose proof Hall as Hparts. apply Forall_app in Hparts as [Hpw Hrest].
  pose proof Hrest as Hrest'. apply Forall_app in Hrest' as [Hpd Hpn].
  assert (Hnosep : noSeparator name = true).
  { inversion Hpn as [|? ? H _]; subst. unfold properName in H.
    by apply andb_true_iff in H as [_ ?]. }
  assert (Habs : filepath.Abs (rooted ws, None) filePath
                 = (rooted (ws ++ ds ++ [name]), None)).
  { unfold filepath.Abs. destruct Hpath as [->| ->].
    - rewrite IsAbs_relative by done. rewrite Join_rooted; try done. by destruct ds.
    - rewrite IsAbs_rooted, Clean_rooted by done. done. }
  assert (Hbase : filepath.Base filePath = name).
  { destruct Hpath as [->| ->].
    - by apply Base_relative.
    - rewrite app_assoc. apply Base_rooted. by rewrite <- app_assoc. }
  assert (Hwork : filepath.Abs (rooted ws, None) (rooted ws) = (rooted ws, None)).
  { unfold filepath.Abs. by rewrite IsAbs_rooted, Clean_rooted. }
  assert (Hdir : filepath.Dir (rooted (ws ++ ds ++ [name])) = rooted (ws ++ ds)).
  { rewrite app_assoc. apply Dir_rooted. by rewrite <- app_assoc. }
  assert (Hbackup : filepath.Join [rooted ws; BackupDirName] = rooted (ws ++ [BackupDirName])).
  { apply (Join_rooted ws [BackupDirName]); [done|by repeat constructor|done]. }
  unfold prepareFileForProcessing, os.ReadFile, bind, ret. rewrite Hread, Hwd, Habs, Hwork, Hdir, Hbase.
  assert (Hrel : (if String.eqb (rooted (ws ++ ds)) (rooted ws) then name
                  else if strings.HasPrefix (rooted (ws ++ ds)) (rooted ws)
                       then filepath.Join
                              [strings.slice_from (String.length (rooted ws) + 1)
                                                  (rooted (ws ++ ds)); name]
                       else match strings.ReplaceAll (rooted (ws ++ ds ++ [name]))
                                    (String filepath.Separator "") "_" with
                            | String c rest =>
                                if Ascii.eqb c "/" || Ascii.eqb c "\" then rest
                                else strings.ReplaceAll (rooted (ws ++ ds ++ [name]))
                                       (String filepath.Separator "") "_"
                            | EmptyString =>
                                strings.ReplaceAll (rooted (ws ++ ds ++ [name]))
                                  (String filepath.Separator "") "_"
                            end)
                 = relative (ds ++ [name])).
  { destruct ds as [|d ds].
    - rewrite app_nil_r, String.eqb_refl. done.
    - rewrite (rooted_app ws (d :: ds)) by done.
      assert (Hne : String.eqb (rooted ws +:+ "/" +:+ relative (d :: ds)) (rooted ws) = false).
      { change ("/" +:+ relative (d :: ds)) with (String "/" (relative (d :: ds))).
        apply append_ne_self. }
      rewrite Hne, HasPrefix_append.
      rewrite (slice_from_append (rooted ws) ("/" +:+ relative (d :: ds)) 1).
      change (strings.slice_from 1 ("/" +:+ relative (d :: ds))) with (relative (d :: ds)).
      change name with (relative [name]) at 1.
      rewrite Join_relative; done. }
  rewrite Hrel, Hbackup.
  do 3 f_equal.
  unfold relative at 1. rewrite strings_Join_snoc_append. fold (relative (ds ++ [name +:+ ".bak"])).
  rewrite Join_rooted.
  - by rewrite <- !app_assoc.
  - apply Forall_app. split; [done|by repeat constructor].
  - apply Forall_app. split; [done|]. constructor; [|done]. by apply properName_bak.
  - by destruct ds.
Qed.

(** X1.  A file at [ds/name] below the working directory [/ws], whether
    it is named relative to the working directory or in full, is prepared
    without touching the world: the task carries the path as given and the
    content found there, and its backup destination is the backup
    directory of the working directory followed by the same relative path
    and [.bak]. *)
Theorem backup_mirrors_working_directory env ws ds name filePath content w :
  Getwd env = (rooted ws, None) ->
  ws <> [] ->
  properNames (ws ++ ds ++ [name]) ->
  filePath = relative (ds ++ [name]) \/ filePath = rooted ws +:+ "/" +:+ relative (ds ++ [name]) ->
  files w !! filePath = Some content ->
  prepareFileForProcessing env filePath (filepath.Join [rooted ws; BackupDirName]) w
  = ((mkFileToProcess filePath content
        (rooted ws +:+ "/backup/" +:+ relative (ds ++ [name]) +:+ ".bak"), None), w).
Proof.
  intros Hwd Hws Hall Hpath Hread.
  rewrite (prepareFileForProcessing_below env ws ds name filePath content w); try done.
  - do 3 f_equal. rewrite (rooted_app ws) by (done || by destruct ds).
    change ([BackupDirName] ++ ds ++ [name +:+ ".bak"])
      with (BackupDirName :: (ds ++ [name +:+ ".bak"])).
    rewrite relative_cons by (by destruct ds).
    unfold relative. rewrite <- strings_Join_snoc_append. done.
  - destruct Hpath as [->| ->]; [by left|right].
    rewrite (rooted_app ws) by (done || by destruct ds). done.
Qed.

Lemma backup_mirrors_working_directory_witness :
  let env := sampleEnv noEntry (fun _ => None) (fun _ _ => WriteCompletes) answers in
  prepareFileForProcessing env "notes/sub/g.md" (filepath.Join ["/w"; BackupDirName]) notesWorld
  = ((mkFileToProcess "notes/sub/g.md" "G" "/w/backup/notes/sub/g.md.bak", None), notesWorld).
Proof.
  intros env.
  refine (backup_mirrors_working_directory env ["w"] ["notes"; "sub"] "g.md" "notes/sub/g.md"
            "G" notesWorld _ _ _ _ _).
  - reflexivity.
  - discriminate.
  - repeat constructor.
  - left. reflexivity.
  - reflexivity.
Defined.

(** X2.  Two different files below the working directory never share a
    backup destination. *)
Theorem backups_below_working_directory_distinct env ws ds1 name1 ds2 name2 w1 w2 f1 f2 :
  Getwd env = (rooted ws, None) ->
  ws <> [] ->
  properNames (ws ++ ds1 ++ [name1]) ->
  properNames (ws ++ ds2 ++ [name2]) ->
  prepareFileForProcessing env (relative (ds1 ++ [name1]))
    (filepath.Join [rooted ws; BackupDirName]) w1 = ((f1, None), w1) ->
  prepareFileForProcessing env (relative (ds2 ++ [name2]))
    (filepath.Join [rooted ws; BackupDirName]) w2 = ((f2, None), w2) ->
  relative (ds1 ++ [name1]) <> relative (ds2 ++ [name2]) ->
  BackupPath f1 <> BackupPath f2.
Proof.
  intros Hwd Hws H1 H2 Hf1 Hf2 Hdiff Hsame. apply Hdiff.
  pose proof (prepareFileForProcessing_reads _ _ _ _ _ _ _ Hf1) as [_ Hr1].
  pose proof (prepareFileForProcessing_reads _ _ _ _ _ _ _ Hf2) as [_ Hr2].
  destruct (Hr1 eq_refl) as [Hp1 Hc1]. destruct (Hr2 eq_refl) as [Hp2 Hc2].
  rewrite (prepareFileForProcessing_below env ws ds1 name1 _ (Content f1) w1) in Hf1
    by (done || by left).
  rewrite (prepareFileForProcessing_below env ws ds2 name2 _ (Content f2) w2) in Hf2
    by (done || by left).
  inversion Hf1 as [Hb1]. inversion Hf2 as [Hb2].
  rewrite <- Hb1, <- Hb2 in Hsame. simpl in Hsame.
  assert (Hnames : forall ds name, properNames (ws ++ ds ++ [name]) ->
            properNames (ws ++ [BackupDirName] ++ ds ++ [name +:+ ".bak"])).
  { intros ds name Hall. apply Forall_app in Hall as [Hw Hrest].
    apply Forall_app in Hrest as [Hd Hn].
    apply Forall_app. split; [done|]. apply Forall_app. split; [by repeat constructor|].
    apply Forall_app. split; [done|]. constructor; [|done].
    inversion Hn as [|? ? H _]; subst. unfold properName in H.
    apply andb_true_iff in H as [_ H]. by apply properName_bak. }
  apply rooted_inj in Hsame; [|by apply Hnames..].
  apply app_inv_head in Hsame. inversion Hsame as [Hlast].
  apply app_inj_tail in Hlast as [-> Hn]. apply append_inj_r in Hn as ->.
  done.
Qed.

Lemma backups_below_working_directory_distinct_witness :
  let env := sampleEnv noEntry (fun _ => None) (fun _ _ => WriteCompletes) answers in
  let backupDir := filepath.Join ["/w"; BackupDirName] in
  BackupPath (prepareFileForProcessing env "notes/a.md" backupDir notesWorld).1.1
  <> BackupPath (prepareFileForProcessing env "notes/sub/g.md" backupDir notesWorld).1.1.
Proof.
  intros env backupDir.
  refine (backups_below_working_directory_distinct env ["w"] ["notes"] "a.md"
            ["notes"; "sub"] "g.md" notesWorld notesWorld _ _ _ _ _ _ _ _ _).
  - reflexivity.
  - discriminate.
  - repeat constructor.
  - repeat constructor.
  - reflexivity.
  - reflexivity.
  - discriminate.
Defined.

(** Replacing the separator by the filler, byte by byte. *)
Lemma replace_separator_append a b :
  strings.replace_from 0 (a +:+ b) "/" "_"
  = strings.replace_from 0 a "/" "_" +:+ strings.replace_from 0 b "/" "_".
Proof.
  induction a as [|c a IH]; [done|].
  rewrite append_cons. cbn [strings.replace_from String.prefix].
  destruct (ascii_dec "/" c) as [<-|Hc].
  - assert (H : forall s, String.prefix "" s = true) by (by intros []).
    rewrite !H. cbn [String.length Nat.sub]. rewrite IH. by rewrite append_assoc.
  - by rewrite IH, append_cons.
Qed.

Lemma replace_separator_none s :
  noSeparator s = true -> strings.replace_from 0 s "/" "_" = s.
Proof.
  induction s as [|c s IH]; intros H; [done|].
  simpl in H. apply andb_true_iff in H as [Hc Hs]. apply negb_true_iff in Hc.
  cbn [strings.replace_from String.prefix].
  destruct (ascii_dec "/" c) as [<-|_]; [by vm_compute in Hc|]. by rewrite IH.
Qed.

Lemma replace_separator_Join es :
  Forall (fun e => noSeparator e = true) es ->
  strings.replace_from 0 (strings.Join es "/") "/" "_" = strings.Join es "_".
Proof.
  induction 1 as [|e es He Hes IH]; [done|].
  destruct es as [|x es].
  - by apply replace_separator_none.
  - rewrite !strings_Join_cons by done.
    rewrite !replace_separator_append, IH, (replace_separator_none e He). done.
Qed.

Lemma ReplaceAll_rooted es :
  properNames es ->
  strings.ReplaceAll (rooted es) (String filepath.Separator "") "_" = flattened es.
Proof.
  intros Hes. unfold strings.ReplaceAll, rooted, flattened. cbv iota.
  change (String filepath.Separator "") with "/".
  rewrite replace_separator_append, replace_separator_Join by (by apply properNames_noSeparator).
  done.
Qed.

Lemma noSeparator_Join es :
  Forall (fun e => noSeparator e = true) es -> noSeparator (strings.Join es "_") = true.
Proof.
  induction 1 as [|e es He Hes IH]; [done|].
  destruct es as [|x es]; [done|].
  rewrite strings_Join_cons by done. rewrite !noSeparator_append, He, IH. done.
Qed.

Lemma noSeparator_flattened es : properNames es -> noSeparator (flattened es) = true.
Proof.
  intros Hes. unfold flattened. rewrite noSeparator_append.
  rewrite noSeparator_Join by (by apply properNames_noSeparator). done.
Qed.

Lemma HasPrefix_refl a : strings.HasPrefix a a = true.
Proof. rewrite <- (append_empty_r a) at 1. apply HasPrefix_append. Qed.

(** The destination of a file at [/ds/name] whose directory does not begin
    with the working directory's string. *)
Lemma prepareFileForProcessing_outside env ws es content w :
  Getwd env = (rooted ws, None) ->
  properNames ws -> properNames es -> es <> [] ->
  strings.HasPrefix (filepath.Dir (rooted es)) (rooted ws) = false ->
  files w !! rooted es = Some content ->
  prepareFileForProcessing env (rooted es) (filepath.Join [rooted ws; BackupDirName]) w
  = ((mkFileToProcess (rooted es) content
        (rooted (ws ++ [BackupDirName; flattened es +:+ ".bak"])), None), w).
Proof.
  intros Hwd Hws Hes Hne Hout Hread.
  assert (Habs : filepath.Abs (rooted ws, None) (rooted es) = (rooted es, None)).
  { unfold filepath.Abs. by rewrite IsAbs_rooted, Clean_rooted. }
  assert (Hwork : filepath.Abs (rooted ws, None) (rooted ws) = (rooted ws, None)).
  { unfold filepath.Abs. by rewrite IsAbs_rooted, Clean_rooted. }
  assert (Hneq : String.eqb (filepath.Dir (rooted es)) (rooted ws) = false).
  { destruct (String.eqb_spec (filepath.Dir (rooted es)) (rooted ws)) as [Heq|]; [|done].
    rewrite Heq, HasPrefix_refl in Hout. done. }
  assert (Hbackup : filepath.Join [rooted ws; BackupDirName] = rooted (ws ++ [BackupDirName])).
  { apply (Join_rooted ws [BackupDirName]); [done|by repeat constructor|done]. }
  unfold prepareFileForProcessing, os.ReadFile, bind, ret.
  rewrite Hread, Hwd, Habs, Hwork, Hneq, Hout, ReplaceAll_rooted by done.
  assert (Hfirst : match flattened es with
                    | String c rest =>
                        if Ascii.eqb c "/" || Ascii.eqb c "\" then rest else flattened es
                    | EmptyString => flattened es
                    end = flattened es) by done.
  rewrite Hfirst, Hbackup. do 3 f_equal.
  change (flattened es +:+ ".bak") with (relative [flattened es +:+ ".bak"]).
  rewrite Join_rooted.
  - by rewrite <- app_assoc.
  - apply Forall_app. split; [done|by repeat constructor].
  - constructor; [|done]. apply properName_bak. by apply noSeparator_flattened.
  - done.
Qed.

Lemma HasPrefix_shorter a b p :
  strings.HasPrefix a p = true -> strings.HasPrefix (a +:+ b) p = true.
Proof.
  unfold strings.HasPrefix. revert a. induction p as [|c p IH]; intros [|x a] H.
  - by destruct b.
  - done.
  - done.
  - rewrite append_cons. cbn [String.prefix] in *.
    destruct (ascii_dec c x); [by apply IH|done].
Qed.

(** X3.  A file [/ds/name] whose directory does not begin with the
    working directory's string is backed up directly in the backup
    directory, under its absolute path with every separator replaced by
    [_] (the leading one too) and [.bak] appended: the name has no
    separator and the directory of the destination is the backup
    directory. *)
Theorem backup_flattens_outside env ws ds name content w :
  Getwd env = (rooted ws, None) ->
  properNames ws -> properNames (ds ++ [name]) ->
  strings.HasPrefix (rooted ds) (rooted ws) = false ->
  files w !! rooted (ds ++ [name]) = Some content ->
  let backupDir := filepath.Join [rooted ws; BackupDirName] in
  exists f,
    prepareFileForProcessing env (rooted (ds ++ [name])) backupDir w = ((f, None), w) /\
    Path f = rooted (ds ++ [name]) /\ Content f = content /\
    BackupPath f = rooted ws +:+ "/backup/" +:+ flattened (ds ++ [name]) +:+ ".bak" /\
    noSeparator (flattened (ds ++ [name]) +:+ ".bak") = true /\
    filepath.Dir (BackupPath f) = backupDir.
Proof.
  intros Hwd Hws Hall Hout Hread backupDir.
  assert (Hne : ws <> []).
  { intros ->. unfold rooted in Hout.
    change ("/" +:+ strings.Join [] "/") with ("/" +:+ "") in Hout.
    rewrite append_empty_r in Hout.
    by rewrite (HasPrefix_append "/" (strings.Join ds "/")) in Hout. }
  assert (Hflat : properName (flattened (ds ++ [name]) +:+ ".bak") = true)
    by (by apply properName_bak, noSeparator_flattened).
  eexists. split.
  - apply prepareFileForProcessing_outside; try done; [by destruct ds|].
    by rewrite Dir_rooted.
  - simpl. split; [done|]. split; [done|].
    assert (Hdest : rooted (ws ++ [BackupDirName; flattened (ds ++ [name]) +:+ ".bak"])
                    = rooted ws +:+ "/backup/" +:+ flattened (ds ++ [name]) +:+ ".bak").
    { rewrite (rooted_app ws) by done. done. }
    split; [done|]. split.
    + unfold properName in Hflat. by apply andb_true_iff in Hflat as [_ ?].
    + change (ws ++ [BackupDirName; flattened (ds ++ [name]) +:+ ".bak"])
        with (ws ++ [BackupDirName] ++ [flattened (ds ++ [name]) +:+ ".bak"]).
      rewrite app_assoc, Dir_rooted.
      * unfold backupDir. symmetry.
        apply (Join_rooted ws [BackupDirName]); [done|by repeat constructor|done].
      * rewrite <- app_assoc. apply Forall_app. split; [done|]. by repeat constructor.
Qed.

Lemma backup_flattens_outside_witness :
  let env := sampleEnv noEntry (fun _ => None) (fun _ _ => WriteCompletes) answers in
  exists f,
    prepareFileForProcessing env "/tmp/a.md" (filepath.Join ["/w"; BackupDirName]) scatteredWorld
    = ((f, None), scatteredWorld) /\
    BackupPath f = "/w/backup/_tmp_a.md.bak" /\
    filepath.Dir (BackupPath f) = "/w/backup".
Proof.
  intros env.
  destruct (backup_flattens_outside env ["w"] ["tmp"] "a.md" "3" scatteredWorld)
    as (f & Hf & _ & _ & Hb & _ & Hd).
  - reflexivity.
  - repeat constructor.
  - repeat constructor.
  - reflexivity.
  - reflexivity.
  - exists f. split; [exact Hf|]. split; [exact Hb|exact Hd].
Defined.

Lemma properName_glue a b :
  properName a = true -> properName b = true -> properName (a +:+ "_" +:+ b) = true.
Proof.
  unfold properName. intros Ha Hb.
  apply andb_true_iff in Ha as [Hpa Hsa]. apply andb_true_iff in Hb as [Hpb Hsb].
  rewrite !noSeparator_append, Hsa, Hsb. rewrite andb_true_r.
  assert (Hla : a <> "") by (intros ->; done).
  assert (Hlb : b <> "") by (intros ->; done).
  assert (Hlen : (3 <= String.length (a +:+ "_" +:+ b))%nat).
  { rewrite !length_append. destruct a, b; simpl; try done; lia. }
  unfold proper.
  assert (H : forall x, (String.length x < 3)%nat -> String.eqb (a +:+ "_" +:+ b) x = false).
  { intros x Hx. apply String.eqb_neq. intros Heq. rewrite Heq in Hlen. lia. }
  rewrite !H by (simpl; lia). done.
Qed.

(** X4.  Flattening is not injective: outside the working directory the
    files [/d/n1_n2] and [/d_n1/n2] are different files with the same
    backup destination, and when both are backed up in one batch the
    destination holds the content of the second only. *)
Theorem flattened_backups_collide env ws d n1 n2 cA cB w :
  Getwd env = (rooted ws, None) ->
  properNames ws -> properNames [d; n1; n2] ->
  strings.HasPrefix (rooted [d +:+ "_" +:+ n1]) (rooted ws) = false ->
  let A := rooted [d; n1 +:+ "_" +:+ n2] in
  let B := rooted [d +:+ "_" +:+ n1; n2] in
  let backupDir := filepath.Join [rooted ws; BackupDirName] in
  files w !! A = Some cA -> files w !! B = Some cB ->
  exists fA fB,
    prepareFileForProcessing env A backupDir w = ((fA, None), w) /\
    prepareFileForProcessing env B backupDir w = ((fB, None), w) /\
    Content fA = cA /\ Content fB = cB /\
    Path fA <> Path fB /\
    BackupPath fA = BackupPath fB /\
    forall w', backupAllFiles env [fA; fB] w = (None, w') ->
               files w' !! BackupPath fA = Some cB.
Proof.
  intros Hwd Hws Hnames Hout A B backupDir HA HB.
  inversion Hnames as [|? ? Hd Hn]; subst. inversion Hn as [|? ? Hn1 Hn']; subst.
  inversion Hn' as [|? ? Hn2 _]; subst.
  assert (HpA : properNames [d; n1 +:+ "_" +:+ n2])
    by (repeat constructor; [done|by apply properName_glue]).
  assert (HpB : properNames [d +:+ "_" +:+ n1; n2])
    by (repeat constructor; [by apply properName_glue|done]).
  assert (HoutA : strings.HasPrefix (filepath.Dir A) (rooted ws) = false).
  { pose proof (Dir_rooted [d] (n1 +:+ "_" +:+ n2) HpA) as HdA. cbn [app] in HdA.
    unfold A. rewrite HdA.
    destruct (strings.HasPrefix (rooted [d]) (rooted ws)) eqn:Hp; [|done].
    apply (HasPrefix_shorter _ ("_" +:+ n1)) in Hp.
    unfold rooted in Hp, Hout. simpl strings.Join in Hp, Hout.
    rewrite append_assoc in Hp. congruence. }
  assert (HoutB : strings.HasPrefix (filepath.Dir B) (rooted ws) = false).
  { pose proof (Dir_rooted [d +:+ "_" +:+ n1] n2 HpB) as HdB. cbn [app] in HdB.
    unfold B. by rewrite HdB. }
  pose proof (prepareFileForProcessing_outside env ws _ cA w Hwd Hws HpA
                ltac:(done) HoutA HA) as HfA.
  pose proof (prepareFileForProcessing_outside env ws _ cB w Hwd Hws HpB
                ltac:(done) HoutB HB) as HfB.
  assert (Hflat : flattened [d; n1 +:+ "_" +:+ n2] = flattened [d +:+ "_" +:+ n1; n2]).
  { unfold flattened. simpl strings.Join. by rewrite !append_assoc. }
  eexists. eexists. split; [exact HfA|]. split; [exact HfB|]. simpl.
  split; [done|]. split; [done|]. split; [|split].
  - intros Heq. apply rooted_inj in Heq; [|done..]. inversion Heq as [[Hdd Hnn]].
    apply (f_equal String.length) in Hdd. rewrite !length_append in Hdd. simpl in Hdd. lia.
  - by rewrite Hflat.
  - intros w' Hb. unfold backupAllFiles in Hb.
    apply backupFrom_spec in Hb as (_ & _ & _ & Hfiles). rewrite Hfiles.
    unfold backedUp. simpl. rewrite Hflat. apply lookup_insert_eq.
Qed.

Lemma flattened_backups_collide_witness :
  let env := sampleEnv noEntry (fun _ => None) (fun _ _ => WriteCompletes) answers in
  exists fA fB,
    prepareFileForProcessing env "/a/b_c.md" (filepath.Join ["/w"; BackupDirName]) collidingWorld
    = ((fA, None), collidingWorld) /\
    prepareFileForProcessing env "/a_b/c.md" (filepath.Join ["/w"; BackupDirName]) collidingWorld
    = ((fB, None), collidingWorld) /\
    Path fA <> Path fB /\
    BackupPath fA = BackupPath fB /\
    forall w', backupAllFiles env [fA; fB] collidingWorld = (None, w') ->
               files w' !! BackupPath fA = Some "two".
Proof.
  intros env.
  destruct (flattened_backups_collide env ["w"] "a" "b" "c.md" "one" "two" collidingWorld)
    as (fA & fB & HA & HB & _ & _ & Hdiff & Hsame & Hlost).
  - reflexivity.
  - repeat constructor.
  - repeat constructor.
  - reflexivity.
  - reflexivity.
  - reflexivity.
  - exists fA, fB. repeat split; assumption.
Defined.

(** ** The backup phase when it succeeds *)

Lemma backupFrom_succeeds_iff env total fs :
  forall i w, (backupFrom env total i fs w).1 = None <-> Forall (backsUp env) fs.
Proof.
  induction fs as [|f fs IH]; intros i w.
  - simpl. split; [constructor|done].
  - simpl. run. rewrite Forall_cons. unfold backsUp at 1.
    destruct (MkdirAll_err env (filepath.Dir (BackupPath f))) as [e|] eqn:Hdir.
    + simpl. split; [done|]. by intros [[Hd _] _].
    + destruct (WriteFile_outcome env (BackupPath f) (Content f)) eqn:Hw; simpl.
      * rewrite IH. split; [by intros H|by intros [_ H]].
      * split; [done|]. by intros [[_ Hc] _].
      * split; [done|]. by intros [[_ Hc] _].
      * split; [done|]. by intros [[_ Hc] _].
Qed.

(** X5.  [backupAllFiles] returns no error exactly when, for every task,
    the backup directory can be created and the write of the backup file
    completes.  Then every backup destination holds the content of the last
    task written there, whatever it held before: the content of its own
    task when no later task shares the destination. *)
Theorem backupAllFiles_succeeds_iff env fs w :
  let '(err, w') := backupAllFiles env fs w in
  (err = None <-> Forall (backsUp env) fs) /\
  (err = None ->
   files w' = backedUp fs (files w) /\
   forall pre g post, fs = pre ++ g :: post -> BackupPath g ∉ BackupPath <$> post ->
                      files w' !! BackupPath g = Some (Content g)).
Proof.
  destruct (backupAllFiles env fs w) as [err w'] eqn:H. split.
  - pose proof (backupFrom_succeeds_iff env (length fs) fs 0 w) as Hiff.
    unfold backupAllFiles in H. by rewrite H in Hiff.
  - intros ->. unfold backupAllFiles in H.
    apply backupFrom_spec in H as (_ & _ & _ & Hfiles). split; [done|].
    intros pre g post -> Hfresh. rewrite Hfiles. by apply backedUp_in_place.
Qed.

(** ** Collections that fail *)

(** The entries before the first failing one are walked without effect on
    the outcome. *)
Lemma walkNames_first_failure env dirPath backupBaseDir recursive path pre bad post msg :
  (Getwd env).2 = None ->
  forall acc w,
    Forall (fun child =>
              collectable (files w) recursive dirPath
                (filepath.Join [path; Name (info_of child)]) child = true) pre ->
    (forall acc0, exists acc1,
       walk (walkFunc env dirPath backupBaseDir recursive)
            (filepath.Join [path; Name (info_of bad)]) bad acc0 w
       = ((Some (Failure msg), acc1), w)) ->
    exists acc',
      walkNames (walk (walkFunc env dirPath backupBaseDir recursive)) path
                (pre ++ bad :: post) acc w
      = ((Some (Failure msg), acc'), w).
Proof.
  intros Hwd acc w Hpre Hbad. revert acc.
  induction Hpre as [|child pre Hchild _ IH]; intros acc.
  - simpl. unfold bind. destruct (Hbad acc) as [acc1 ->].
    replace (negb (IsDir (info_of bad)) || negb (is_SkipDir (Failure msg))) with true
      by (by destruct (IsDir (info_of bad))).
    run. eauto.
  - simpl. unfold bind at 1.
    destruct (walk_succeeds env dirPath backupBaseDir recursive child
                (filepath.Join [path; Name (info_of child)]) acc w Hwd Hchild)
      as (r & acc1 & Hwalk & Hr).
    rewrite Hwalk. destruct Hr as [->| ->].
    + apply IH.
    + destruct (walk_selected _ _ _ _ _ _ _ _ _ _ _ Hwalk) as (_ & _ & Hdir & _).
      rewrite Hdir. simpl. apply IH.
Qed.

Lemma collect_first_failure env dirPath backupBaseDir recursive name pre bad post msg w :
  Stat env dirPath = (Directory name None (pre ++ bad :: post), None) ->
  (Getwd env).2 = None ->
  Forall (fun child =>
            collectable (files w) recursive dirPath
              (filepath.Join [dirPath; Name (info_of child)]) child = true) pre ->
  (forall acc0, exists acc1,
     walk (walkFunc env dirPath backupBaseDir recursive)
          (filepath.Join [dirPath; Name (info_of bad)]) bad acc0 w
     = ((Some (Failure msg), acc1), w)) ->
  collectFilesFromDir env dirPath backupBaseDir recursive w
  = (([], Some ("error walking directory: " +:+ msg)), w).
Proof.
  intros Hstat Hwd Hpre Hbad.
  destruct (walkNames_first_failure env dirPath backupBaseDir recursive dirPath
              pre bad post msg Hwd [] w Hpre Hbad) as [acc' Hloop].
  unfold collectFilesFromDir, Walk. rewrite Hstat. unfold bind at 1. unfold bind at 1.
  cbn [walk]. unfold bind at 1. unfold walkFunc at 1. cbn [info_of IsDir].
  rewrite String.eqb_refl, andb_false_r. unfold ret at 1. rewrite Hloop. done.
Qed.

(** X6.  A subdirectory that cannot be listed makes the whole collection
    fail, with or without [-r]: [filepath.Walk] hands the listing error to
    the callback, which returns it before it looks at [recursive].  The
    files collected before it are dropped, and the error is the listing
    error behind "error walking directory: ". *)
Theorem unreadable_subdirectory_fails_collection
    env dirPath backupBaseDir recursive name pre sub e below post w :
  Stat env dirPath
  = (Directory name None (pre ++ Directory sub (Some e) below :: post), None) ->
  (Getwd env).2 = None ->
  Forall (fun child =>
            collectable (files w) recursive dirPath
              (filepath.Join [dirPath; Name (info_of child)]) child = true) pre ->
  collectFilesFromDir env dirPath backupBaseDir recursive w
  = (([], Some ("error walking directory: " +:+ e)), w).
Proof.
  intros Hstat Hwd Hpre.
  apply (collect_first_failure env dirPath backupBaseDir recursive name pre
           (Directory sub (Some e) below) post e w Hstat Hwd Hpre).
  intros acc0. exists acc0. cbn [walk]. unfold bind, walkFunc. by run.
Qed.

Lemma unreadable_subdirectory_fails_collection_witness :
  let env := sampleEnv lockedStat (fun _ => None) (fun _ _ => WriteCompletes) answers in
  collectFilesFromDir env "vault" "/w/backup" false lockedWorld
  = (([], Some "error walking directory: open vault/private: permission denied"), lockedWorld).
Proof.
  intros env.
  refine (unreadable_subdirectory_fails_collection env "vault" "/w/backup" false "vault"
            [File "a.md"] "private" "open vault/private: permission denied" []
            [File "z.md"] lockedWorld _ _ _).
  - reflexivity.
  - reflexivity.
  - repeat constructor.
Defined.



(** ** The retry loop in time *)








Lemma retryFrom_unsent env content m remaining :
  failsUnsent env content m ->
  forall attempt lastErr w,
    exists w',
      retryFrom env content remaining attempt lastErr w
      = (("", Some ("max retries exceeded: "
                    +:+ fmt_v (match remaining with O => lastErr | S _ => Some m end))), w') /\
      files w' = files w /\ calls w' = calls w /\
      exists t, trace w' = trace w ++ t /\
                length (attempts t) = remaining /\ length (sleeps t) = remaining /\
                Forall (fun e => isRetryEvent e = true) t.
Proof.
  intros Hfail. induction remaining as [|remaining IH]; intros attempt lastErr w.
  - eexists. simpl. run. split; [done|]. split; [done|]. split; [done|].
    exists []. rewrite app_nil_r. by repeat split.
  - cbn [retryFrom]. unfold bind at 1. rewrite Hfail. run.
    match goal with |- context [retryFrom _ _ _ _ _ ?x] => set (w3 := x) end.
    destruct (IH (S attempt) (Some m) w3) as (w' & Hrun & Hf & Hc & t & Ht & Ha & Hs & Hre).
    exists w'. split.
    + rewrite Hrun. by destruct remaining.
    + split; [done|]. split; [done|].
      eexists (_ :: _ :: t). split; [rewrite Ht; subst w3; simpl; by rewrite <- !app_assoc|].
      unfold attempts, sleeps in *. rewrite !filter_cons. simpl. rewrite Ha, Hs.
      repeat split; try done. by repeat constructor.
Qed.

(** X9.  The loop retries whatever the error is.  When no request can be
    created (the configured URL does not parse), it still makes
    [MaxRetries] attempts and sleeps after each, sends nothing, changes no
    file, and returns the last error behind "max retries exceeded: ". *)
Theorem unsendable_request_is_retried env content json e w :
  Marshal env (mkGeminiRequest [mkContent "user" [mkPart SystemPrompt; mkPart content]])
  = (json, None) ->
  NewRequest_err env (GeminiAPIURL env +:+ "?key=" +:+ GeminiAPIKey env) = Some e ->
  exists w' t,
    processWithGeminiRetry env content w
    = (("", Some ("max retries exceeded: error creating request: " +:+ e)), w') /\
    files w' = files w /\ calls w' = calls w /\
    trace w' = trace w ++ t /\
    Forall (fun ev => isRetryEvent ev = true) t /\
    length (attempts t) = MaxRetries /\ length (sleeps t) = MaxRetries.
Proof.
  intros Hjson Hreq.
  assert (Hfail : failsUnsent env content ("error creating request: " +:+ e)).
  { intros w0. unfold processWithGemini. by rewrite Hjson, Hreq. }
  destruct (retryFrom_unsent env content _ MaxRetries Hfail 0%nat None w)
    as (w' & Hrun & Hf & Hc & t & Ht & Ha & Hs & Hre).
  exists w', t. unfold processWithGeminiRetry. rewrite Hrun. by repeat split.
Qed.

Lemma unsendable_request_is_retried_witness :
  exists w' t,
    processWithGeminiRetry badURL "text" emptyWorld
    = (("", Some ("max retries exceeded: error creating request: "
                  +:+ "parse ht tp://api.example/generate?key=key: first path segment in URL cannot contain colon")), w') /\
    calls w' = 0%nat /\
    trace w' = t /\
    length (sleeps t) = 5%nat.
Proof.
  destruct (unsendable_request_is_retried badURL "text" "text"
              "parse ht tp://api.example/generate?key=key: first path segment in URL cannot contain colon"
              emptyWorld eq_refl eq_refl)
    as (w' & t & Hrun & _ & Hcalls & Ht & _ & _ & Hs).
  exists w', t. split; [exact Hrun|]. split; [exact Hcalls|]. split; [exact Ht|exact Hs].
Defined.

(** ** What is written back *)

Lemma processWithGemini_ok env content w res w' :
  processWithGemini env content w = ((res, None), w') ->
  answeredWith env content res /\ calls w' = S (calls w).
Proof.
  unfold processWithGemini, answeredWith. fold (requestFor content). fold (apiURL env).
  intros H.
  destruct (Marshal env (requestFor content)) as [json [e|]] eqn:Hjson; [by run|].
  destruct (NewRequest_err env (apiURL env)) as [e|] eqn:Hreq; [by run|].
  unfold bind, client_Do in H.
  destruct (Do env (calls w) (apiURL env) json) as [resp [e|]] eqn:Hdo; [by run|].
  destruct (Body resp) as [body [e|]] eqn:Hbody; [by run|].
  destruct (Z.eqb_spec (StatusCode resp) StatusOK) as [Hok|Hbad]; [|by run].
  cbn [negb] in H.
  destruct (Unmarshal env body) as [geminiResp [e|]] eqn:Hparse; [by run|].
  destruct (Candidates geminiResp) as [|candidate candidates] eqn:Hc; [by run|].
  destruct (Parts (CandidateContent candidate)) as [|part parts] eqn:Hp; [by run|].
  run. inversion H; subst; clear H. simpl. split; [|done].
  exists (calls w), json, resp, body, geminiResp, candidate, candidates, part, parts.
  by repeat split.
Qed.

(** X10.  Whatever [processFileContent] writes, it writes to the source
    path, and the data is the text of the first part of the first candidate
    of a response with status 200 to the request built from the file's
    content: the body of an error response, or a result of an attempt that
    failed, is never written.  When it returns [true] it has written. *)
Theorem written_text_is_an_answer env fi w :
  let '(ok, w') := processFileContent env fi w in
  exists t,
    trace w' = trace w ++ t /\
    (ok = true -> exists data, EvWriteFile (Path fi) data ∈ t) /\
    forall name data, EvWriteFile name data ∈ t ->
      name = Path fi /\ answeredWith env (Content fi) data.
Proof.
  unfold processFileContent, bind at 1.
  destruct (processWithGeminiRetry env (Content fi) w) as [[out err] w1] eqn:H.
  unfold processWithGeminiRetry in H.
  pose proof (retryFrom_shape _ _ _ _ _ _ _ _ _ H) as (_ & rounds & t1 & Ht & _ & Htr & _).
  assert (Hnone : forall name data, EvWriteFile name data ∉ t1).
  { intros name data Hin. rewrite Forall_forall in Htr. by apply Htr in Hin. }
  destruct err as [m|].
  - run. eexists (t1 ++ [_]). rewrite Ht, <- app_assoc. split; [done|]. split; [done|].
    intros name data Hin. apply elem_of_app in Hin as [Hin|Hin]; [by apply Hnone in Hin|].
    apply list_elem_of_singleton in Hin. discriminate.
  - apply retryFrom_success in H as (w0 & w2 & Hcall).
    apply processWithGemini_ok in Hcall as [Hans _].
    unfold bind at 1.
    destruct (os.WriteFile env (Path fi) out w1) as [e w3] eqn:Hwrite.
    apply WriteFile_effect in Hwrite as (Ht3 & _).
    assert (Hin_t : forall rest name data,
               EvWriteFile name data ∈ t1 ++ EvWriteFile (Path fi) out :: rest ->
               Forall (fun ev => exists l, ev = EvPrint l) rest ->
               name = Path fi /\ answeredWith env (Content fi) data).
    { intros rest name data Hin Hrest.
      apply elem_of_app in Hin as [Hin|Hin]; [by apply Hnone in Hin|].
      apply elem_of_cons in Hin as [Heq|Hin]; [by inversion Heq; subst|].
      rewrite Forall_forall in Hrest. apply Hrest in Hin as [l Hl]. discriminate. }
    destruct e as [e|]; run.
    + eexists (t1 ++ [_; _]). rewrite Ht3, Ht, <- !app_assoc. split; [done|]. split; [done|].
      intros name data Hin. eapply Hin_t; [exact Hin|]. repeat constructor. eauto.
    + eexists (t1 ++ [_]). rewrite Ht3, Ht, <- !app_assoc. split; [done|]. split.
      * intros _. exists out. apply elem_of_app. right. by apply elem_of_cons; left.
      * intros name data Hin. eapply Hin_t; [exact Hin|]. constructor.
Qed.

(** ** The footprint of a run *)

Lemma sleeps_app t1 t2 : sleeps (t1 ++ t2) = sleeps t1 ++ sleeps t2.
Proof. unfold sleeps. apply filter_app. Qed.

(** What one call of [processFileContent] can change: the source file and
    nothing else, with at most [MaxRetries] exchanges and sleeps. *)
Lemma processFileContent_effect env fi w ok w' :
  processFileContent env fi w = (ok, w') ->
  (forall p, p <> Path fi -> files w' !! p = files w !! p) /\
  (calls w' <= calls w + MaxRetries)%nat /\
  exists t, trace w' = trace w ++ t /\ (length (sleeps t) <= MaxRetries)%nat.
Proof.
  unfold processFileContent, bind at 1. intros H.
  destruct (processWithGeminiRetry env (Content fi) w) as [[out err] w1] eqn:Hretry.
  unfold processWithGeminiRetry in Hretry.
  apply retryFrom_shape in Hretry
    as (Hfiles & rounds & t & Ht & Hre & _ & _ & Hcalls & _ & Hend).
  assert (Hsl : length (sleeps t) = length rounds).
  { rewrite <- sleeps_retryEvents, Hre, sleeps_app, sleeps_rounds, length_app, length_map.
    destruct err as [m|]; [simpl; lia|].
    change (sleeps [EvAttempt out None]) with (@nil Event). simpl. lia. }
  assert (Hbudget : (length rounds + match err with None => 1 | Some _ => 0 end
                     <= MaxRetries)%nat).
  { destruct err as [m|]; [destruct Hend as (-> & _)|]; lia. }
  destruct err as [m|].
  - run. inversion H; subst; clear H. simpl.
    split; [intros p _; by rewrite Hfiles|]. split; [lia|].
    eexists (t ++ [_]). rewrite Ht, <- app_assoc. split; [done|].
    rewrite sleeps_app, length_app. unfold sleeps at 2. rewrite filter_cons. simpl. lia.
  - unfold bind at 1 in H.
    destruct (os.WriteFile env (Path fi) out w1) as [e w2] eqn:Hwrite.
    apply WriteFile_effect in Hwrite as (Ht2 & Hc2 & _ & Hother & _).
    assert (Hkeep : forall p, p <> Path fi -> files w2 !! p = files w !! p).
    { intros p Hp. by rewrite Hother, Hfiles. }
    destruct e as [e|]; run; inversion H; subst; clear H; simpl.
    + split; [done|]. split; [lia|].
      eexists (t ++ [_; _]). rewrite Ht2, Ht, <- !app_assoc. split; [done|].
      rewrite sleeps_app, length_app. unfold sleeps at 2. rewrite !filter_cons. simpl. lia.
    + split; [done|]. split; [lia|].
      eexists (t ++ [_]). rewrite Ht2, Ht, <- !app_assoc. split; [done|].
      rewrite sleeps_app, length_app. unfold sleeps at 2. rewrite !filter_cons. simpl. lia.
Qed.

Lemma worker_is_task r i fi g :
  workers r !! i = Some (fi, g) -> Path fi ∈ Path <$> tasks r.
Proof.
  intros Hi. unfold tasks. rewrite fmap_app. apply elem_of_app. left.
  apply list_elem_of_fmap. exists fi. split; [done|].
  apply list_elem_of_fmap. exists (fi, g). split; [done|].
  by apply list_elem_of_lookup_2 in Hi.
Qed.

Lemma step_footprint env w0 c r r' :
  footprint w0 r -> step env c r = Some r' -> footprint w0 r'.
Proof.
  intros (Hfiles & Hcalls & Hsleeps) Hstep.
  pose proof (step_tasks _ _ _ _ Hstep) as Htasks.
  unfold footprint. rewrite Htasks.
  remember MaxRetries as K eqn:HK in *.
  assert (HK' : (MaxRetries <= K)%nat) by (by subst K). clear HK.
  destruct c as [|i]; simpl in Hstep.
  - unfold stepMain in Hstep. destruct (toSpawn r) as [|fi rest].
    + destruct ((wg r =? 0)%Z && negb (finished r)); [|done].
      destruct (Finish (statusBar r)) as [bar line]. inversion Hstep; subst; clear Hstep.
      unfold countWorkers in *. simpl.
      split; [exact Hfiles|split; [exact Hcalls|exact Hsleeps]].
    + inversion Hstep; subst; clear Hstep. unfold countWorkers in *. simpl.
      rewrite sum_list_with_app. simpl. rewrite !Nat.add_0_r.
      split; [exact Hfiles|split; [exact Hcalls|exact Hsleeps]].
  - unfold stepWorker in Hstep.
    destruct (workers r !! i) as [[fi g]|] eqn:Hi; [|done].
    destruct g as [| |ok| | |]; try done.
    + destruct (Acquire (apiSemaphore r)) as [sem|]; [|done].
      inversion Hstep; subst; clear Hstep.
      pose proof (countWorkers_move hasProcessed i fi Spawned Acquired r (world r) sem
                    (statusBar r) (lines r) (wg r) Hi) as Hmove.
      simpl in *. rewrite !Nat.add_0_r in Hmove. rewrite Hmove.
      split; [exact Hfiles|split; [exact Hcalls|exact Hsleeps]].
    + destruct (processFileContent env fi (world r)) as [ok w'] eqn:Hp.
      inversion Hstep; subst; clear Hstep.
      apply processFileContent_effect in Hp as (Hother & Hc & t & Ht & Hs).
      pose proof (countWorkers_move hasProcessed i fi Acquired (Processed ok) r w'
                    (apiSemaphore r) (statusBar r) (lines r) (wg r) Hi) as Hmove.
      simpl in *. rewrite Nat.add_0_r in Hmove. rewrite Hmove.
      split; [|split].
      * intros p Hp. rewrite Hother; [by apply Hfiles|].
        intros ->. apply Hp. by eapply worker_is_task.
      * lia.
      * rewrite Ht, sleeps_app, length_app. lia.
    + destruct (if ok then _ else _) as [bar line].
      inversion Hstep; subst; clear Hstep.
      pose proof (countWorkers_move hasProcessed i fi (Processed ok) Reported r (world r)
                    (apiSemaphore r) bar (lines r ++ [line]) (wg r) Hi) as Hmove.
      simpl in *. assert (Heq := Hmove). apply Nat.add_cancel_r in Heq. rewrite Heq.
      split; [exact Hfiles|split; [exact Hcalls|exact Hsleeps]].
    + destruct (Release (apiSemaphore r)) as [sem|]; [|done].
      inversion Hstep; subst; clear Hstep.
      pose proof (countWorkers_move hasProcessed i fi Reported Released r (world r) sem
                    (statusBar r) (lines r) (wg r) Hi) as Hmove.
      simpl in *. assert (Heq := Hmove). apply Nat.add_cancel_r in Heq. rewrite Heq.
      split; [exact Hfiles|split; [exact Hcalls|exact Hsleeps]].
    + inversion Hstep; subst; clear Hstep.
      pose proof (countWorkers_move hasProcessed i fi Released Done r (world r)
                    (apiSemaphore r) (statusBar r) (lines r) (wg r - 1) Hi) as Hmove.
      simpl in *. assert (Heq := Hmove). apply Nat.add_cancel_r in Heq. rewrite Heq.
      split; [exact Hfiles|split; [exact Hcalls|exact Hsleeps]].
Qed.

Lemma play_footprint env schedule :
  forall w0 r r', footprint w0 r -> play env schedule r = Some r' -> footprint w0 r'.
Proof.
  induction schedule as [|c schedule IH]; intros w0 r r' Hr Hplay; simpl in Hplay.
  - by inversion Hplay; subst.
  - destruct (step env c r) as [r1|] eqn:Hstep; [|done].
    eapply IH; [|exact Hplay]. by eapply step_footprint.
Qed.

Lemma start_footprint fs w : footprint w (start fs w).
Proof. unfold footprint, start, countWorkers. simpl. repeat split; try done; lia. Qed.

(** From the start of a run, the footprint is relative to the batch. *)
Lemma run_footprint env schedule fs w r :
  play env schedule (start fs w) = Some r ->
  footprint w r /\ tasks r = fs /\ (countWorkers hasProcessed r <= length fs)%nat.
Proof.
  intros Hplay.
  pose proof (play_footprint env schedule w _ _ (start_footprint fs w) Hplay) as Hfoot.
  destruct (play_invariant env schedule _ _ (initial_invariant fs w) Hplay)
    as (_ & Htasks & _).
  split; [done|]. split; [done|].
  etrans; [apply countWorkers_le|].
  replace fs with (tasks (start fs w)) at 1 by done. rewrite <- Htasks, length_tasks. lia.
Qed.

(** When [backupThenProcess] goes on to the processing phase, every backup
    has been written and nothing else has happened. *)
Lemma backupThenProcess_FanOut env fs w fs' w' :
  backupThenProcess env fs w = (FanOut fs', w') ->
  fs' = fs /\ files w' = backedUp fs (files w) /\ calls w' = calls w /\
  exists t, trace w' = trace w ++ t /\ Forall (fun e => isTransform e = false) t.
Proof.
  unfold backupThenProcess, bind at 1. intros H.
  destruct (Println "=== Creating Backups ===" w) as [[] w0] eqn:Hp.
  assert (Hw0 : w0 = mkWorld (files w) (trace w ++ [EvPrint "=== Creating Backups ==="])
                             (calls w) (draws w)) by (run; by inversion Hp).
  unfold bind at 1 in H.
  destruct (backupAllFiles env fs w0) as [err w1] eqn:Hb.
  unfold backupAllFiles in Hb.
  apply backupFrom_spec in Hb as (Hc & _ & (t & Ht & Hnt) & Hfin).
  destruct err as [m|]; run; inversion H; subst; clear H. simpl in *.
  split; [done|]. split; [done|]. split; [done|].
  eexists (_ :: t ++ [_]). rewrite Ht, <- !app_assoc. split; [done|].
  constructor; [done|]. apply Forall_app; split; [done|]. by repeat constructor.
Qed.

Lemma main_FanOut env args recursive w fs w1 :
  (forall path entry, Stat env path = (entry, None) -> properBelow entry = true) ->
  main env args recursive w = (FanOut fs, w1) ->
  fs <> [] /\ Forall (preparedTask (files w)) fs /\
  files w1 = backedUp fs (files w) /\ calls w1 = calls w /\
  exists t, trace w1 = trace w ++ t /\ Forall (fun e => isTransform e = false) t.
Proof.
  intros Hwf Hmain.
  destruct (main_hands_over_prepared_tasks env args recursive w Hwf)
    as (t & Ht & [[code Hexit]|(fs0 & Hne & Hfs & Hrun)]).
  - rewrite Hexit in Hmain. discriminate.
  - rewrite Hrun in Hmain.
    apply backupThenProcess_FanOut in Hmain as (-> & Hfiles & Hcalls & t2 & Ht2 & Hnt).
    simpl in *. split; [done|]. split; [done|]. split; [done|]. split; [done|].
    exists (t ++ t2). rewrite Ht2, <- app_assoc. split; [done|].
    apply Forall_app. split; [|done].
    eapply Forall_impl; [exact Ht|]. by intros e [line ->].
Qed.

(** A prepared task's source is no task's backup destination. *)
Lemma prepared_source_not_backup m fs g :
  Forall (preparedTask m) fs -> g ∈ fs -> Path g ∉ BackupPath <$> fs.
Proof.
  intros Hfs Hg Hin. apply list_elem_of_fmap in Hin as (g' & Heq & Hg').
  rewrite Forall_forall in Hfs.
  destruct (Hfs g Hg) as (Hmd & _). destruct (Hfs g' Hg') as (_ & Hbak & _).
  congruence.
Qed.

Lemma prepared_backup_not_source m fs g :
  Forall (preparedTask m) fs -> g ∈ fs -> BackupPath g ∉ Path <$> fs.
Proof.
  intros Hfs Hg Hin. apply list_elem_of_fmap in Hin as (g' & Heq & Hg').
  rewrite Forall_forall in Hfs.
  destruct (Hfs g Hg) as (_ & Hbak & _). destruct (Hfs g' Hg') as (Hmd & _).
  congruence.
Qed.

Lemma notesStat_proper path entry :
  notesStat path = (entry, None) -> properBelow entry = true.
Proof.
  unfold notesStat. destruct (String.eqb path "notes"); [|discriminate].
  intros H. by inversion H.
Qed.

(** X11.  When [main] goes on to start the workers, the batch is not
    empty, no request has been sent and no transform event has occurred;
    only backup destinations differ from the initial state; every task is a
    Markdown file whose source still holds the content recorded in the
    task; and every backup destination that no later task shares holds
    that content. *)
Theorem main_backs_up_before_processing env args recursive w fs w1 :
  (forall path entry, Stat env path = (entry, None) -> properBelow entry = true) ->
  main env args recursive w = (FanOut fs, w1) ->
  fs <> [] /\
  calls w1 = calls w /\
  (exists t, trace w1 = trace w ++ t /\ Forall (fun e => isTransform e = false) t) /\
  (forall p, p ∉ BackupPath <$> fs -> files w1 !! p = files w !! p) /\
  (forall g, g ∈ fs ->
     isMarkdown (Path g) = true /\
     files w !! Path g = Some (Content g) /\
     files w1 !! Path g = Some (Content g)) /\
  (forall pre g post, fs = pre ++ g :: post -> BackupPath g ∉ BackupPath <$> post ->
     files w1 !! BackupPath g = Some (Content g)).
Proof.
  intros Hwf Hmain.
  apply main_FanOut in Hmain as (Hne & Hfs & Hfiles & Hcalls & Htrace); [|done].
  split; [done|]. split; [done|]. split; [done|]. split; [|split].
  - intros p Hp. rewrite Hfiles. by apply backedUp_other.
  - intros g Hg. pose proof Hfs as Hall. rewrite Forall_forall in Hall.
    destruct (Hall g Hg) as (Hmd & Hbak & Hsrc).
    split; [done|]. split; [done|].
    rewrite Hfiles, backedUp_other; [done|]. by eapply prepared_source_not_backup.
  - intros pre g post -> Hfresh. rewrite Hfiles. by apply backedUp_in_place.
Qed.

Lemma main_backs_up_before_processing_witness :
  let result := main notesEnv ["notes"] false notesWorld in
  result.1 = FanOut notesTasks /\
  calls result.2 = 0%nat /\
  (forall g, g ∈ notesTasks -> files result.2 !! Path g = Some (Content g)) /\
  (forall pre g post, notesTasks = pre ++ g :: post ->
     BackupPath g ∉ BackupPath <$> post ->
     files result.2 !! BackupPath g = Some (Content g)).
Proof.
  intros result.
  assert (Hmain : main notesEnv ["notes"] false notesWorld = (FanOut notesTasks, result.2))
    by (vm_compute; reflexivity).
  pose proof (main_backs_up_before_processing notesEnv ["notes"] false notesWorld
                notesTasks result.2 notesStat_proper Hmain)
    as (_ & Hcalls & _ & _ & Hsrc & Hbak).
  split; [vm_compute; reflexivity|]. 
  split; [exact Hcalls|]. 
  split; [intros g Hg; by apply Hsrc|exact Hbak].
Defined.

(** X12.  In every state the workers can reach after [main] has started
    them, under any schedule, the backup of a task (unless a later task
    shares its destination) holds the content its source had when the
    program started. *)
Theorem backups_hold_originals_throughout env args recursive w fs w1 schedule r :
  (forall path entry, Stat env path = (entry, None) -> properBelow entry = true) ->
  main env args recursive w = (FanOut fs, w1) ->
  play env schedule (start fs w1) = Some r ->
  forall pre g post, fs = pre ++ g :: post -> BackupPath g ∉ BackupPath <$> post ->
    files w !! Path g = Some (Content g) /\
    files (world r) !! BackupPath g = Some (Content g).
Proof.
  intros Hwf Hmain Hplay pre g post Hsplit Hfresh.
  apply main_FanOut in Hmain as (Hne & Hfs & Hfiles & _); [|done].
  assert (Hg : g ∈ fs).
  { rewrite Hsplit. apply elem_of_app. right. apply elem_of_cons. by left. }
  pose proof Hfs as Hall. rewrite Forall_forall in Hall.
  destruct (Hall g Hg) as (_ & _ & Hsrc). split; [done|].
  apply run_footprint in Hplay as ((Hkeep & _) & Htasks & _). rewrite Htasks in Hkeep.
  rewrite Hkeep by (by eapply prepared_backup_not_source).
  rewrite Hfiles, Hsplit. by apply backedUp_in_place.
Qed.

Lemma backups_hold_originals_throughout_witness :
  let result := main notesEnv ["notes"] false notesWorld in
  exists r,
    result.1 = FanOut notesTasks /\
    play notesEnv firstFileOnly (start notesTasks result.2) = Some r /\
    files notesWorld !! "notes/a.md" = Some "A" /\
    files (world r) !! "notes/a.md" = Some "# A" /\
    files (world r) !! "/w/backup/notes/a.md.bak" = Some "A".
Proof.
  intros result.
  assert (Hmain : main notesEnv ["notes"] false notesWorld = (FanOut notesTasks, result.2))
    by (vm_compute; reflexivity).
  destruct (play notesEnv firstFileOnly (start notesTasks result.2)) as [r|] eqn:Hplay;
    [|vm_compute in Hplay; discriminate].
  exists r. split; [vm_compute; reflexivity|]. split; [done|].
  destruct (backups_hold_originals_throughout notesEnv ["notes"] false notesWorld
              notesTasks result.2 firstFileOnly r notesStat_proper Hmain Hplay
              [] (mkFileToProcess "notes/a.md" "A" "/w/backup/notes/a.md.bak")
              (tail notesTasks) eq_refl) as [Hsrc Hbackup].
  { intros Hin. vm_compute in Hin.
    by repeat (apply elem_of_cons in Hin as [Hin|Hin]; [discriminate|]);
      apply elem_of_nil in Hin. }
  split; [exact Hsrc|]. split; [|exact Hbackup].
  vm_compute in Hplay. injection Hplay as <-. vm_compute. reflexivity.
Defined.

(** X13.  In every state of a run, a path that is not the source of a
    task holds what it held when the run started. *)
Theorem workers_write_sources_only env fs w schedule r p :
  play env schedule (start fs w) = Some r ->
  p ∉ Path <$> fs ->
  files (world r) !! p = files w !! p.
Proof.
  intros Hplay Hp.
  apply run_footprint in Hplay as ((Hkeep & _) & Htasks & _).
  apply Hkeep. by rewrite Htasks.
Qed.

Lemma workers_write_sources_only_witness :
  exists r,
    play plainEnv (oneByOne 4) (start fourFiles batchWorld) = Some r /\
    files (world r) !! "/w/backup/a.md.bak" = files batchWorld !! "/w/backup/a.md.bak" /\
    files (world r) !! "a.md" = Some "# A".
Proof.
  destruct (play plainEnv (oneByOne 4) (start fourFiles batchWorld)) as [r|] eqn:Hplay;
    [|vm_compute in Hplay; discriminate].
  exists r. split; [done|]. split.
  - apply (workers_write_sources_only plainEnv fourFiles batchWorld (oneByOne 4) r _ Hplay).
    intros Hin. vm_compute in Hin.
    by repeat (apply elem_of_cons in Hin as [Hin|Hin]; [discriminate|]);
      apply elem_of_nil in Hin.
  - vm_compute in Hplay. inversion Hplay; subst r. vm_compute. reflexivity.
Defined.

(** X14.  A run of [N] tasks starts at most [MaxRetries * N] exchanges
    and sleeps at most [MaxRetries * N] times, under any schedule. *)
Theorem run_request_budget env fs w schedule r :
  play env schedule (start fs w) = Some r ->
  (calls (world r) <= calls w + MaxRetries * length fs)%nat /\
  (length (sleeps (trace (world r)))
   <= length (sleeps (trace w)) + MaxRetries * length fs)%nat.
Proof.
  intros Hplay.
  apply run_footprint in Hplay as ((_ & Hcalls & Hsleeps) & _ & Hlen).
  assert (Hmax : (MaxRetries * countWorkers hasProcessed r <= MaxRetries * length fs)%nat)
    by (by apply Nat.mul_le_mono_l).
  split; lia.
Qed.

Lemma run_request_budget_witness :
  let env := sampleEnv noEntry (fun _ => None) (fun _ _ => WriteCompletes) timesOut in
  exists r,
    play env (oneByOne 4) (start fourFiles batchWorld) = Some r /\
    calls (world r) = 20%nat /\
    (calls (world r) <= calls batchWorld + MaxRetries * length fourFiles)%nat /\
    (length (sleeps (trace (world r)))
     <= length (sleeps (trace batchWorld)) + MaxRetries * length fourFiles)%nat.
Proof.
  intros env.
  destruct (play env (oneByOne 4) (start fourFiles batchWorld)) as [r|] eqn:Hplay;
    [|vm_compute in Hplay; discriminate].
  exists r. split; [done|].
  pose proof (run_request_budget env fourFiles batchWorld (oneByOne 4) r Hplay) as Hbudget.
  split; [|exact Hbudget].
  vm_compute in Hplay. inversion Hplay; subst r. vm_compute. reflexivity.
Defined.

Lemma processFileContent_served env answer f w :
  serves env answer f ->
  exists w', processFileContent env f w = (true, w') /\
             files w' = <[Path f := answer (Content f)]> (files w).
Proof.
  intros [Hans Hwrite]. destruct (Hans w) as [w1 Hcall].
  pose proof (processWithGemini_effect _ _ _ _ _ _ Hcall) as (Hfiles & _).
  unfold processFileContent, processWithGeminiRetry, MaxRetries.
  cbn [retryFrom]. unfold bind at 1. unfold bind at 1. rewrite Hcall.
  run. rewrite Hwrite. simpl. eexists. split; [done|]. simpl. by rewrite Hfiles.
Qed.

Lemma play_barInvariant env N schedule :
  (N <= maxInt)%Z ->
  forall r r', schedulerInvariant r -> barInvariant N r ->
               play env schedule r = Some r' -> barInvariant N r'.
Proof.
  intros HN. induction schedule as [|c schedule IH]; intros r r' Hs Hb Hplay; simpl in Hplay.
  - by inversion Hplay; subst.
  - destruct (step env c r) as [r1|] eqn:Hstep; [|done].
    apply (IH r1 r'); [by eapply step_invariant| |done].
    destruct c as [|i]; simpl in Hstep; [by eapply stepMain_bar|by eapply stepWorker_bar].
Qed.

Lemma start_barInvariant fs w : barInvariant (Z.of_nat (length fs)) (start fs w).
Proof. unfold barInvariant, start, countWorkers, tasks. simpl. by repeat split. Qed.

Lemma step_answered env answer c r r' :
  NoDup (Path <$> tasks r) ->
  (forall f, f ∈ tasks r -> serves env answer f) ->
  answered answer r -> step env c r = Some r' -> answered answer r'.
Proof.
  intros Hnodup Hserves [Hfailed Hworkers] Hstep.
  destruct c as [|i]; simpl in Hstep.
  - unfold stepMain in Hstep. destruct (toSpawn r) as [|fi rest].
    + destruct ((wg r =? 0)%Z && negb (finished r)); [|done].
      inversion Hstep; subst; clear Hstep. split; [done|]. exact Hworkers.
    + inversion Hstep; subst; clear Hstep. split; [done|]. simpl.
      intros j fj g Hj. apply lookup_app_Some in Hj as [Hj|[_ Hj]].
      * exact (Hworkers j fj g Hj).
      * apply list_lookup_singleton_Some in Hj as [_ Hj]. by inversion Hj.
  - unfold stepWorker in Hstep.
    destruct (workers r !! i) as [[fi g]|] eqn:Hi; [|done].
    assert (Hlookup : forall g' j fj gj,
               setWorker i fi g' r !! j = Some (fj, gj) ->
               (j = i /\ fj = fi /\ gj = g') \/ (j <> i /\ workers r !! j = Some (fj, gj))).
    { intros g' j fj gj Hj. unfold setWorker in Hj.
      destruct (decide (j = i)) as [->|Hne].
      - rewrite list_lookup_insert_eq in Hj by (by eapply lookup_lt_Some).
        inversion Hj; subst. by left.
      - rewrite list_lookup_insert_ne in Hj by done. by right. }
    pose proof (Hworkers i fi g Hi) as Hme.
    destruct g as [| |ok| | |]; try done.
    + destruct (Acquire (apiSemaphore r)) as [sem|]; [|done].
      inversion Hstep; subst; clear Hstep. split; [done|]. simpl.
      intros j fj gj Hj. apply Hlookup in Hj as [(-> & -> & ->)|[_ Hj]]; [done|].
      exact (Hworkers j fj gj Hj).
    + assert (Hfi : fi ∈ tasks r).
      { unfold tasks. apply elem_of_app. left. apply list_elem_of_fmap.
        exists (fi, Acquired). split; [done|]. by apply list_elem_of_lookup_2 in Hi. }
      destruct (processFileContent_served env answer fi (world r) (Hserves fi Hfi))
        as (w' & Hrun & Hfiles).
      rewrite Hrun in Hstep. inversion Hstep; subst; clear Hstep. split; [done|]. simpl.
      intros j fj gj Hj. apply Hlookup in Hj as [(-> & -> & ->)|[Hne Hj]].
      * split; [done|]. rewrite Hfiles. apply lookup_insert_eq.
      * assert (Hpath : Path fj <> Path fi).
        { intros Heq. apply Hne.
          unfold tasks in Hnodup. rewrite fmap_app in Hnodup.
          apply NoDup_app in Hnodup as (Hnd & _).
          eapply (NoDup_lookup _ j i (Path fj) Hnd).
          - rewrite !list_lookup_fmap, Hj. done.
          - rewrite !list_lookup_fmap, Hi. simpl. by rewrite Heq. }
        pose proof (Hworkers j fj gj Hj) as Hother.
        rewrite Hfiles. rewrite lookup_insert_ne by done. exact Hother.
    + destruct Hme as [-> Hfile]. simpl in Hstep.
      inversion Hstep; subst; clear Hstep. split; [done|]. simpl.
      intros j fj gj Hj. apply Hlookup in Hj as [(-> & -> & ->)|[_ Hj]]; [done|].
      exact (Hworkers j fj gj Hj).
    + destruct (Release (apiSemaphore r)) as [sem|]; [|done].
      inversion Hstep; subst; clear Hstep. split; [done|]. simpl.
      intros j fj gj Hj. apply Hlookup in Hj as [(-> & -> & ->)|[_ Hj]]; [done|].
      exact (Hworkers j fj gj Hj).
    + inversion Hstep; subst; clear Hstep. split; [done|]. simpl.
      intros j fj gj Hj. apply Hlookup in Hj as [(-> & -> & ->)|[_ Hj]]; [done|].
      exact (Hworkers j fj gj Hj).
Qed.

Lemma play_answered env answer schedule :
  forall r r',
    NoDup (Path <$> tasks r) ->
    (forall f, f ∈ tasks r -> serves env answer f) ->
    answered answer r -> play env schedule r = Some r' -> answered answer r'.
Proof.
  induction schedule as [|c schedule IH]; intros r r' Hnd Hserves Hr Hplay; simpl in Hplay.
  - by inversion Hplay; subst.
  - destruct (step env c r) as [r1|] eqn:Hstep; [|done].
    pose proof (step_tasks _ _ _ _ Hstep) as Htasks.
    apply (IH r1 r'); [by rewrite Htasks|by rewrite Htasks| |done].
    by eapply step_answered.
Qed.

Lemma answers_serve f :
  serves plainEnv (fun content => "# " +:+ content) f.
Proof.
  split; [|done]. intros w0. eexists. unfold processWithGemini. simpl.
  unfold client_Do, bind, ret. simpl. done.
Qed.

(** X15.  When the sources of the tasks are pairwise different and the
    environment answers every transform at the first attempt and completes
    every write-back, then under any schedule that runs to the end every
    source holds the answer to its original content, every other file is
    as before, and the status bar has counted [N] successes and no
    failure. *)
Theorem run_replaces_every_file env answer fs w schedule r :
  NoDup (Path <$> fs) ->
  (forall f, f ∈ fs -> serves env answer f) ->
  (Z.of_nat (length fs) <= maxInt)%Z ->
  play env schedule (start fs w) = Some r ->
  finished r = true ->
  (forall f, f ∈ fs -> files (world r) !! Path f = Some (answer (Content f))) /\
  (forall p, p ∉ Path <$> fs -> files (world r) !! p = files w !! p) /\
  statusBar r = mkStatusBar (Z.of_nat (length fs)) (Z.of_nat (length fs))
                            (Z.of_nat (length fs)) 0.
Proof.
  intros Hnd Hserves HN Hplay Hfin.
  destruct (play_invariant env schedule _ _ (initial_invariant fs w) Hplay)
    as (Hinv & Htasks & _).
  destruct Hinv as (_ & _ & _ & Hwg & Hdone). destruct (Hdone Hfin) as [Hnil Hzero].
  assert (Hall : Forall (fun fg => fg.2 = Done) (workers r)).
  { apply not_done_zero. unfold countWorkers in Hwg. lia. }
  assert (Hws : (workers r).*1 = fs).
  { unfold tasks in Htasks. rewrite Hnil, app_nil_r in Htasks. by rewrite Htasks. }
  assert (Hans : answered answer (start fs w)).
  { split; [done|]. intros i fi g Hi. by destruct i. }
  assert (Hstart : tasks (start fs w) = fs) by (unfold tasks, start; simpl; done).
  pose proof (play_answered env answer schedule (start fs w) r) as Hrun.
  rewrite Hstart in Hrun. destruct (Hrun Hnd Hserves Hans Hplay) as [Hfailed Hworkers].
  pose proof (play_barInvariant env _ schedule HN _ _ (initial_invariant fs w)
                (start_barInvariant fs w) Hplay)
    as (Htotal & Hsum & _ & _ & Hprocessed & _).
  split; [|split].
  - intros f Hf. rewrite <- Hws in Hf. apply list_elem_of_fmap in Hf as ([f' g] & -> & Hfg).
    apply list_elem_of_lookup_1 in Hfg as [i Hi].
    pose proof (Hworkers i f' g Hi) as Hfile.
    rewrite Forall_forall in Hall. apply list_elem_of_lookup_2 in Hi.
    specialize (Hall _ Hi). simpl in Hall. subst g. exact Hfile.
  - apply run_footprint in Hplay as ((Hkeep & _) & Hsame & _). by rewrite Hsame in Hkeep.
  - assert (Hcount : countWorkers hasReported r = length fs).
    { rewrite <- Hws, length_fmap. unfold countWorkers. clear -Hall.
      induction Hall as [|[fi g] ws Hd _ IH]; [done|]. simpl in *. subst g. simpl. lia. }
    rewrite Hcount in Hprocessed.
    destruct (statusBar r) as [t p s f]. simpl in *. f_equal; lia.
Qed.

Lemma run_replaces_every_file_witness :
  exists r,
    play plainEnv (oneByOne 4) (start fourFiles batchWorld) = Some r /\
    finished r = true /\
    (forall f, f ∈ fourFiles -> files (world r) !! Path f = Some ("# " +:+ Content f)) /\
    statusBar r = mkStatusBar 4 4 4 0.
Proof.
  destruct (play plainEnv (oneByOne 4) (start fourFiles batchWorld)) as [r|] eqn:Hplay;
    [|vm_compute in Hplay; discriminate].
  exists r. split; [done|].
  assert (Hfin : finished r = true).
  { pose proof Hplay as H. vm_compute in H. inversion H. reflexivity. }
  split; [done|].
  assert (Hnd : NoDup (Path <$> fourFiles)).
  { vm_compute. repeat constructor;
      intros Hin; by repeat (apply elem_of_cons in Hin as [Hin|Hin]; [discriminate|]);
        apply elem_of_nil in Hin. }
  assert (HN : (Z.of_nat (length fourFiles) <= maxInt)%Z) by (vm_compute; discriminate).
  destruct (run_replaces_every_file plainEnv (fun content => "# " +:+ content) fourFiles
              batchWorld (oneByOne 4) r Hnd (fun f _ => answers_serve f) HN Hplay Hfin)
    as (Hfiles & _ & Hbar).
  split; [exact Hfiles|exact Hbar].
Defined.

Lemma processFileContent_refused env f w :
  refused env f ->
  exists w', processFileContent env f w = (false, w') /\ files w' = files w.
Proof.
  intros Hfail. unfold processFileContent, bind at 1.
  destruct (processWithGeminiRetry env (Content f) w) as [[out err] w1] eqn:H.
  unfold processWithGeminiRetry in H.
  pose proof (retryFrom_shape _ _ _ _ _ _ _ _ _ H) as (Hfiles & _).
  destruct err as [m|].
  - run. eexists. split; [done|]. done.
  - apply retryFrom_success in H as (w0 & w2 & Hcall).
    specialize (Hfail w0). rewrite Hcall in Hfail. done.
Qed.

Lemma step_unanswered env w0 c r r' :
  (forall f, f ∈ tasks r -> refused env f) ->
  unanswered w0 r -> step env c r = Some r' -> unanswered w0 r'.
Proof.
  intros Hrefused (Hfiles & Hsuccess & Hworkers) Hstep.
  destruct c as [|i]; simpl in Hstep.
  - unfold stepMain in Hstep. destruct (toSpawn r) as [|fi rest].
    + destruct ((wg r =? 0)%Z && negb (finished r)); [|done].
      inversion Hstep; subst; clear Hstep. split; [done|]. split; [done|]. exact Hworkers.
    + inversion Hstep; subst; clear Hstep. split; [done|]. split; [done|]. simpl.
      intros j fj ok Hj. apply lookup_app_Some in Hj as [Hj|[_ Hj]].
      * exact (Hworkers j fj ok Hj).
      * apply list_lookup_singleton_Some in Hj as [_ Hj]. by inversion Hj.
  - unfold stepWorker in Hstep.
    destruct (workers r !! i) as [[fi g]|] eqn:Hi; [|done].
    assert (Hlookup : forall g' j fj gj,
               setWorker i fi g' r !! j = Some (fj, gj) ->
               (j = i /\ fj = fi /\ gj = g') \/ (j <> i /\ workers r !! j = Some (fj, gj))).
    { intros g' j fj gj Hj. unfold setWorker in Hj.
      destruct (decide (j = i)) as [->|Hne].
      - rewrite list_lookup_insert_eq in Hj by (by eapply lookup_lt_Some).
        inversion Hj; subst. by left.
      - rewrite list_lookup_insert_ne in Hj by done. by right. }
    destruct g as [| |ok| | |]; try done.
    + destruct (Acquire (apiSemaphore r)) as [sem|]; [|done].
      inversion Hstep; subst; clear Hstep. split; [done|]. split; [done|]. simpl.
      intros j fj ok Hj. apply Hlookup in Hj as [(_ & _ & Hg)|[_ Hj]]; [done|].
      exact (Hworkers j fj ok Hj).
    + assert (Hfi : fi ∈ tasks r).
      { unfold tasks. apply elem_of_app. left. apply list_elem_of_fmap.
        exists (fi, Acquired). split; [done|]. by apply list_elem_of_lookup_2 in Hi. }
      destruct (processFileContent_refused env fi (world r) (Hrefused fi Hfi))
        as (w' & Hrun & Hsame).
      rewrite Hrun in Hstep. inversion Hstep; subst; clear Hstep.
      split; [simpl; congruence|]. split; [done|]. simpl.
      intros j fj ok Hj. apply Hlookup in Hj as [(_ & _ & Hg)|[_ Hj]]; [by inversion Hg|].
      exact (Hworkers j fj ok Hj).
    + rewrite (Hworkers i fi ok Hi) in Hstep. simpl in Hstep.
      inversion Hstep; subst; clear Hstep. split; [done|]. split; [done|]. simpl.
      intros j fj ok' Hj. apply Hlookup in Hj as [(_ & _ & Hg)|[_ Hj]]; [done|].
      exact (Hworkers j fj ok' Hj).
    + destruct (Release (apiSemaphore r)) as [sem|]; [|done].
      inversion Hstep; subst; clear Hstep. split; [done|]. split; [done|]. simpl.
      intros j fj ok Hj. apply Hlookup in Hj as [(_ & _ & Hg)|[_ Hj]]; [done|].
      exact (Hworkers j fj ok Hj).
    + inversion Hstep; subst; clear Hstep. split; [done|]. split; [done|]. simpl.
      intros j fj ok Hj. apply Hlookup in Hj as [(_ & _ & Hg)|[_ Hj]]; [done|].
      exact (Hworkers j fj ok Hj).
Qed.

Lemma play_unanswered env w0 schedule :
  forall r r',
    (forall f, f ∈ tasks r -> refused env f) ->
    unanswered w0 r -> play env schedule r = Some r' -> unanswered w0 r'.
Proof.
  induction schedule as [|c schedule IH]; intros r r' Hrefused Hr Hplay; simpl in Hplay.
  - by inversion Hplay; subst.
  - destruct (step env c r) as [r1|] eqn:Hstep; [|done].
    pose proof (step_tasks _ _ _ _ Hstep) as Htasks.
    apply (IH r1 r'); [by rewrite Htasks| |done].
    by eapply step_unanswered.
Qed.

(** X16.  When every attempt to transform the content of every task
    fails, no file is changed in any state of the run, under any schedule,
    and once [main] has finished the status bar has counted [N] failures
    and no success. *)
Theorem service_down_changes_nothing env fs w schedule r :
  (forall f, f ∈ fs -> refused env f) ->
  (Z.of_nat (length fs) <= maxInt)%Z ->
  play env schedule (start fs w) = Some r ->
  files (world r) = files w /\
  (finished r = true ->
   statusBar r = mkStatusBar (Z.of_nat (length fs)) (Z.of_nat (length fs))
                             0 (Z.of_nat (length fs))).
Proof.
  intros Hrefused HN Hplay.
  assert (Hstart : unanswered w (start fs w)).
  { split; [done|]. split; [done|]. intros i fi ok Hi. by destruct i. }
  destruct (play_unanswered env w schedule (start fs w) r Hrefused Hstart Hplay)
    as (Hfiles & Hsuccess & _).
  split; [done|]. intros Hfin.
  destruct (play_invariant env schedule _ _ (initial_invariant fs w) Hplay)
    as (Hinv & Htasks & _).
  destruct Hinv as (_ & _ & _ & Hwg & Hdone). destruct (Hdone Hfin) as [Hnil Hzero].
  assert (Hall : Forall (fun fg => fg.2 = Done) (workers r)).
  { apply not_done_zero. unfold countWorkers in Hwg. lia. }
  assert (Hws : (workers r).*1 = fs).
  { unfold tasks in Htasks. rewrite Hnil, app_nil_r in Htasks. by rewrite Htasks. }
  pose proof (play_barInvariant env _ schedule HN _ _ (initial_invariant fs w)
                (start_barInvariant fs w) Hplay)
    as (Htotal & Hsum & _ & _ & Hprocessed & _).
  assert (Hcount : countWorkers hasReported r = length fs).
  { rewrite <- Hws, length_fmap. unfold countWorkers. clear -Hall.
    induction Hall as [|[fi g] ws Hd _ IH]; [done|]. simpl in *. subst g. simpl. lia. }
  rewrite Hcount in Hprocessed.
  destruct (statusBar r) as [t p s f]. simpl in *. f_equal; lia.
Qed.

Lemma service_down_changes_nothing_witness :
  let env := sampleEnv noEntry (fun _ => None) (fun _ _ => WriteCompletes) timesOut in
  exists r,
    play env (oneByOne 4) (start fourFiles batchWorld) = Some r /\
    finished r = true /\
    files (world r) = files batchWorld /\
    statusBar r = mkStatusBar 4 4 0 4.
Proof.
  intros env.
  destruct (play env (oneByOne 4) (start fourFiles batchWorld)) as [r|] eqn:Hplay;
    [|vm_compute in Hplay; discriminate].
  exists r. split; [done|].
  assert (Hfin : finished r = true).
  { pose proof Hplay as H. vm_compute in H. inversion H. reflexivity. }
  split; [done|].
  assert (Hrefused : forall f, f ∈ fourFiles -> refused env f).
  { intros f _ w0. unfold processWithGemini. simpl. unfold client_Do, bind, ret. simpl.
    discriminate. }
  assert (HN : (Z.of_nat (length fourFiles) <= maxInt)%Z) by (vm_compute; discriminate).
  destruct (service_down_changes_nothing env fourFiles batchWorld (oneByOne 4) r
              Hrefused HN Hplay) as [Hfiles Hbar].
  split; [exact Hfiles|exact (Hbar Hfin)].
Defined.

(** ** The progress bar *)

Lemma repeated_snoc c n : repeated c n +:+ String c "" = repeated c (S n).
Proof. induction n as [|n IH]; [done|]. simpl. rewrite append_cons. by rewrite IH. Qed.

Lemma length_repeated c n : String.length (repeated c n) = n.
Proof. induction n as [|n IH]; [done|]. simpl. by rewrite IH. Qed.

(** The loop appends, for the positions [i .. i + remaining - 1], a run of
    ["="] for those below [completed] followed by blanks. *)
Lemma barFrom_filled completed remaining :
  forall i bar,
    barFrom completed remaining i bar
    = bar +:+ filled remaining
                (Z.to_nat (Z.max 0 (Z.min (Z.of_nat remaining) (completed - i)))).
Proof.
  induction remaining as [|n IH]; intros i bar.
  - replace (Z.to_nat (Z.max 0 (Z.min (Z.of_nat 0) (completed - i)))) with 0%nat by lia.
    simpl. unfold filled. simpl. by rewrite append_empty_r.
  - cbn [barFrom]. rewrite IH. destruct (Z.ltb_spec i completed) as [Hlt|Hge].
    + replace (Z.to_nat (Z.max 0 (Z.min (Z.of_nat (S n)) (completed - i))))
        with (S (Z.to_nat (Z.max 0 (Z.min (Z.of_nat n) (completed - (i + 1)))))) by lia.
      unfold filled. rewrite append_assoc. f_equal.
    + replace (Z.to_nat (Z.max 0 (Z.min (Z.of_nat n) (completed - (i + 1))))) with 0%nat by lia.
      replace (Z.to_nat (Z.max 0 (Z.min (Z.of_nat (S n)) (completed - i)))) with 0%nat by lia.
      unfold filled. rewrite append_assoc. f_equal. by rewrite !Nat.sub_0_r.
Qed.

Lemma length_filled width k : (k <= width)%nat -> String.length (filled width k) = width.
Proof. intros H. unfold filled. rewrite length_append, !length_repeated. lia. Qed.

(** X17.  Whatever the percentage (negative, above 100, not a number),
    [getProgressBar] returns 20 bytes: some ["="] followed by blanks.  At
    100, as [Finish] calls it, all 20 are ["="]; at 0 none is. *)
Theorem getProgressBar_width (percentage : float) :
  String.length (getProgressBar percentage) = 20%nat /\
  (exists k, (k <= 20)%nat /\ getProgressBar percentage = filled 20 k) /\
  (forall completed, exists k, (k <= 20)%nat /\ barFrom completed 20 0 "" = filled 20 k) /\
  getProgressBar 100 = filled 20 20 /\
  getProgressBar 0 = filled 20 0.
Proof.
  assert (Hloop : forall completed,
             exists k, (k <= 20)%nat /\ barFrom completed 20 0 "" = filled 20 k).
  { intros completed. rewrite barFrom_filled, append_empty_l.
    eexists. split; [|done]. lia. }
  assert (Hany : exists k, (k <= 20)%nat /\ getProgressBar percentage = filled 20 k).
  { unfold getProgressBar. change (Z.to_nat 20) with 20%nat. apply Hloop. }
  split; [destruct Hany as (k & Hk & ->); by apply length_filled|].
  split; [exact Hany|]. split; [exact Hloop|].
  split; vm_compute; reflexivity.
Qed.

Lemma barsProportional_200 : forallb barsProportional (seq 1 200) = true.
Proof. vm_compute. reflexivity. Qed.

(** X18.  For a batch of up to 200 files, the bar [update] draws after
    [processed] of [total] files has [20 * processed / total] positions
    filled, rounded down: the binary64 computation
    [float64(processed) / float64(total) * 100 / 100 * 20] loses nothing
    to rounding there.  (Checked by evaluating the binary64 computation
    for every pair in the range.) *)
Theorem getProgressBar_proportional (s : StatusBar) :
  (1 <= total s <= 200)%Z -> (0 <= processed s <= total s)%Z ->
  getProgressBar (percentage s)
  = filled 20 (Z.to_nat (20 * processed s / total s)).
Proof.
  intros Ht Hp.
  pose proof barsProportional_200 as Hall. rewrite forallb_forall in Hall.
  specialize (Hall (Z.to_nat (total s))).
  assert (Hin : In (Z.to_nat (total s)) (seq 1 200)) by (apply in_seq; lia).
  specialize (Hall Hin). unfold barsProportional in Hall. rewrite forallb_forall in Hall.
  specialize (Hall (Z.to_nat (processed s))).
  assert (Hin' : In (Z.to_nat (processed s)) (seq 0 (Z.to_nat (total s) + 1)))
    by (apply in_seq; lia).
  specialize (Hall Hin'). apply String.eqb_eq in Hall.
  rewrite !Z2Nat.id in Hall by lia.
  assert (Hsame : percentage (mkStatusBar (total s) (processed s) 0 0) = percentage s) by done.
  rewrite Hsame in Hall. rewrite Hall. f_equal.
  rewrite <- (Z2Nat.id (processed s)) at 2 by lia.
  rewrite <- (Z2Nat.id (total s)) at 2 by lia.
  rewrite <- (Nat2Z.inj_mul 20), <- Nat2Z.inj_div, Nat2Z.id. done.
Qed.

Lemma getProgressBar_proportional_witness :
  getProgressBar (percentage (mkStatusBar 3 1 1 0)) = "======              ".
Proof.
  refine (getProgressBar_proportional (mkStatusBar 3 1 1 0) _ _).
  - simpl. lia.
  - simpl. lia.
Defined.

(** ** Start-up *)

Lemma init_prints load getenv w : printsOnly w (init load getenv w).2.
Proof.
  unfold init, printsOnly.
  destruct load as [e|]; destruct (String.eqb (getenv "GEMINI_API_KEY") "");
    try destruct (String.eqb (getenv "GEMINI_API_URL") ""); run;
    eexists; rewrite <- ?app_assoc; simpl;
    (split; [try reflexivity|repeat constructor; eauto]);
    try (by rewrite app_nil_r; destruct w).
Qed.

(** X19.  [init] only prints.  Without [GEMINI_API_KEY] the program
    exits with code 1 before [main] runs, whatever the arguments, its last
    line asking for the key; a failure to load [.env] and a missing
    [GEMINI_API_URL] are not fatal.  With the key, the program is [main]
    run with that key and a non-empty URL: the configured one, or the
    default when none is configured. *)
Theorem missing_key_stops_before_main load getenv env args recursive w :
  let '(out, w') := fixmd load getenv env args recursive w in
  printsOnly w (init load getenv w).2 /\
  (getenv "GEMINI_API_KEY" = "" ->
   out = Exit 1 /\ w' = (init load getenv w).2 /\
   last (trace w')
   = Some (EvPrint "Please set it in .env file or as an environment variable.")) /\
  (getenv "GEMINI_API_KEY" <> "" ->
   exists url,
     (out, w') = main (withCredentials env (getenv "GEMINI_API_KEY") url) args recursive
                      (init load getenv w).2 /\
     url <> "" /\
     url = if String.eqb (getenv "GEMINI_API_URL") "" then DefaultGeminiAPIURL
           else getenv "GEMINI_API_URL").
Proof.
  destruct (fixmd load getenv env args recursive w) as [out w'] eqn:H.
  split; [apply init_prints|]. unfold fixmd, bind in H.
  destruct (init load getenv w) as [credentials w0] eqn:Hinit. simpl.
  unfold init in Hinit.
  split.
  - intros Hkey. rewrite Hkey in Hinit. simpl in Hinit.
    destruct load; run; inversion Hinit; subst; inversion H; subst; simpl;
      rewrite ?last_snoc; done.
  - intros Hkey. apply String.eqb_neq in Hkey. rewrite Hkey in Hinit.
    destruct (String.eqb_spec (getenv "GEMINI_API_URL") "") as [Hurl|Hurl].
    + exists DefaultGeminiAPIURL.
      destruct load; run; inversion Hinit; subst; by rewrite H.
    + exists (getenv "GEMINI_API_URL").
      destruct load; run; inversion Hinit; subst; by rewrite H.
Qed.

(** ** The semaphore by itself *)

Lemma acquireTimes_room n :
  forall s, is_Some (acquireTimes n s) <-> (len s + n <= cap s)%nat \/ n = 0%nat.
Proof.
  induction n as [|n IH]; intros s.
  - simpl. split; [by right|by eexists].
  - simpl. unfold Acquire. destruct (Nat.ltb_spec (len s) (cap s)) as [Hlt|Hge].
    + rewrite IH. simpl. split; [intros [H| ->]; left; lia|intros [H|H]; [left; lia|done]].
    + split; [by intros [? ?]|intros [H|H]; [lia|done]].
Qed.

(** X20.  A semaphore created with capacity [max] lets exactly [max]
    calls of [Acquire] through before one blocks; [Release] blocks on a
    fresh semaphore; and [Release] undoes [Acquire], the capacity staying
    as it is. *)
Theorem semaphore_admits_up_to_capacity (max n : nat) :
  (is_Some (acquireTimes n (NewApiSemaphore max)) <-> (n <= max)%nat) /\
  Release (NewApiSemaphore max) = None /\
  (forall s s', Acquire s = Some s' -> Release s' = Some s /\ cap s' = cap s).
Proof.
  split; [|split].
  - rewrite acquireTimes_room. simpl. lia.
  - done.
  - intros [c l] s' H. unfold Acquire in H. simpl in H.
    destruct (l <? c)%nat; [|done]. by inversion H; subst.
Qed.

(** ** How [main] ends *)

Lemma backupThenProcess_explained env fs w :
  fs <> [] ->
  let '(out, w') := backupThenProcess env fs w in
  exists t line, trace w' = trace w ++ t ++ [EvPrint line] /\ explains out line /\
                 out <> Exit 0.
Proof.
  intros Hne. unfold backupThenProcess, bind at 1.
  destruct (Println "=== Creating Backups ===" w) as [[] w0] eqn:Hp.
  assert (Hw0 : trace w0 = trace w ++ [EvPrint "=== Creating Backups ==="])
    by (run; by inversion Hp).
  unfold bind at 1. destruct (backupAllFiles env fs w0) as [err w1] eqn:Hb.
  unfold backupAllFiles in Hb. apply backupFrom_spec in Hb as (_ & _ & (t & Ht & _) & _).
  destruct err as [m|]; run.
  - eexists (_ :: t), _. rewrite Ht, Hw0, <- !app_assoc. split; [done|].
    split; [|done]. left. split; [done|]. right. apply HasPrefix_append.
  - eexists (_ :: t), _. rewrite Ht, Hw0, <- !app_assoc. split; [done|]. done.
Qed.

(** X21.  The last line [main] prints tells how it ended.  An exit with
    code 1 follows the usage line or an "ERROR: " line; an exit with code 0
    follows the line saying that the file was skipped or that no Markdown
    file was found, and then no file was changed and no request sent; and
    the workers are started only for a non-empty batch, right after the
    line that opens the processing phase. *)
Theorem main_outcome_is_explained env args recursive w :
  let '(out, w') := main env args recursive w in
  exists t line,
    trace w' = trace w ++ t ++ [EvPrint line] /\
    explains out line /\
    (out = Exit 0 -> files w' = files w /\ calls w' = calls w).
Proof.
  unfold main.
  destruct args as [|path rest].
  { run. eexists [], _. split; [done|]. split; [|done]. left. split; [done|]. by left. }
  destruct (Getwd env) as [workDir [e|]] eqn:Hwd.
  { run. eexists [], _. split; [done|]. split; [|done]. left. split; [done|]. right.
    apply HasPrefix_append. }
  destruct (Stat env path) as [fileInfo [e|]] eqn:Hstat.
  { run. eexists [], _. split; [done|]. split; [|done]. left. split; [done|]. right.
    apply HasPrefix_append. }
  set (backupDir := filepath.Join [workDir; BackupDirName]).
  destruct (IsDir (info_of fileInfo)) eqn:Hdir.
  - unfold bind at 1. unfold bind at 1.
    destruct (Println ("Collecting markdown files from directory: " +:+ path) w)
      as [[] w1] eqn:Hp.
    assert (Hw1 : w1 = mkWorld (files w)
                         (trace w ++ [EvPrint ("Collecting markdown files from directory: "
                                               +:+ path)])
                         (calls w) (draws w)) by (run; by inversion Hp).
    unfold bind at 1.
    destruct (collectFilesFromDir_reads env path backupDir recursive w1 w1) as [Hsame _].
    destruct (collectFilesFromDir env path backupDir recursive w1) as [[fs err] w2].
    simpl in Hsame. subst w2.
    destruct err as [e|].
    + run. subst w1. simpl. eexists [_], _. rewrite <- !app_assoc. split; [done|].
      split; [|done]. left. split; [done|]. right. apply HasPrefix_append.
    + unfold bind at 1.
      match goal with |- context [Println ?l w1] =>
        destruct (Println l w1) as [[] w3] eqn:Hp3 end.
      assert (Hw3 : exists l3, w3 = mkWorld (files w1) (trace w1 ++ [EvPrint l3])
                                            (calls w1) (draws w1))
        by (run; inversion Hp3; eauto).
      destruct Hw3 as [l3 Hw3]. cbn [ret].
      destruct fs as [|f fs].
      * run. subst w3 w1. simpl. eexists [_; _], _. rewrite <- !app_assoc.
        split; [done|]. split; [|done]. right. split; [done|]. by right.
      * change ((length (f :: fs) =? 0)%nat) with false. cbv iota.
        pose proof (backupThenProcess_explained env (f :: fs) w3 ltac:(done)) as Hb.
        destruct (backupThenProcess env (f :: fs) w3) as [out w4].
        destruct Hb as (t & line & Ht & Hex & Hnz).
        exists ([EvPrint ("Collecting markdown files from directory: " +:+ path);
                 EvPrint l3] ++ t), line.
        rewrite Ht. subst w3 w1. simpl. rewrite <- !app_assoc. split; [done|].
        split; [done|]. intros ->. done.
  - destruct (strings.HasSuffix (strings.ToLower path) ".md") eqn:Hmd; cbn [negb].
    + unfold bind at 1. unfold bind at 1.
      destruct (prepareFileForProcessing env path backupDir w) as [[f err] w1] eqn:Hprep.
      apply prepareFileForProcessing_reads in Hprep as [-> _].
      destruct err as [e|].
      * run. eexists [], _. split; [done|]. split; [|done]. left. split; [done|]. right.
        apply HasPrefix_append.
      * cbn [ret]. change ((length [f] =? 0)%nat) with false. cbv iota.
        pose proof (backupThenProcess_explained env [f] w ltac:(done)) as Hb.
        destruct (backupThenProcess env [f] w) as [out w4].
        destruct Hb as (t & line & Ht & Hex & Hnz).
        exists t, line. split; [done|]. split; [done|]. intros ->. done.
    + run. eexists [], _. split; [done|]. split; [|done]. right. split; [done|]. left.
      apply HasPrefix_append.
Qed.

(** ** The status bar under reordering *)

Lemma runCalls_cons c cs s :
  (runCalls (c :: cs) s).1 = (runCalls cs (call c s).1).1.
Proof.
  cbn [runCalls]. destruct (call c s) as [s1 line]. cbn [fst].
  by destruct (runCalls cs s1).
Qed.

Lemma call_commutes c1 c2 s :
  (call c1 (call c2 s).1).1 = (call c2 (call c1 s).1).1.
Proof. by destruct c1, c2. Qed.

Lemma runCalls_permutation cs cs' :
  cs ≡ₚ cs' -> forall s, (runCalls cs s).1 = (runCalls cs' s).1.
Proof.
  induction 1 as [|c cs cs' _ IH|c1 c2 cs|cs1 cs2 cs3 _ IH1 _ IH2]; intros s.
  - done.
  - by rewrite !runCalls_cons, IH.
  - by rewrite !runCalls_cons, call_commutes.
  - by rewrite IH1, IH2.
Qed.

Lemma runCalls_counts cs :
  forall s,
    (0 <= success s)%Z -> (0 <= failed s)%Z -> (0 <= processed s)%Z ->
    (processed s + Z.of_nat (length cs) <= maxInt)%Z ->
    (success s <= processed s)%Z -> (failed s <= processed s)%Z ->
    (runCalls cs s).1
    = mkStatusBar (total s)
        (processed s + Z.of_nat (reported true cs + reported false cs))
        (success s + Z.of_nat (reported true cs))
        (failed s + Z.of_nat (reported false cs)).
Proof.
  unfold reported.
  induction cs as [|c cs IH]; intros s Hs Hf Hp Hroom Hsp Hfp.
  - simpl. destruct s. simpl. f_equal; lia.
  - rewrite runCalls_cons. cbn [length] in Hroom.
    assert (Hip : incr (processed s) = (processed s + 1)%Z)
      by (apply (incr_below _ maxInt); lia).
    assert (His : incr (success s) = (success s + 1)%Z)
      by (apply (incr_below _ maxInt); lia).
    assert (Hif : incr (failed s) = (failed s + 1)%Z)
      by (apply (incr_below _ maxInt); lia).
    rewrite !filter_cons.
    destruct c; cbn [call reports]; unfold IncrementSuccess, IncrementFailed, Finish; cbn [fst].
    + rewrite IH; cbn [total processed success failed]; rewrite ?Hip, ?His; try lia.
      repeat case_decide; try done. cbn [length]. f_equal; lia.
    + rewrite IH; cbn [total processed success failed]; rewrite ?Hip, ?Hif; try lia.
      repeat case_decide; try done. cbn [length]. f_equal; lia.
    + rewrite IH by lia.
      repeat case_decide; done.
Qed.

(** X22.  The counters of the status bar do not depend on the order in
    which the workers report: any two orders of the same calls end with the
    same counters.  While the calls are no more than the largest [int], the
    bar ends with [success] the number of [IncrementSuccess] calls, [failed]
    the number of [IncrementFailed] calls and [processed] their sum, with
    [total] unchanged; [Finish] changes no counter. *)
Theorem statusBar_counts_reports (N : Z) (cs cs' : list BarCall) :
  cs ≡ₚ cs' ->
  (runCalls cs (NewStatusBar N)).1 = (runCalls cs' (NewStatusBar N)).1 /\
  ((Z.of_nat (length cs) <= maxInt)%Z ->
   (runCalls cs (NewStatusBar N)).1
   = mkStatusBar N (Z.of_nat (reported true cs + reported false cs))
                 (Z.of_nat (reported true cs)) (Z.of_nat (reported false cs))).
Proof.
  intros Hperm. split; [by apply runCalls_permutation|].
  intros Hlen. rewrite runCalls_counts; simpl; try lia. done.
Qed.

Lemma statusBar_counts_reports_witness :
  (runCalls [CallSuccess; CallFailed; CallSuccess] (NewStatusBar 3)).1
  = (runCalls [CallFailed; CallSuccess; CallSuccess] (NewStatusBar 3)).1 /\
  (runCalls [CallSuccess; CallFailed; CallSuccess] (NewStatusBar 3)).1 = mkStatusBar 3 3 2 1.
Proof.
  destruct (statusBar_counts_reports 3 [CallSuccess; CallFailed; CallSuccess]
              [CallFailed; CallSuccess; CallSuccess]) as [Hsame Hcount].
  - apply perm_swap.
  - split; [exact Hsame|]. apply Hcount. vm_compute. discriminate.
Defined.
